(** * Sidvy MCP server: a shallow embedding of the API layer

    The development follows the TypeScript sources:
    - the type definitions: the data model ([Group], [Note], [Todo], [ApiResponse]);
    - [src/api/client.ts]: [SidvyApiClient.request];
    - [src/api/groups.ts]: [GroupsApi] (listing, paging, path, tree, path creation);
    - the classes [NotesApi] and [TodosApi]: the get-by-id helpers and [appendToNote].

    JavaScript objects that are shared and mutated (the tree nodes of
    [buildGroupTree]) live in an explicit store; remote calls thread an
    explicit world (service state and request log). *)

From stdpp Require Import gmap strings list sorting pretty.
From Stdlib Require Import ZArith Ascii ZifyNat.

Local Open Scope Z_scope.
Set Warnings "-register-all,-clear-no-such-hyp".

(** ** Data model *)

Module Types.

(** [interface Group]; [parentId?: string | null] is [None] when the
    field is absent or null. *)
Record Group := mkGroup {
  group_id : string;
  group_name : string;
  group_userId : string;
  group_workspaceId : string;
  group_parentId : option string
}.

(** The fields of [interface Note] the API layer reads. *)
Record Note := mkNote {
  note_id : string;
  note_name : string;
  note_content : string;
  note_workspaceId : string;
  note_groupId : option string;
  note_isDeleted : bool
}.

(** The fields of [interface Todo] the API layer reads. *)
Record Todo := mkTodo {
  todo_id : string;
  todo_text : string;
  todo_completed : bool;
  todo_workspaceId : string;
  todo_noteId : string;
  todo_lineNumber : Z
}.

(** [ApiError.error.code] *)
Inductive ErrorCode :=
| UNAUTHORIZED | VALIDATION_ERROR | NOT_FOUND | FORBIDDEN
| INTERNAL_ERROR | MALFORMED_REQUEST | HTTP_ERROR | NETWORK_ERROR.

Record Pagination := mkPagination {
  pg_page : Z; pg_limit : Z; pg_total : Z; pg_totalPages : Z
}.

(** [ApiSuccessResponse.meta]; only [pagination] is read by the code. *)
Record Meta := mkMeta { meta_pagination : option Pagination }.

(** [type ApiResponse<T> = ApiSuccessResponse<T> | ApiError] *)
Inductive ApiResponse (T : Type) :=
| ApiSuccess (data : T) (meta : option Meta)
| ApiError (code : ErrorCode) (message : string).
Arguments ApiSuccess {T} data meta.
Arguments ApiError {T} code message.

#[global] Instance Group_eq_dec : EqDecision Group.
Proof. solve_decision. Defined.
#[global] Instance Note_eq_dec : EqDecision Note.
Proof. solve_decision. Defined.
#[global] Instance Todo_eq_dec : EqDecision Todo.
Proof. solve_decision. Defined.

End Types.
Export Types.

(** ** JavaScript helpers *)

Module JS.

(** Truthiness of a [string | null | undefined] value: the empty string,
    [null] and [undefined] are falsy. *)
Definition truthy (v : option string) : bool :=
  match v with
  | Some s => negb (String.eqb s "")
  | None => false
  end.

(** [Array.prototype.sort(compareFn)]: the sort is stable; an element
    moves behind another only when [compareFn] is positive on them. *)
Fixpoint sort_insert {A : Type} (compareFn : A → A → Z) (x : A) (l : list A) : list A :=
  match l with
  | [] => [x]
  | y :: l' => if 0 <? compareFn x y then y :: sort_insert compareFn x l' else x :: l
  end.

Definition array_sort {A : Type} (compareFn : A → A → Z) (l : list A) : list A :=
  foldr (sort_insert compareFn) [] l.

(** [x] does not sort after [y]. *)
Definition notAfter {A : Type} (compareFn : A → A → Z) (x y : A) : Prop :=
  compareFn x y ≤ 0.

(** The comparator is consistent in the sense of ECMAScript: swapping
    the arguments flips the sign, and "not after" is transitive. *)
Definition Consistent {A : Type} (compareFn : A → A → Z) : Prop :=
  (∀ a b, Z.sgn (compareFn a b) = - Z.sgn (compareFn b a)) ∧
  (∀ a b c, compareFn a b ≤ 0 → compareFn b c ≤ 0 → compareFn a c ≤ 0).

(** [Array.prototype.find] *)
Fixpoint array_find {A : Type} (p : A → bool) (l : list A) : option A :=
  match l with
  | [] => None
  | x :: l' => if p x then Some x else array_find p l'
  end.

(** Code-unit comparison of two strings, as a number: one admissible
    value of [String.prototype.localeCompare] (the collation itself is
    the host's). *)
Fixpoint codeUnitCompare (a b : string) : Z :=
  match a, b with
  | EmptyString, EmptyString => 0
  | EmptyString, String _ _ => -1
  | String _ _, EmptyString => 1
  | String x a', String y b' =>
      let d := Z.of_N (Ascii.N_of_ascii x) - Z.of_N (Ascii.N_of_ascii y) in
      if d =? 0 then codeUnitCompare a' b' else d
  end.

End JS.

(** ** [GroupsApi.buildGroupTree] ([src/api/groups.ts]) *)

Module Tree.
Import JS.

(** A [GroupTreeNode] object while the tree is being built.  The
    [children] array holds references to other node objects; every
    node object is the value of [groupMap] at its group's id, so a
    reference is that key. *)
Record NodeObj := mkNodeObj {
  node_group : Group;
  node_children : list string;
  node_level : nat;
  node_path : list string
}.

(** The value [buildGroupTree] returns, read off the store: [interface
    GroupTreeNode extends Group { children; level; path }]. *)
Inductive GroupTreeNode :=
| TreeNode (group : Group) (children : list GroupTreeNode)
           (level : nat) (path : list string).

Abbreviation Store := (gmap string NodeObj).

Section Build.
(** [a.name.localeCompare(b.name)] *)
Variable localeCompare : string → string → Z.

(** [groupMap.set(group.id, { ...group, children: [], level: 0, path: [] })] *)
Definition createNode (groupMap : Store) (group : Group) : Store :=
  <[group_id group := mkNodeObj group [] 0 []]> groupMap.

Definition push_child (child : string) (n : NodeObj) : NodeObj :=
  mkNodeObj (node_group n) (node_children n ++ [child]) (node_level n) (node_path n).
Definition set_level (lv : nat) (n : NodeObj) : NodeObj :=
  mkNodeObj (node_group n) (node_children n) lv (node_path n).
Definition set_path (p : list string) (n : NodeObj) : NodeObj :=
  mkNodeObj (node_group n) (node_children n) (node_level n) p.
Definition set_children (cs : list string) (n : NodeObj) : NodeObj :=
  mkNodeObj (node_group n) cs (node_level n) (node_path n).

(** The body of the second [groups.forEach]: the state is the store
    and the [rootGroups] array. *)
Definition link (st : Store * list string) (group : Group) : Store * list string :=
  let '(groupMap, rootGroups) := st in
  let node := group_id group in
  if truthy (group_parentId group) then
    let parentId := default "" (group_parentId group) in
    match groupMap !! parentId with
    | Some _ =>
        (* parent.children.push(node) *)
        let m1 := alter (push_child node) parentId groupMap in
        (* node.level = parent.level + 1 *)
        let lv := from_option node_level 0%nat (m1 !! parentId) in
        let m2 := alter (set_level (S lv)) node m1 in
        (* node.path = [...parent.path, parent.name] *)
        let pa := from_option (λ p, node_path p ++ [group_name (node_group p)]) [] (m2 !! parentId) in
        (alter (set_path pa) node m2, rootGroups)
    | None => (groupMap, rootGroups)
    end
  else (groupMap, rootGroups ++ [node]).

Definition nodeName (m : Store) (r : string) : string :=
  from_option (λ n, group_name (node_group n)) "" (m !! r).

(** [nodes.sort((a, b) => a.name.localeCompare(b.name))] *)
Definition sortNodes (m : Store) (nodes : list string) : list string :=
  array_sort (λ a b, localeCompare (nodeName m a) (nodeName m b)) nodes.

(** [sortChildren(nodes)]: sorts the array in place, then recurses
    into the [children] array of every element.  The recursion of
    the source has no bound; [fuel] bounds its depth here and [None]
    stands for a recursion that does not come back.  The result is
    the sorted array and the store. *)
Fixpoint sortChildren (fuel : nat) (m : Store) (nodes : list string)
  : option (list string * Store) :=
  match fuel with
  | O => None
  | S fuel' =>
      let sorted := sortNodes m nodes in
      m' ← foldl (λ acc r,
              m0 ← acc;
              n ← m0 !! r;
              '(cs, m1) ← sortChildren fuel' m0 (node_children n);
              Some (alter (set_children cs) r m1))
            (Some m) sorted;
      Some (sorted, m')
  end.

(** Reading the tree below a node object off the store. *)
Fixpoint readNode (fuel : nat) (m : Store) (r : string) : option GroupTreeNode :=
  match fuel with
  | O => None
  | S fuel' =>
      n ← m !! r;
      cs ← mapM (readNode fuel' m) (node_children n);
      Some (TreeNode (node_group n) cs (node_level n) (node_path n))
  end.

Definition buildGroupTree (fuel : nat) (groups : list Group)
  : option (list GroupTreeNode) :=
  let groupMap := foldl createNode ∅ groups in
  let '(groupMap1, rootGroups) := foldl link (groupMap, []) groups in
  '(rootGroups', groupMap2) ← sortChildren fuel groupMap1 rootGroups;
  mapM (readNode fuel groupMap2) rootGroups'.

End Build.

(** The tree without the computed [level] and [path]: which group sits
    where, and in which order. *)
Inductive Shape := ShapeNode (group : Group) (children : list Shape).

Fixpoint shape (t : GroupTreeNode) : Shape :=
  match t with
  | TreeNode g cs _ _ => ShapeNode g (map shape cs)
  end.


(** *** Vocabulary for the properties of [buildGroupTree] *)

(** A group the second pass pushes to [rootGroups]. *)
Definition isRoot (g : Group) : bool := negb (truthy (group_parentId g)).

(** A group the second pass hangs below the node of id [i], provided
    that node exists. *)
Definition childOf (i : string) (g : Group) : bool :=
  truthy (group_parentId g) && bool_decide (group_parentId g = Some i).

Definition childrenOf (m : Store) (i : string) : list string :=
  from_option node_children [] (m !! i).

Definition groupOf (m : Store) (i : string) : option Group := node_group <$> (m !! i).


(** A node object whose [children] array has been sorted, and the store
    in which every node object has been. *)
Definition sortedCell (localeCompare : string → string → Z) (B : Store) (n : NodeObj) : NodeObj :=
  set_children (sortNodes localeCompare B (node_children n)) n.

Definition sortAll (localeCompare : string → string → Z) (B : Store) : Store :=
  sortedCell localeCompare B <$> B.

(** [m] is [B] with the [children] arrays of some node objects sorted. *)
Definition PartlySorted (localeCompare : string → string → Z) (B m : Store) : Prop :=
  ∀ i, m !! i = B !! i ∨ m !! i = sortedCell localeCompare B <$> (B !! i).

Definition SortedAt (localeCompare : string → string → Z) (B m : Store) (i : string) : Prop :=
  m !! i = sortedCell localeCompare B <$> (B !! i).

Definition KeepsSorted (localeCompare : string → string → Z) (B m m' : Store) : Prop :=
  ∀ i, SortedAt localeCompare B m i → SortedAt localeCompare B m' i.


(** The node of id [i] sits [k] levels below a root of the input: its
    chain of [parentId]s reaches, in [k] steps, a group without one. *)
Inductive atDepth (gs : list Group) : nat → string → Prop :=
| atDepth_root g :
    g ∈ gs → isRoot g → atDepth gs 0 (group_id g)
| atDepth_child g p k :
    g ∈ gs → childOf p g → atDepth gs k p → atDepth gs (S k) (group_id g).

(** Two groups the tree shows side by side: two roots, or two children
    of one group of the input. *)
Definition siblings (gs : list Group) (g1 g2 : Group) : Prop :=
  (isRoot g1 ∧ isRoot g2) ∨
  (∃ p, p ∈ gs ∧ childOf (group_id p) g1 ∧ childOf (group_id p) g2).

(** The store and the [rootGroups] array after the two passes. *)
Definition linked (gs : list Group) : Store * list string :=
  foldl link (foldl createNode ∅ gs, []) gs.

End Tree.

(** ** [SidvyApiClient.request] ([src/api/client.ts]) *)

Module Client.

(** A JavaScript value as [request] handles it: what [response.json()]
    parses, and the objects [request] builds.  Numbers are kept as
    integers. *)
Inductive Value :=
| VUndefined
| VNull
| VBool (b : bool)
| VNum (n : Z)
| VStr (s : string)
| VArr (items : list Value)
| VObj (fields : list (string * Value)).

(** [ToBoolean] *)
Definition truthy (v : Value) : bool :=
  match v with
  | VUndefined | VNull => false
  | VBool b => b
  | VNum n => negb (n =? 0)
  | VStr s => negb (String.eqb s "")
  | VArr _ | VObj _ => true
  end.

Fixpoint lookupField (k : string) (fields : list (string * Value)) : Value :=
  match fields with
  | [] => VUndefined
  | (k', v) :: rest => if String.eqb k k' then v else lookupField k rest
  end.

(** [(v as any)?.k] for the keys [data] and [meta]: only an object
    carries them. *)
Definition optProp (v : Value) (k : string) : Value :=
  match v with
  | VObj fields => lookupField k fields
  | _ => VUndefined
  end.

(** [a || b] *)
Definition or_else (a b : Value) : Value := if truthy a then a else b.

(** [String(v)]; an array joins its elements with commas, a [null] or
    [undefined] element giving the empty string. *)
Fixpoint toString (v : Value) : string :=
  match v with
  | VUndefined => "undefined"
  | VNull => "null"
  | VBool true => "true"
  | VBool false => "false"
  | VNum n => pretty n
  | VStr s => s
  | VArr items =>
      String.concat ","
        (List.map (λ x, match x with
                        | VUndefined | VNull => ""
                        | _ => toString x
                        end) items)
  | VObj _ => "[object Object]"
  end.

Record SidvyConfig := mkConfig {
  apiToken : string;
  apiUrl : string;
  defaultWorkspaceId : option string;
  debug : bool
}.

(** What [catch (error)] receives: an [Error] with its message, or any
    other thrown value. *)
Inductive Exn :=
| ErrorObj (message : string)
| OtherThrown.

(** A [Response]: [body] is what [response.json()] resolves to, [None]
    when it rejects. *)
Record Response := mkResponse {
  status : Z;
  statusText : string;
  body : option Value
}.

(** [response.ok] *)
Definition ok (r : Response) : bool := (200 <=? status r) && (status r <=? 299).

Inductive FetchOutcome :=
| FetchRejects (e : Exn)
| FetchResolves (r : Response).

Record Url := mkUrl { href : string; searchParams : list (string * string) }.

Record RequestInit := mkRequestInit {
  ri_method : string;
  ri_body : option Value
}.

(** A call either returns a value or throws. *)
Inductive Completion (A : Type) :=
| Returns (v : A)
| Throws (e : Exn).
Arguments Returns {A} v.
Arguments Throws {A} e.

(** [s.endsWith('/')] *)
Definition endsWithSlash (s : string) : bool :=
  match String.get (String.length s - 1) s with
  | Some c => Ascii.eqb c "/"%char
  | None => false
  end.

(** [s.startsWith('/')] *)
Definition startsWithSlash (s : string) : bool :=
  match s with
  | String c _ => Ascii.eqb c "/"%char
  | EmptyString => false
  end.

(** [s.slice(1)] *)
Definition slice1 (s : string) : string :=
  match s with
  | String _ rest => rest
  | EmptyString => EmptyString
  end.

(** The object literal of an error result. *)
Definition errorResult (code message : string) : Value :=
  VObj [("success", VBool false);
        ("error", VObj [("code", VStr code); ("message", VStr message)])].

(** [config.apiUrl] with a closing slash, and [url] without a leading one. *)
Definition baseUrlOf (config : SidvyConfig) : string :=
  if endsWithSlash (apiUrl config) then apiUrl config else apiUrl config +:+ "/".

Definition endpointOf (url : string) : string :=
  if startsWithSlash url then slice1 url else url.

(** The entries [request] appends to [fullUrl.searchParams]: those
    whose value is neither [undefined] nor [null]. *)
Definition queryOf (params : option (list (string * Value))) : list (string * string) :=
  match params with
  | Some ps =>
      omap (λ '(key, v),
              match v with
              | VUndefined | VNull => None
              | _ => Some (key, toString v)
              end) ps
  | None => []
  end.

(** [body: data ? JSON.stringify(data) : undefined] *)
Definition bodyOf (data : option Value) : option Value :=
  match data with
  | Some d => if truthy d then Some d else None
  | None => None
  end.

(** [error instanceof Error ? error.message : 'Network or server error occurred'] *)
Definition messageOf (error : Exn) : string :=
  match error with
  | ErrorObj message => message
  | OtherThrown => "Network or server error occurred"
  end.

Definition httpErrorMessage (response : Response) : string :=
  "HTTP " +:+ pretty (status response) +:+ ": " +:+ statusText response.

Section Request.
(** [new URL(endpoint, baseUrl)]: the resolved address, [None] when
    the constructor throws. *)
Variable newURL : string → string → option string.
(** The host's [fetch] on this call. *)
Variable fetch : Url → RequestInit → FetchOutcome.

(** [request]; with [config.debug] the source also writes to the
    console, which changes nothing of what is returned. *)
Definition request (config : SidvyConfig) (method url : string)
    (data : option Value) (params : option (list (string * Value)))
  : Completion Value :=
  let baseUrl := baseUrlOf config in
  let endpoint := endpointOf url in
  match newURL endpoint baseUrl with
  | None => Throws (ErrorObj "Invalid URL")
  | Some address =>
      let fullUrl := mkUrl address (queryOf params) in
      let requestInit := mkRequestInit method (bodyOf data) in
      match fetch fullUrl requestInit with
      | FetchResolves response =>
          (* response.json().catch(() => null) *)
          let responseData := default VNull (body response) in
          if negb (ok response) then
            if truthy responseData then Returns responseData
            else Returns (errorResult "HTTP_ERROR" (httpErrorMessage response))
          else
            Returns (VObj [("success", VBool true);
                           ("data", or_else (or_else (optProp responseData "data")
                                                     responseData)
                                            (VObj []));
                           ("meta", optProp responseData "meta")])
      | FetchRejects error =>
          Returns (errorResult "NETWORK_ERROR" (messageOf error))
      end
  end.

End Request.

(** The two tagged variants of [ApiResponse<T>]. *)
Definition isErrorCode (c : string) : bool :=
  bool_decide (c ∈ ["UNAUTHORIZED"; "VALIDATION_ERROR"; "NOT_FOUND"; "FORBIDDEN";
                    "INTERNAL_ERROR"; "MALFORMED_REQUEST"; "HTTP_ERROR";
                    "NETWORK_ERROR"]).

Definition isSuccessVariant (v : Value) : bool :=
  match optProp v "success" with
  | VBool true => match optProp v "data" with VUndefined => false | _ => true end
  | _ => false
  end.

Definition isFailureVariant (v : Value) : bool :=
  match optProp v "success" with
  | VBool false =>
      match optProp (optProp v "error") "code", optProp (optProp v "error") "message" with
      | VStr c, VStr _ => isErrorCode c
      | _, _ => false
      end
  | _ => false
  end.

End Client.

(** ** The remote service as the API classes see it

    [client.get/post/put] return a typed [ApiResponse<T>]; what the
    remote service answers is not part of this repository.  A [Service]
    gives the answer of each endpoint the modelled operations call, as a
    function of the service's state; a [World] is that state with the
    log of the requests issued so far. *)

Module Remote.

(** A value of a query record or of a JSON body. *)
Inductive QValue :=
| QStr (s : string)
| QNum (n : Z)
| QBool (b : bool)
| QNull.

#[global] Instance QValue_eq_dec : EqDecision QValue.
Proof. solve_decision. Defined.

(** A flat object: the entries whose value is not [undefined]. *)
Definition Fields := list (string * QValue).

Inductive Request :=
| GET (url : string) (params : Fields)
| POST (url : string) (data : Fields)
| PUT (url : string) (data : Fields)
| DELETE (url : string) (data : Fields).

#[global] Instance Request_eq_dec : EqDecision Request.
Proof. solve_decision. Defined.

Record Service := mkService {
  St : Type;
  get_group : St → Fields → St * ApiResponse (list Group);
  post_group : St → Fields → St * ApiResponse Group;
  get_note : St → Fields → St * ApiResponse (list Note);
  put_note : St → Fields → St * ApiResponse Note;
  get_todo : St → Fields → St * ApiResponse (list Todo)
}.

(** A request with the failure it was answered with, if any. *)
Record Exchange := mkExchange {
  ex_request : Request;
  ex_failure : option (ErrorCode * string)
}.

Definition failureOf {T : Type} (response : ApiResponse T) : option (ErrorCode * string) :=
  match response with
  | ApiError code message => Some (code, message)
  | ApiSuccess _ _ => None
  end.

Record World (svc : Service) := mkWorld {
  srv : St svc;
  log : list Exchange
}.
Arguments mkWorld {svc} srv log.
Arguments srv {svc} w.
Arguments log {svc} w.

(** How a call of an async method ends: it resolves, it rejects with
    [new Error(message)], or (fuel exhausted) it never settles. *)
Inductive Outcome (A : Type) :=
| Resolved (v : A)
| Rejected (message : string)
| Pending.
Arguments Resolved {A} v.
Arguments Rejected {A} message.
Arguments Pending {A}.

(** [request] appends to the URL only the parameters that are neither
    [undefined] nor [null]. *)
Definition searchParams (params : Fields) : Fields :=
  filter (λ kv, kv.2 ≠ QNull) params.

(** An optional property of an object literal: dropped when
    [undefined]. *)
Definition field {A : Type} (k : string) (inj : A → QValue) (v : option A) : Fields :=
  match v with
  | Some x => [(k, inj x)]
  | None => []
  end.

Section Calls.
Context {svc : Service}.

Definition perform {T : Type} (serve : St svc → Fields → St svc * ApiResponse T)
    (req : Request) (payload : Fields) (w : World svc) : World svc * ApiResponse T :=
  let '(s', response) := serve (srv w) payload in
  (mkWorld s' (log w ++ [mkExchange req (failureOf response)]), response).

(** [client.get<Group[]>('/group', queryParams)] and its siblings *)
Definition get_groups (params : Fields) :=
  perform (get_group svc) (GET "/group" (searchParams params)) (searchParams params).
Definition post_groups (data : Fields) :=
  perform (post_group svc) (POST "/group" data) data.
Definition get_notes (params : Fields) :=
  perform (get_note svc) (GET "/note" (searchParams params)) (searchParams params).
Definition put_notes (data : Fields) :=
  perform (put_note svc) (PUT "/note" data) data.
Definition get_todos (params : Fields) :=
  perform (get_todo svc) (GET "/todo" (searchParams params)) (searchParams params).
End Calls.

(** [client.isSuccessResponse(response)] *)
Definition isSuccessResponse {T : Type} (response : ApiResponse T) : bool :=
  match response with
  | ApiSuccess _ _ => true
  | ApiError _ _ => false
  end.

(** [client.getErrorMessage(response)] *)
Definition getErrorMessage {T : Type} (response : ApiResponse T) : string :=
  match response with
  | ApiError _ message => message
  | ApiSuccess _ _ => "Unknown error occurred"
  end.


(** The exchange was answered with a success. *)
Definition answeredOk (e : Exchange) : Prop := ex_failure e = None.

(** The request is a [GET] or a [POST] (nothing is updated or deleted). *)
Definition readsOrCreates (e : Exchange) : Prop :=
  match ex_request e with
  | GET _ _ | POST _ _ => True
  | PUT _ _ | DELETE _ _ => False
  end.


(** The query of the three get-by-id helpers: [limit = 100], the
    workspace when one is given, and no [page]. *)
Definition byIdQuery (workspaceId : option string) : Fields :=
  [("limit", QNum 100)] ++ field "workspaceId" QStr workspaceId.

End Remote.

(** ** [GroupsApi] ([src/api/groups.ts]) *)

Module GroupsApi.
Import JS Remote.

Record ListGroupsParams := mkListGroupsParams {
  lg_page : option Z;
  lg_limit : option Z;
  lg_workspaceId : option string;
  lg_parentId : option string;
  lg_search : option string;
  lg_sort : option string
}.

Record CreateGroupRequest := mkCreateGroupRequest {
  cg_name : string;
  cg_workspaceId : option string;
  cg_parentId : option string
}.

(** The [queryParams] record [listGroups] builds. *)
Definition queryParams (params : ListGroupsParams) : Fields :=
  field "page" QNum (lg_page params) ++
  field "limit" QNum (lg_limit params) ++
  field "workspaceId" QStr (lg_workspaceId params) ++
  field "parentId" QStr (lg_parentId params) ++
  field "search" QStr (lg_search params) ++
  field "sort" QStr (lg_sort params).

(** [JSON.stringify(groupData)] as a flat object. *)
Definition createBody (groupData : CreateGroupRequest) : Fields :=
  [("name", QStr (cg_name groupData))] ++
  field "workspaceId" QStr (cg_workspaceId groupData) ++
  field "parentId" QStr (cg_parentId groupData).

(** [new Map(allGroups.map((g) => [g.id, g]))]: a later entry of the
    same key replaces the earlier one. *)
Definition groupMapOf (allGroups : list Group) : gmap string Group :=
  foldl (λ m g, <[group_id g := g]> m) ∅ allGroups.

(** The [while (currentGroup)] loop of [getGroupPath]; [None] when
    [fuel] iterations did not end it. *)
Fixpoint walkUp (fuel : nat) (groupMap : gmap string Group)
    (currentGroup : option Group) (path : list string) : option (list string) :=
  match currentGroup with
  | None => Some path
  | Some g =>
      match fuel with
      | O => None
      | S fuel' =>
          walkUp fuel' groupMap
            (if truthy (group_parentId g)
             then groupMap !! default "" (group_parentId g)
             else None)
            (group_name g :: path)
      end
  end.

(** [getGroupPath] after [getAllGroupsInWorkspace] has resolved to
    [allGroups]. *)
Definition pathIn (fuel : nat) (allGroups : list Group) (groupId : string)
  : option (list string) :=
  let groupMap := groupMapOf allGroups in
  walkUp fuel groupMap (groupMap !! groupId) [].

Section Api.
Context {svc : Service}.
Abbreviation World := (World svc).

Definition listGroups (params : ListGroupsParams) (w : World)
  : World * ApiResponse (list Group) :=
  get_groups (queryParams params) w.

Definition createGroup (groupData : CreateGroupRequest) (w : World)
  : World * ApiResponse Group :=
  post_groups (createBody groupData) w.

(** [hasMore] after a page *)
Definition hasMore (page limit : Z) (data : list Group) (meta : option Meta) : bool :=
  match meta ≫= meta_pagination with
  | Some pagination => page <? pg_totalPages pagination
  | None => Z.of_nat (length data) =? limit
  end.

(** The [while (hasMore)] loop of [getAllGroupsInWorkspace]. *)
Fixpoint fetchPages (fuel : nat) (workspaceId : string) (page : Z)
    (allGroups : list Group) (w : World) : World * Outcome (list Group) :=
  match fuel with
  | O => (w, Pending)
  | S fuel' =>
      let limit := 100 in
      let '(w1, response) :=
        listGroups (mkListGroupsParams (Some page) (Some limit) (Some workspaceId)
                      None None (Some "name:asc")) w in
      match response with
      | ApiError _ _ => (w1, Rejected (getErrorMessage response))
      | ApiSuccess data meta =>
          let allGroups1 := allGroups ++ data in
          if hasMore page limit data meta
          then fetchPages fuel' workspaceId (page + 1) allGroups1 w1
          else (w1, Resolved allGroups1)
      end
  end.

Definition getAllGroupsInWorkspace (fuel : nat) (workspaceId : string) (w : World)
  : World * Outcome (list Group) :=
  fetchPages fuel workspaceId 1 [] w.

Definition getGroupById (groupId : string) (workspaceId : option string) (w : World)
  : World * ApiResponse (option Group) :=
  let '(w1, response) :=
    listGroups (mkListGroupsParams None (Some 100) workspaceId None None None) w in
  match response with
  | ApiError code message => (w1, ApiError code message)
  | ApiSuccess data _ =>
      (w1, ApiSuccess (array_find (λ g, String.eqb (group_id g) groupId) data) None)
  end.

Definition getGroupPath (fuel : nat) (groupId workspaceId : string) (w : World)
  : World * Outcome (list string) :=
  let '(w1, fetched) := getAllGroupsInWorkspace fuel workspaceId w in
  match fetched with
  | Resolved allGroups =>
      (w1, match pathIn fuel allGroups groupId with
           | Some path => Resolved path
           | None => Pending
           end)
  | Rejected message => (w1, Rejected message)
  | Pending => (w1, Pending)
  end.

(** The [for (const groupName of path)] loop of [createGroupPath],
    from the state [(createdGroups, currentParentId)]. *)
Fixpoint createGroupPathFrom (path : list string) (workspaceId : option string)
    (createdGroups : list Group) (currentParentId : option string) (w : World)
  : World * ApiResponse (list Group) :=
  match path with
  | [] => (w, ApiSuccess createdGroups None)
  | groupName :: rest =>
      (* Check if group already exists at this level *)
      let '(w1, existingGroupsResponse) :=
        listGroups (mkListGroupsParams None None workspaceId currentParentId None None) w in
      match existingGroupsResponse with
      | ApiError code message => (w1, ApiError code message)
      | ApiSuccess data _ =>
          match array_find (λ g, String.eqb (group_name g) groupName) data with
          | Some existingGroup =>
              createGroupPathFrom rest workspaceId (createdGroups ++ [existingGroup])
                (Some (group_id existingGroup)) w1
          | None =>
              (* Create the group *)
              let '(w2, createResponse) :=
                createGroup (mkCreateGroupRequest groupName workspaceId currentParentId) w1 in
              match createResponse with
              | ApiError code message => (w2, ApiError code message)
              | ApiSuccess created _ =>
                  createGroupPathFrom rest workspaceId (createdGroups ++ [created])
                    (Some (group_id created)) w2
              end
          end
      end
  end.

Definition createGroupPath (path : list string) (workspaceId : option string) (w : World)
  : World * ApiResponse (list Group) :=
  createGroupPathFrom path workspaceId [] None w.

End Api.


(** The next value of [currentGroup] in the loop of [getGroupPath]. *)
Definition parentIn (groupMap : gmap string Group) (g : Group) : option Group :=
  if truthy (group_parentId g) then groupMap !! default "" (group_parentId g) else None.


(** The parameters and the query of the request for one page. *)
Definition pageParams (workspaceId : string) (page : Z) : ListGroupsParams :=
  mkListGroupsParams (Some page) (Some 100) (Some workspaceId) None None (Some "name:asc").

Definition pageQuery (workspaceId : string) (page : Z) : Fields :=
  [("page", QNum page); ("limit", QNum 100); ("workspaceId", QStr workspaceId);
   ("sort", QStr "name:asc")].

(** The log of [k] page requests from page [p + 1] on, all answered
    with a success. *)
Definition pageLog (workspaceId : string) (p k : nat) : list Exchange :=
  map (λ i, mkExchange (GET "/group" (pageQuery workspaceId (Z.of_nat (S i)))) None) (seq p k).

(** The number of page requests for a listing of [n] items, 100 a
    page, from page [p + 1] on: with the pagination block, up to the
    last page of the listing; without it, up to the first page that is
    not full. *)
Definition pagesFrom (withMeta : bool) (n p : nat) : nat :=
  if withMeta then Nat.max 1 ((n + 99) / 100 - p) else (n / 100 - p + 1)%nat.

End GroupsApi.

(** ** [NotesApi] *)

Module NotesApi.
Import JS Remote.

Record ListNotesParams := mkListNotesParams {
  ln_page : option Z;
  ln_limit : option Z;
  ln_workspaceId : option string;
  ln_groupId : option string;
  ln_isDeleted : option bool;
  ln_search : option string;
  ln_sort : option string
}.

Record UpdateNoteRequest := mkUpdateNoteRequest {
  un_id : string;
  un_name : option string;
  un_content : option string;
  un_groupId : option string
}.

Definition queryParams (params : ListNotesParams) : Fields :=
  field "page" QNum (ln_page params) ++
  field "limit" QNum (ln_limit params) ++
  field "workspaceId" QStr (ln_workspaceId params) ++
  field "groupId" QStr (ln_groupId params) ++
  field "isDeleted" QBool (ln_isDeleted params) ++
  field "search" QStr (ln_search params) ++
  field "sort" QStr (ln_sort params).

Definition updateBody (noteData : UpdateNoteRequest) : Fields :=
  [("id", QStr (un_id noteData))] ++
  field "name" QStr (un_name noteData) ++
  field "content" QStr (un_content noteData) ++
  field "groupId" QStr (un_groupId noteData).

Section Api.
Context {svc : Service}.
Abbreviation World := (World svc).

Definition listNotes (params : ListNotesParams) (w : World)
  : World * ApiResponse (list Note) :=
  get_notes (queryParams params) w.

Definition updateNote (noteData : UpdateNoteRequest) (w : World)
  : World * ApiResponse Note :=
  put_notes (updateBody noteData) w.

Definition getNoteById (noteId : string) (workspaceId : option string) (w : World)
  : World * ApiResponse (option Note) :=
  let '(w1, response) :=
    listNotes (mkListNotesParams None (Some 100) workspaceId None None None None) w in
  match response with
  | ApiError code message => (w1, ApiError code message)
  | ApiSuccess data _ =>
      (w1, ApiSuccess (array_find (λ n, String.eqb (note_id n) noteId) data) None)
  end.

(** The separator ['\n\n'] of [appendToNote]: two line feeds. *)
Definition blankLine : string := String "010" (String "010" "").

(** [appendToNote]: the result is typed [ApiResponse<Note>] by a
    cast; a lookup that found nothing is passed on as it is, which
    [AppendMiss] records. *)
Inductive AppendResult :=
| AppendMiss (noteResponse : ApiResponse (option Note))
| AppendDone (updateResponse : ApiResponse Note).

Definition appendToNote (noteId additionalContent : string)
    (workspaceId : option string) (w : World) : World * AppendResult :=
  let '(w1, noteResponse) := getNoteById noteId workspaceId w in
  match noteResponse with
  | ApiSuccess (Some currentNote) _ =>
      let updatedContent := note_content currentNote +:+ blankLine +:+ additionalContent in
      let '(w2, r) :=
        updateNote (mkUpdateNoteRequest noteId None (Some updatedContent) None) w1 in
      (w2, AppendDone r)
  | _ => (w1, AppendMiss noteResponse)
  end.

End Api.

End NotesApi.

(** ** [TodosApi] *)

Module TodosApi.
Import JS Remote.

Record ListTodosParams := mkListTodosParams {
  lt_page : option Z;
  lt_limit : option Z;
  lt_workspaceId : option string;
  lt_noteId : option string;
  lt_completed : option bool;
  lt_isDeleted : option bool;
  lt_search : option string;
  lt_sort : option string
}.

Definition queryParams (params : ListTodosParams) : Fields :=
  field "page" QNum (lt_page params) ++
  field "limit" QNum (lt_limit params) ++
  field "workspaceId" QStr (lt_workspaceId params) ++
  field "noteId" QStr (lt_noteId params) ++
  field "completed" QBool (lt_completed params) ++
  field "isDeleted" QBool (lt_isDeleted params) ++
  field "search" QStr (lt_search params) ++
  field "sort" QStr (lt_sort params).

Section Api.
Context {svc : Service}.
Abbreviation World := (World svc).

Definition listTodos (params : ListTodosParams) (w : World)
  : World * ApiResponse (list Todo) :=
  get_todos (queryParams params) w.

Definition getTodoById (todoId : string) (workspaceId : option string) (w : World)
  : World * ApiResponse (option Todo) :=
  let '(w1, response) :=
    listTodos (mkListTodosParams None (Some 100) workspaceId None None None None None) w in
  match response with
  | ApiError code message => (w1, ApiError code message)
  | ApiSuccess data _ =>
      (w1, ApiSuccess (array_find (λ t, String.eqb (todo_id t) todoId) data) None)
  end.

End Api.

End TodosApi.

(** ** A reference service

    A small model of the remote service, used to run the operations
    above: it keeps its records in insertion order, filters a listing by
    the [workspaceId] and [parentId] parameters when they are given,
    and pages every listing ([page] from 1, [limit] from 1 to 100, 100
    when none is given). *)

Module Model.
Import JS Remote.

Record State := mkState {
  groups : list Group;
  notes : list Note;
  todos : list Todo;
  nextId : nat
}.

Fixpoint lookupQ (k : string) (q : Fields) : option QValue :=
  match q with
  | [] => None
  | (k', v) :: rest => if String.eqb k k' then Some v else lookupQ k rest
  end.

Definition qstr (k : string) (q : Fields) : option string :=
  match lookupQ k q with
  | Some (QStr s) => Some s
  | _ => None
  end.

Definition qnum (k : string) (q : Fields) : option Z :=
  match lookupQ k q with
  | Some (QNum n) => Some n
  | _ => None
  end.

Definition limitOf (q : Fields) : nat :=
  match qnum "limit" q with
  | Some n => if (1 <=? n) && (n <=? 100) then Z.to_nat n else 100%nat
  | None => 100%nat
  end.

Definition pageIndex (q : Fields) : nat :=
  match qnum "page" q with
  | Some n => Z.to_nat (n - 1)
  | None => 0%nat
  end.

(** [ceil(total / limit)] *)
Definition totalPages (total limit : nat) : nat := (total + limit - 1) / limit.

(** One page of a listing, with or without the pagination block. *)
Definition pageOf {A : Type} (withMeta : bool) (q : Fields) (listing : list A)
  : ApiResponse (list A) :=
  let limit := limitOf q in
  let data := take limit (drop (pageIndex q * limit) listing) in
  ApiSuccess data
    (if withMeta
     then Some (mkMeta (Some (mkPagination (Z.of_nat (S (pageIndex q))) (Z.of_nat limit)
                                (Z.of_nat (length listing))
                                (Z.of_nat (totalPages (length listing) limit)))))
     else None).

Definition keep (wanted : option string) (actual : string) : bool :=
  match wanted with
  | Some s => String.eqb s actual
  | None => true
  end.

Definition keepParent (wanted : option string) (actual : option string) : bool :=
  match wanted with
  | Some s => bool_decide (actual = Some s)
  | None => true
  end.

(** The groups a [GET /group] with these parameters ranges over. *)
Definition groupListing (q : Fields) (s : State) : list Group :=
  filter (λ g, keep (qstr "workspaceId" q) (group_workspaceId g)
               && keepParent (qstr "parentId" q) (group_parentId g)) (groups s).

Definition noteListing (q : Fields) (s : State) : list Note :=
  filter (λ n, keep (qstr "workspaceId" q) (note_workspaceId n)) (notes s).

Definition todoListing (q : Fields) (s : State) : list Todo :=
  filter (λ t, keep (qstr "workspaceId" q) (todo_workspaceId t)) (todos s).

Definition newGroup (data : Fields) (s : State) : Group :=
  mkGroup ("g" +:+ pretty (nextId s)) (default "" (qstr "name" data)) "user"
    (default "ws" (qstr "workspaceId" data)) (qstr "parentId" data).

Definition servePostGroup (s : State) (data : Fields) : State * ApiResponse Group :=
  match qstr "name" data with
  | Some _ =>
      let g := newGroup data s in
      (mkState (groups s ++ [g]) (notes s) (todos s) (S (nextId s)), ApiSuccess g None)
  | None => (s, ApiError VALIDATION_ERROR "name is required")
  end.

Definition patchNote (data : Fields) (n : Note) : Note :=
  mkNote (note_id n) (default (note_name n) (qstr "name" data))
    (default (note_content n) (qstr "content" data))
    (note_workspaceId n) (note_groupId n) (note_isDeleted n).

Definition servePutNote (s : State) (data : Fields) : State * ApiResponse Note :=
  match array_find (λ n, bool_decide (Some (note_id n) = qstr "id" data)) (notes s) with
  | Some n =>
      let n' := patchNote data n in
      (mkState (groups s)
         (map (λ x, if bool_decide (note_id x = note_id n) then patchNote data x else x) (notes s))
         (todos s) (nextId s),
       ApiSuccess n' None)
  | None => (s, ApiError NOT_FOUND "Note not found")
  end.

Definition service (withMeta : bool) : Service :=
  mkService State
    (λ s q, (s, pageOf withMeta q (groupListing q s)))
    servePostGroup
    (λ s q, (s, pageOf withMeta q (noteListing q s)))
    servePutNote
    (λ s q, (s, pageOf withMeta q (todoListing q s))).

Definition world (withMeta : bool) (s : State) (lg : list Exchange)
  : World (service withMeta) :=
  mkWorld (svc := service withMeta) s lg.

Definition start (withMeta : bool) (s : State) : World (service withMeta) :=
  world withMeta s [].

(** [n] groups of workspace [ws] named [item0], [item1], ... at the root. *)
Definition filler (ws : string) (n : nat) : list Group :=
  map (λ i, mkGroup ("x" +:+ pretty i) ("item" +:+ pretty i) "user" ws None) (seq 0 n).


(** The groups of a workspace, in the order of the service. *)
Definition inWorkspace (ws : string) (s : State) : list Group :=
  filter (λ g, String.eqb ws (group_workspaceId g)) (groups s).


(** The reference service with a quota: it refuses to create a group
    once [quota] groups exist. *)
Definition servePostGroupLimited (quota : nat) (s : State) (data : Fields)
  : State * ApiResponse Group :=
  if decide (quota ≤ length (groups s))%nat
  then (s, ApiError FORBIDDEN "Group limit reached")
  else servePostGroup s data.

Definition limited (quota : nat) : Service :=
  mkService State
    (λ s q, (s, pageOf false q (groupListing q s)))
    (servePostGroupLimited quota)
    (λ s q, (s, pageOf false q (noteListing q s)))
    servePutNote
    (λ s q, (s, pageOf false q (todoListing q s))).

End Model.

(** ** Sample data *)

Module Samples.

(** A chain [A] > [B] > [C], and a group whose parent is not listed. *)
Definition gA : Group := mkGroup "a" "A" "u" "w" None.
Definition gB : Group := mkGroup "b" "B" "u" "w" (Some "a").
Definition gC : Group := mkGroup "c" "C" "u" "w" (Some "b").
Definition orphan : Group := mkGroup "o" "O" "u" "w" (Some "zz").

(** Two roots of the same name. *)
Definition twin1 : Group := mkGroup "1" "A" "u" "w" None.
Definition twin2 : Group := mkGroup "2" "A" "u" "w" None.

(** Two entries of the same id. *)
Definition dup1 : Group := mkGroup "1" "A" "u" "w" None.
Definition dup2 : Group := mkGroup "1" "B" "u" "w" None.

(** Two groups that name each other as parent. *)
Definition loopA : Group := mkGroup "la" "LA" "u" "w" (Some "lb").
Definition loopB : Group := mkGroup "lb" "LB" "u" "w" (Some "la").


(** A client configuration, an address builder that joins base and
    endpoint, and a service that answers 500 with a JSON body of its
    own shape. *)
Definition config : Client.SidvyConfig :=
  Client.mkConfig "token" "https://sidvy.com/api" None false.

Definition joinURL (endpoint baseUrl : string) : option string :=
  Some (baseUrl +:+ endpoint).

Definition detailBody : Client.Value :=
  Client.VObj [("detail", Client.VStr "Internal failure")].

Definition fetch500 (_ : Client.Url) (_ : Client.RequestInit) : Client.FetchOutcome :=
  Client.FetchResolves (Client.mkResponse 500 "Internal Server Error" (Some detailBody)).


(** A service whose only root is [X], with a group [A] below it. *)
Definition nestedA : Group := mkGroup "a" "A" "u" "ws" (Some "x").
Definition nested : Model.State :=
  Model.mkState [mkGroup "x" "X" "u" "ws" None; nestedA] [] [] 0.

(** A service with a hundred root groups, none of them named [A]. *)
Definition crowded : Model.State := Model.mkState (Model.filler "ws" 100) [] [] 0.

(** A service with 250 groups in one workspace. *)
Definition large : Model.State := Model.mkState (Model.filler "ws" 250) [] [] 0.

(** A service with one empty note. *)
Definition emptyNote : Note := mkNote "n1" "Inbox" "" "ws" None false.
Definition oneNote : Model.State := Model.mkState [] [emptyNote] [] 0.


(** A service with nothing in it. *)
Definition empty : Model.State := Model.mkState [] [] [] 0.

(** Three roots listed out of order. *)
Definition rootB : Group := mkGroup "rb" "B" "u" "w" None.
Definition rootA : Group := mkGroup "ra" "A" "u" "w" None.
Definition rootC : Group := mkGroup "rc" "C" "u" "w" None.

End Samples.

(** ** Vocabulary for the forest [buildGroupTree] returns *)

Module TreeSpec.
Import JS Tree.

Definition treeGroup (t : GroupTreeNode) : Group :=
  match t with TreeNode g _ _ _ => g end.

(** [g1] does not sort after [g2] by name. *)
Definition byName (localeCompare : string → string → Z) (g1 g2 : Group) : Prop :=
  localeCompare (group_name g1) (group_name g2) ≤ 0.

(** A tree over the input [gs]: its node is a group of the input, its
    subtrees are, in ascending order of name, the trees of exactly the
    groups that name it as parent. *)
Inductive TreeOf (localeCompare : string → string → Z) (gs : list Group)
  : GroupTreeNode → Prop :=
| TreeOf_node g cs lv pa :
    g ∈ gs →
    treeGroup <$> cs ≡ₚ filter (childOf (group_id g)) gs →
    StronglySorted (byName localeCompare) (treeGroup <$> cs) →
    Forall (TreeOf localeCompare gs) cs →
    TreeOf localeCompare gs (TreeNode g cs lv pa).

(** Every group that has its parent in the input is listed after it. *)
Definition ParentFirst (gs : list Group) : Prop :=
  ∀ pre g post p,
    gs = pre ++ g :: post → p ∈ gs → childOf (group_id p) g → p ∈ pre.

(** A tree whose nodes carry their depth as [level] and the names of
    their ancestors, root first, as [path]. *)
Inductive Levelled : nat → list string → GroupTreeNode → Prop :=
| Levelled_node g cs k names :
    Forall (Levelled (S k) (names ++ [group_name g])) cs →
    Levelled k names (TreeNode g cs k names).

Definition levelOf (m : Store) (i : string) : nat :=
  from_option node_level 0%nat (m !! i).

Definition pathOf (m : Store) (i : string) : list string :=
  from_option node_path [] (m !! i).

(** The group of the input with this id. *)
Definition byId (gs : list Group) (i : string) : option Group :=
  array_find (λ g, String.eqb (group_id g) i) gs.

(** What reading one node off the sorted store gives, for one depth
    of recursion. *)
Definition ReadsTree (localeCompare : string → string → Z) (gs : list Group) (f : nat) : Prop :=
  ∀ r t, r ∈ group_id <$> gs →
    readNode f (sortAll localeCompare (linked gs).1) r = Some t →
    ∃ g, g ∈ gs ∧ r = group_id g ∧ treeGroup t = g ∧ TreeOf localeCompare gs t.

(** The nodes of a tree, the root first, and the groups they hold. *)
Fixpoint nodesOf (t : GroupTreeNode) : list GroupTreeNode :=
  match t with
  | TreeNode _ cs _ _ => t :: flat_map nodesOf cs
  end.

Definition groupsOf (forest : list GroupTreeNode) : list Group :=
  treeGroup <$> flat_map nodesOf forest.

Definition treeChildren (t : GroupTreeNode) : list GroupTreeNode :=
  match t with TreeNode _ cs _ _ => cs end.

End TreeSpec.

(** ** The rest of [GroupsApi]: listings by parent, search, the tree *)

Module GroupsApiExt.
Import JS Remote Tree GroupsApi.

Section Api.
Context {svc : Service}.

(** [getRootGroups]: the parameter record holds [parentId: null];
    [null !== undefined], so [listGroups] copies the entry to
    [queryParams], between [workspaceId] and [sort]. *)
Definition getRootGroups (workspaceId : option string) (w : World svc)
  : World svc * ApiResponse (list Group) :=
  get_groups (field "workspaceId" QStr workspaceId ++
              [("parentId", QNull)] ++
              field "sort" QStr (Some "name:asc")) w.

Definition getChildGroups (parentId : string) (workspaceId : option string) (w : World svc)
  : World svc * ApiResponse (list Group) :=
  listGroups (mkListGroupsParams None None workspaceId (Some parentId) None
                (Some "name:asc")) w.

Definition searchGroups (query : string) (workspaceId : option string) (w : World svc)
  : World svc * ApiResponse (list Group) :=
  listGroups (mkListGroupsParams None None workspaceId None (Some query)
                (Some "name:asc")) w.

(** [getGroupTree]: [fuel] bounds the paging loop and the recursive
    sort. *)
Definition getGroupTree (localeCompare : string → string → Z) (fuel : nat)
    (workspaceId : string) (w : World svc) : World svc * Outcome (list GroupTreeNode) :=
  let '(w1, fetched) := getAllGroupsInWorkspace fuel workspaceId w in
  match fetched with
  | Resolved allGroups =>
      (w1, match buildGroupTree localeCompare fuel allGroups with
           | Some forest => Resolved forest
           | None => Pending
           end)
  | Rejected message => (w1, Rejected message)
  | Pending => (w1, Pending)
  end.

End Api.

End GroupsApiExt.

(** ** The endpoints of todos and workspaces

    The endpoints the operations below call besides those of
    [Remote.Service], over the same state. *)

Module Backend.
Import Remote.

Record ContentCounts := mkContentCounts {
  cc_notes : Z;
  cc_groups : Z;
  cc_todos : Z
}.

(** The fields of [interface Workspace] the API layer reads. *)
Record Workspace := mkWorkspace {
  workspace_id : string;
  workspace_name : string;
  workspace_isDefault : bool;
  workspace_contentCounts : option ContentCounts
}.

Record DeleteWorkspaceResponse := mkDeleteWorkspaceResponse {
  dw_deleted : bool;
  dw_workspaceId : string
}.

Record Endpoints (svc : Service) := mkEndpoints {
  post_todo : St svc → Fields → St svc * ApiResponse Todo;
  put_todo : St svc → Fields → St svc * ApiResponse Todo;
  get_workspace : St svc → Fields → St svc * ApiResponse (list Workspace);
  post_workspace : St svc → Fields → St svc * ApiResponse Workspace;
  delete_workspace : St svc → Fields → St svc * ApiResponse DeleteWorkspaceResponse
}.
Arguments post_todo {svc} e.
Arguments put_todo {svc} e.
Arguments get_workspace {svc} e.
Arguments post_workspace {svc} e.
Arguments delete_workspace {svc} e.

Section Calls.
Context {svc : Service} (ep : Endpoints svc).

Definition post_todos (data : Fields) :=
  perform (post_todo ep) (POST "/todo" data) data.
Definition put_todos (data : Fields) :=
  perform (put_todo ep) (PUT "/todo" data) data.
Definition get_workspaces (params : Fields) :=
  perform (get_workspace ep) (GET "/workspace" (searchParams params)) (searchParams params).
Definition post_workspaces (data : Fields) :=
  perform (post_workspace ep) (POST "/workspace" data) data.
Definition delete_workspaces (data : Fields) :=
  perform (delete_workspace ep) (DELETE "/workspace" data) data.
End Calls.

(** The result of an operation that returns its lookup's response,
    cast to the result type, when the lookup failed or found nothing,
    and the response of its second request otherwise. *)
Inductive AfterLookup (A B : Type) :=
| LookupReturned (lookupResponse : ApiResponse (option A))
| Completed (response : ApiResponse B).
Arguments LookupReturned {A B} lookupResponse.
Arguments Completed {A B} response.

(** [hasMore] after a page, as each [while (hasMore)] loop computes it. *)
Definition hasMore {T : Type} (page limit : Z) (data : list T) (meta : option Meta) : bool :=
  match meta ≫= meta_pagination with
  | Some pagination => page <? pg_totalPages pagination
  | None => Z.of_nat (length data) =? limit
  end.

(** The request changes the service's data when it is honoured. *)
Definition isWrite (e : Exchange) : bool :=
  match ex_request e with
  | GET _ _ => false
  | POST _ _ | PUT _ _ | DELETE _ _ => true
  end.

End Backend.

(** ** The rest of [NotesApi] *)

Module NotesApiExt.
Import JS Remote Backend NotesApi.

Section Api.
Context {svc : Service}.

(** The [while (hasMore)] loop of [getAllNotesInWorkspace]. *)
Fixpoint fetchPages (fuel : nat) (workspaceId : string) (includeDeleted : bool) (page : Z)
    (allNotes : list Note) (w : World svc) : World svc * Outcome (list Note) :=
  match fuel with
  | O => (w, Pending)
  | S fuel' =>
      let limit := 100 in
      let '(w1, response) :=
        listNotes (mkListNotesParams (Some page) (Some limit) (Some workspaceId) None
                     (Some includeDeleted) None (Some "updatedAt:desc")) w in
      match response with
      | ApiError _ _ => (w1, Rejected (getErrorMessage response))
      | ApiSuccess data meta =>
          let allNotes1 := allNotes ++ data in
          if hasMore page limit data meta
          then fetchPages fuel' workspaceId includeDeleted (page + 1) allNotes1 w1
          else (w1, Resolved allNotes1)
      end
  end.

Definition getAllNotesInWorkspace (fuel : nat) (workspaceId : string)
    (includeDeleted : bool) (w : World svc) : World svc * Outcome (list Note) :=
  fetchPages fuel workspaceId includeDeleted 1 [] w.

End Api.

End NotesApiExt.

(** ** The rest of [TodosApi] *)

Module TodosApiExt.
Import JS Remote Backend TodosApi.

Record CreateTodoRequest := mkCreateTodoRequest {
  ct_text : string;
  ct_noteId : string;
  ct_lineNumber : Z;
  ct_workspaceId : option string;
  ct_completed : option bool
}.

Record UpdateTodoRequest := mkUpdateTodoRequest {
  ut_todoId : string;
  ut_text : option string;
  ut_completed : option bool;
  ut_lineNumber : option Z
}.

(** [JSON.stringify(todoData)] as a flat object, in the order of the
    literal in [createTodosForNote]. *)
Definition createBody (todoData : CreateTodoRequest) : Fields :=
  [("text", QStr (ct_text todoData));
   ("noteId", QStr (ct_noteId todoData));
   ("lineNumber", QNum (ct_lineNumber todoData))] ++
  field "workspaceId" QStr (ct_workspaceId todoData) ++
  field "completed" QBool (ct_completed todoData).

Definition updateBody (todoData : UpdateTodoRequest) : Fields :=
  [("todoId", QStr (ut_todoId todoData))] ++
  field "text" QStr (ut_text todoData) ++
  field "completed" QBool (ut_completed todoData) ++
  field "lineNumber" QNum (ut_lineNumber todoData).

(** [interface TodoStats]; [completionRate] is kept as the quotient
    the source computes it from: [RateOf c d] stands for
    [(c / d) * 100]. *)
Inductive Rate :=
| RateZero
| RateOf (completed divisor : nat).

Record TodoStats := mkTodoStats {
  ts_total : nat;
  ts_completed : nat;
  ts_pending : nat;
  ts_deleted : nat;
  ts_completionRate : Rate
}.

Section Api.
Context {svc : Service} (ep : Endpoints svc).
(** [t.isDeleted] of a listed todo. *)
Variable isDeleted : Todo → bool.

Definition createTodo (todoData : CreateTodoRequest) (w : World svc)
  : World svc * ApiResponse Todo :=
  post_todos ep (createBody todoData) w.

Definition updateTodo (todoData : UpdateTodoRequest) (w : World svc)
  : World svc * ApiResponse Todo :=
  put_todos ep (updateBody todoData) w.

(** [toggleTodo]: the lookup is [getTodoById(todoId)], with no
    workspace. *)
Definition toggleTodo (todoId : string) (w : World svc)
  : World svc * AfterLookup Todo Todo :=
  let '(w1, todoResponse) := getTodoById todoId None w in
  match todoResponse with
  | ApiSuccess (Some todo) _ =>
      let '(w2, r) :=
        updateTodo (mkUpdateTodoRequest todoId None (Some (negb (todo_completed todo))) None)
          w1 in
      (w2, Completed r)
  | _ => (w1, LookupReturned todoResponse)
  end.

Definition completeTodo (todoId : string) (w : World svc) :=
  updateTodo (mkUpdateTodoRequest todoId None (Some true) None) w.

Definition uncompleteTodo (todoId : string) (w : World svc) :=
  updateTodo (mkUpdateTodoRequest todoId None (Some false) None) w.

(** The [while (hasMore)] loop of [getAllTodosInWorkspace]. *)
Definition allTodosParams (workspaceId : string) (includeDeleted includeCompleted : bool)
    (page : Z) : ListTodosParams :=
  mkListTodosParams (Some page) (Some 100) (Some workspaceId) None
    (if includeCompleted then None else Some false)
    (Some includeDeleted) None (Some "createdAt:desc").

Fixpoint fetchPages (fuel : nat) (workspaceId : string)
    (includeDeleted includeCompleted : bool) (page : Z)
    (allTodos : list Todo) (w : World svc) : World svc * Outcome (list Todo) :=
  match fuel with
  | O => (w, Pending)
  | S fuel' =>
      let limit := 100 in
      let '(w1, response) :=
        listTodos (allTodosParams workspaceId includeDeleted includeCompleted page) w in
      match response with
      | ApiError _ _ => (w1, Rejected (getErrorMessage response))
      | ApiSuccess data meta =>
          let allTodos1 := allTodos ++ data in
          if hasMore page limit data meta
          then fetchPages fuel' workspaceId includeDeleted includeCompleted (page + 1)
                 allTodos1 w1
          else (w1, Resolved allTodos1)
      end
  end.

Definition getAllTodosInWorkspace (fuel : nat) (workspaceId : string)
    (includeDeleted includeCompleted : bool) (w : World svc)
  : World svc * Outcome (list Todo) :=
  fetchPages fuel workspaceId includeDeleted includeCompleted 1 [] w.

(** The statistics [getTodoStats] computes from the listed todos. *)
Definition statsOf (todos : list Todo) : TodoStats :=
  let completed := length (filter (λ t, todo_completed t = true) todos) in
  let pending := length (filter (λ t, negb (todo_completed t) = true) todos) in
  let deleted := length (filter (λ t, isDeleted t = true) todos) in
  mkTodoStats (length todos) completed pending deleted
    (if decide (0 < length todos)%nat then RateOf completed (completed + pending)
     else RateZero).

Definition getTodoStats (workspaceId : option string) (w : World svc)
  : World svc * Outcome TodoStats :=
  let '(w1, response) :=
    listTodos (mkListTodosParams None (Some 1000) workspaceId None None None None None) w in
  match response with
  | ApiError _ _ => (w1, Rejected (getErrorMessage response))
  | ApiSuccess todos _ => (w1, Resolved (statsOf todos))
  end.

(** The [for] loop of [createTodosForNote] from index [i], with the
    texts still to come. *)
Fixpoint createTodosFrom (noteId : string) (todoTexts : list string)
    (workspaceId : option string) (startingLineNumber : Z) (i : Z)
    (results : list (ApiResponse Todo)) (w : World svc)
  : World svc * list (ApiResponse Todo) :=
  match todoTexts with
  | [] => (w, results)
  | text :: rest =>
      let '(w1, result) :=
        createTodo (mkCreateTodoRequest text noteId (startingLineNumber + i) workspaceId
                      (Some false)) w in
      createTodosFrom noteId rest workspaceId startingLineNumber (i + 1)
        (results ++ [result]) w1
  end.

Definition createTodosForNote (noteId : string) (todoTexts : list string)
    (workspaceId : option string) (startingLineNumber : Z) (w : World svc)
  : World svc * list (ApiResponse Todo) :=
  createTodosFrom noteId todoTexts workspaceId startingLineNumber 0 [] w.

End Api.

End TodosApiExt.

(** ** [WorkspacesApi] *)

Module WorkspacesApi.
Import JS Remote Backend.

Record ListWorkspacesParams := mkListWorkspacesParams {
  lw_page : option Z;
  lw_limit : option Z
}.

Definition queryParams (params : ListWorkspacesParams) : Fields :=
  field "page" QNum (lw_page params) ++
  field "limit" QNum (lw_limit params).

(** [interface WorkspaceStats] *)
Record WorkspaceStats := mkWorkspaceStats {
  st_id : string;
  st_name : string;
  st_isDefault : bool;
  st_contentCounts : ContentCounts
}.

Section Api.
Context {svc : Service} (ep : Endpoints svc).
(** [String.prototype.toLowerCase] *)
Variable toLowerCase : string → string.

Definition listWorkspaces (params : ListWorkspacesParams) (w : World svc)
  : World svc * ApiResponse (list Workspace) :=
  get_workspaces ep (queryParams params) w.

(** The [while (hasMore)] loop of [getAllWorkspaces]. *)
Fixpoint fetchPages (fuel : nat) (page : Z) (allWorkspaces : list Workspace)
    (w : World svc) : World svc * Outcome (list Workspace) :=
  match fuel with
  | O => (w, Pending)
  | S fuel' =>
      let limit := 10 in
      let '(w1, response) :=
        listWorkspaces (mkListWorkspacesParams (Some page) (Some limit)) w in
      match response with
      | ApiError _ _ => (w1, Rejected (getErrorMessage response))
      | ApiSuccess data meta =>
          let allWorkspaces1 := allWorkspaces ++ data in
          if hasMore page limit data meta
          then fetchPages fuel' (page + 1) allWorkspaces1 w1
          else (w1, Resolved allWorkspaces1)
      end
  end.

Definition getAllWorkspaces (fuel : nat) (w : World svc)
  : World svc * Outcome (list Workspace) :=
  fetchPages fuel 1 [] w.

(** The three lookups: one unparameterised listing, then [find]. *)
Definition findWorkspace (p : Workspace → bool) (w : World svc)
  : World svc * ApiResponse (option Workspace) :=
  let '(w1, response) := listWorkspaces (mkListWorkspacesParams None None) w in
  match response with
  | ApiError code message => (w1, ApiError code message)
  | ApiSuccess data _ => (w1, ApiSuccess (array_find p data) None)
  end.

Definition getDefaultWorkspace (w : World svc) :=
  findWorkspace workspace_isDefault w.

Definition getWorkspaceById (workspaceId : string) (w : World svc) :=
  findWorkspace (λ x, String.eqb (workspace_id x) workspaceId) w.

Definition getWorkspaceByName (name : string) (w : World svc) :=
  findWorkspace (λ x, String.eqb (toLowerCase (workspace_name x)) (toLowerCase name)) w.

Definition createWorkspace (name : string) (w : World svc)
  : World svc * ApiResponse Workspace :=
  post_workspaces ep [("name", QStr name)] w.

Definition deleteWorkspace (workspaceId : string) (w : World svc)
  : World svc * ApiResponse DeleteWorkspaceResponse :=
  delete_workspaces ep [("workspaceId", QStr workspaceId)] w.

(** [canCreateWorkspace]: a rejected [getAllWorkspaces] is caught and
    gives [false]; [None] when the loop does not settle. *)
Definition canCreateWorkspace (fuel : nat) (w : World svc) : World svc * option bool :=
  let '(w1, fetched) := getAllWorkspaces fuel w in
  match fetched with
  | Resolved workspaces => (w1, Some (bool_decide (length workspaces < 2)%nat))
  | Rejected _ => (w1, Some false)
  | Pending => (w1, None)
  end.

Definition createWorkspaceIfPossible (fuel : nat) (name : string) (w : World svc)
  : World svc * option (ApiResponse Workspace) :=
  let '(w1, canCreate) := canCreateWorkspace fuel w in
  match canCreate with
  | None => (w1, None)
  | Some false =>
      (w1, Some (ApiError FORBIDDEN "Maximum number of workspaces reached (2 per user)"))
  | Some true =>
      let '(w2, existingResponse) := getWorkspaceByName name w1 in
      match existingResponse with
      | ApiSuccess (Some _) _ =>
          (w2, Some (ApiError VALIDATION_ERROR "Workspace with this name already exists"))
      | _ =>
          let '(w3, r) := createWorkspace name w2 in
          (w3, Some r)
      end
  end.

Definition deleteWorkspaceWithConfirmation (workspaceId : string) (confirmDelete : bool)
    (w : World svc) : World svc * AfterLookup Workspace DeleteWorkspaceResponse :=
  if negb confirmDelete then
    (w, Completed (ApiError VALIDATION_ERROR
           "Workspace deletion requires explicit confirmation due to data loss"))
  else
    let '(w1, workspaceResponse) := getWorkspaceById workspaceId w in
    match workspaceResponse with
    | ApiSuccess (Some workspace) _ =>
        if workspace_isDefault workspace then
          (w1, Completed (ApiError FORBIDDEN "Cannot delete default workspace"))
        else
          let '(w2, r) := deleteWorkspace workspaceId w1 in
          (w2, Completed r)
    | _ => (w1, LookupReturned workspaceResponse)
    end.

Definition statsFor (workspace : Workspace) : WorkspaceStats :=
  mkWorkspaceStats (workspace_id workspace) (workspace_name workspace)
    (workspace_isDefault workspace)
    (default (mkContentCounts 0 0 0) (workspace_contentCounts workspace)).

Definition getWorkspaceStats (workspaceId : option string) (w : World svc)
  : World svc * AfterLookup Workspace WorkspaceStats :=
  let '(w1, response) :=
    if JS.truthy workspaceId then getWorkspaceById (default "" workspaceId) w
    else getDefaultWorkspace w in
  match response with
  | ApiSuccess (Some workspace) _ => (w1, Completed (ApiSuccess (statsFor workspace) None))
  | _ => (w1, LookupReturned response)
  end.

End Api.

End WorkspacesApi.

(** ** The paging loops as one loop *)

Module Paged.
Import Remote Backend.

Section Loop.
Context {svc : Service} {T : Type}.
(** The listing call of a loop, as a function of [page]. *)
Variable listPage : Z → World svc → World svc * ApiResponse (list T).
Variable limit : Z.

(** The shape the four [while (hasMore)] loops share. *)
Fixpoint pagedLoop (fuel : nat) (page : Z) (acc : list T) (w : World svc)
  : World svc * Outcome (list T) :=
  match fuel with
  | O => (w, Pending)
  | S fuel' =>
      match listPage page w with
      | (w1, ApiError _ message) => (w1, Rejected message)
      | (w1, ApiSuccess data meta) =>
          if hasMore page limit data meta
          then pagedLoop fuel' (page + 1) (acc ++ data) w1
          else (w1, Resolved (acc ++ data))
      end
  end.
End Loop.

(** The requests for pages [p + 1] to [p + k]. *)
Definition pageRequests (req : Z → Request) (p k : nat) : list Request :=
  map (λ i, req (Z.of_nat (S i))) (seq p k).

(** What a paging loop adds to the log, and how it ends: the requests
    for pages 1, 2, ... in order, at most [fuel] of them; all answered
    with a success when the loop resolves or is still running; the
    last one answered with the failure whose message is thrown, and
    the earlier ones with a success, when it rejects. *)
Definition PagedRun {A : Type} (req : Z → Request) (p fuel : nat)
    (before after : list Exchange) (out : Outcome A) : Prop :=
  ∃ entries,
    after = before ++ entries ∧
    (length entries ≤ fuel)%nat ∧
    ex_request <$> entries = pageRequests req p (length entries) ∧
    match out with
    | Resolved _ => entries ≠ [] ∧ Forall answeredOk entries
    | Rejected message =>
        ∃ pre e code, entries = pre ++ [e] ∧ Forall answeredOk pre
                      ∧ ex_failure e = Some (code, message)
    | Pending => length entries = fuel ∧ Forall answeredOk entries
    end.

(** The queries of the page requests of the four loops. *)
Definition notesPageQuery (workspaceId : string) (includeDeleted : bool) (page : Z) : Fields :=
  [("page", QNum page); ("limit", QNum 100); ("workspaceId", QStr workspaceId);
   ("isDeleted", QBool includeDeleted); ("sort", QStr "updatedAt:desc")].

Definition todosPageQuery (workspaceId : string) (includeDeleted includeCompleted : bool)
    (page : Z) : Fields :=
  [("page", QNum page); ("limit", QNum 100); ("workspaceId", QStr workspaceId)] ++
  (if includeCompleted then [] else [("completed", QBool false)]) ++
  [("isDeleted", QBool includeDeleted); ("sort", QStr "createdAt:desc")].

Definition workspacesPageQuery (page : Z) : Fields :=
  [("page", QNum page); ("limit", QNum 10)].

End Paged.

(** ** The tool handlers that read the data of a response *)

Module Tools.
Import JS Remote Backend.

(** What a handler throws: [new Error(message)], or the [TypeError]
    of reading a property of [null]. *)
Inductive Thrown :=
| ThrownError (message : string)
| ThrownTypeError (property : string).

(** How a call of a handler ends. *)
Inductive Handled (A : Type) :=
| Returned (v : A)
| Threw (e : Thrown)
| Unsettled.
Arguments Returned {A} v.
Arguments Threw {A} e.
Arguments Unsettled {A}.

(** The double quotation mark. *)
Definition quote : string := String "034" "".

(** [handleGetNote]: [{ success: true, note }] or
    [{ success: false, error }]. *)
Inductive GetNoteResult :=
| NoteFound (note : Note)
| NoteMissing (error : string).

Record AppendToNoteResult := mkAppendToNoteResult {
  an_note : Note;
  an_message : string
}.

Record ToggleTodoResult := mkToggleTodoResult {
  tt_todo : Todo;
  tt_message : string
}.

Record CreateTodosResult := mkCreateTodosResult {
  cr_todos : list Todo;
  cr_created : nat;
  cr_failed : nat;
  cr_message : string
}.

Record GroupPathResult := mkGroupPathResult {
  gp_path : list string;
  gp_pathString : string;
  gp_groupId : string
}.

(** [responses.filter(isSuccessResponse).map((r) => r.data)] *)
Definition dataOf {T : Type} (responses : list (ApiResponse T)) : list T :=
  omap (λ r, match r with ApiSuccess data _ => Some data | ApiError _ _ => None end)
    responses.

Section Handlers.
Context {svc : Service} (ep : Endpoints svc).

Definition handleGetNote (id : string) (workspaceId : option string) (w : World svc)
  : World svc * Handled GetNoteResult :=
  let '(w1, response) := NotesApi.getNoteById id workspaceId w in
  match response with
  | ApiSuccess (Some note) _ => (w1, Returned (NoteFound note))
  | ApiSuccess None _ => (w1, Returned (NoteMissing "Note not found"))
  | ApiError _ message => (w1, Threw (ThrownError message))
  end.

(** The success branch of [handleAppendToNote] on [response.data]. *)
Definition appended (data : option Note) : Handled AppendToNoteResult :=
  match data with
  | Some note =>
      Returned (mkAppendToNoteResult note
                  ("Content appended to note " +:+ quote +:+ note_name note +:+ quote))
  | None => Threw (ThrownTypeError "name")
  end.

Definition handleAppendToNote (id content : string) (workspaceId : option string)
    (w : World svc) : World svc * Handled AppendToNoteResult :=
  let '(w1, response) := NotesApi.appendToNote id content workspaceId w in
  match response with
  | NotesApi.AppendDone (ApiSuccess note _) => (w1, appended (Some note))
  | NotesApi.AppendMiss (ApiSuccess data _) => (w1, appended data)
  | NotesApi.AppendDone (ApiError _ message)
  | NotesApi.AppendMiss (ApiError _ message) => (w1, Threw (ThrownError message))
  end.

(** The success branch of [handleToggleTodo] on [response.data]. *)
Definition toggled (data : option Todo) : Handled ToggleTodoResult :=
  match data with
  | Some todo =>
      let status := if todo_completed todo then "completed" else "incomplete" in
      Returned (mkToggleTodoResult todo
                  ("Todo " +:+ quote +:+ todo_text todo +:+ quote +:+ " marked as "
                   +:+ status))
  | None => Threw (ThrownTypeError "completed")
  end.

Definition handleToggleTodo (todoId : string) (w : World svc)
  : World svc * Handled ToggleTodoResult :=
  let '(w1, response) := TodosApiExt.toggleTodo ep todoId w in
  match response with
  | Completed (ApiSuccess todo _) => (w1, toggled (Some todo))
  | LookupReturned (ApiSuccess data _) => (w1, toggled data)
  | Completed (ApiError _ message)
  | LookupReturned (ApiError _ message) => (w1, Threw (ThrownError message))
  end.

(** [handleCreateTodosForNote]; [args.startingLineNumber || 1]. *)
Definition handleCreateTodosForNote (noteId : string) (todoTexts : list string)
    (workspaceId : option string) (startingLineNumber : option Z) (w : World svc)
  : World svc * Handled CreateTodosResult :=
  let start :=
    match startingLineNumber with
    | Some n => if n =? 0 then 1 else n
    | None => 1
    end in
  let '(w1, responses) :=
    TodosApiExt.createTodosForNote ep noteId todoTexts workspaceId start w in
  let successful := filter (λ r, isSuccessResponse r = true) responses in
  let failed := filter (λ r, negb (isSuccessResponse r) = true) responses in
  (w1, Returned (mkCreateTodosResult (dataOf successful) (length successful) (length failed)
                   ("Created " +:+ pretty (length successful) +:+ " todos for note ("
                    +:+ pretty (length failed) +:+ " failed)"))).

(** [handleGetGroupPath]; [path.join(' > ')]. *)
Definition handleGetGroupPath (fuel : nat) (groupId workspaceId : string) (w : World svc)
  : World svc * Handled GroupPathResult :=
  let '(w1, fetched) := GroupsApi.getGroupPath fuel groupId workspaceId w in
  match fetched with
  | Resolved path =>
      (w1, Returned (mkGroupPathResult path (String.concat " > " path) groupId))
  | Rejected message => (w1, Threw (ThrownError message))
  | Pending => (w1, Unsettled)
  end.

End Handlers.

End Tools.

(** ** The reference service: todos and workspaces

    The todo endpoints keep the todos of the reference service; the
    workspace endpoints range over a fixed list of workspaces, refuse
    a third workspace and the deletion of the default one. *)

Module ModelExt.
Import JS Remote Backend Model.

Definition qbool (k : string) (q : Fields) : option bool :=
  match lookupQ k q with
  | Some (QBool b) => Some b
  | _ => None
  end.

Definition newTodo (data : Fields) (s : State) : Todo :=
  mkTodo ("t" +:+ pretty (nextId s)) (default "" (qstr "text" data))
    (default false (qbool "completed" data))
    (default "ws" (qstr "workspaceId" data))
    (default "" (qstr "noteId" data))
    (default 0 (qnum "lineNumber" data)).

Definition servePostTodo (s : State) (data : Fields) : State * ApiResponse Todo :=
  match qstr "text" data with
  | Some _ =>
      let t := newTodo data s in
      (mkState (groups s) (notes s) (todos s ++ [t]) (S (nextId s)), ApiSuccess t None)
  | None => (s, ApiError VALIDATION_ERROR "text is required")
  end.

Definition patchTodo (data : Fields) (t : Todo) : Todo :=
  mkTodo (todo_id t) (default (todo_text t) (qstr "text" data))
    (default (todo_completed t) (qbool "completed" data))
    (todo_workspaceId t) (todo_noteId t)
    (default (todo_lineNumber t) (qnum "lineNumber" data)).

Definition servePutTodo (s : State) (data : Fields) : State * ApiResponse Todo :=
  match array_find (λ t, bool_decide (Some (todo_id t) = qstr "todoId" data)) (todos s) with
  | Some t =>
      (mkState (groups s) (notes s)
         (map (λ x, if bool_decide (todo_id x = todo_id t) then patchTodo data x else x)
            (todos s))
         (nextId s),
       ApiSuccess (patchTodo data t) None)
  | None => (s, ApiError NOT_FOUND "Todo not found")
  end.

Definition servePostWorkspace (workspaces : list Workspace) (s : State) (data : Fields)
  : State * ApiResponse Workspace :=
  if decide (2 ≤ length workspaces)%nat
  then (s, ApiError FORBIDDEN "Workspace limit reached")
  else (s, ApiSuccess (mkWorkspace ("w" +:+ pretty (length workspaces))
                         (default "" (qstr "name" data)) false None) None).

Definition serveDeleteWorkspace (workspaces : list Workspace) (s : State) (data : Fields)
  : State * ApiResponse DeleteWorkspaceResponse :=
  match array_find (λ x, bool_decide (Some (workspace_id x) = qstr "workspaceId" data))
          workspaces with
  | Some x =>
      if workspace_isDefault x
      then (s, ApiError FORBIDDEN "Cannot delete default workspace")
      else (s, ApiSuccess (mkDeleteWorkspaceResponse true (workspace_id x)) None)
  | None => (s, ApiError NOT_FOUND "Workspace not found")
  end.

Definition endpoints (withMeta : bool) (workspaces : list Workspace)
  : Endpoints (service withMeta) :=
  mkEndpoints (service withMeta)
    servePostTodo
    servePutTodo
    (λ s q, (s, pageOf withMeta q workspaces))
    (servePostWorkspace workspaces)
    (serveDeleteWorkspace workspaces).

(** A default workspace and a second one. *)
Definition home : Workspace := mkWorkspace "ws" "Home" true None.
Definition work : Workspace := mkWorkspace "w1" "Work" false None.

(** A service with two todos, the first one completed. *)
Definition doneTodo : Todo := mkTodo "t1" "Write" true "ws" "n1" 1.
Definition openTodo : Todo := mkTodo "t2" "Review" false "ws" "n1" 2.
Definition twoTodos : State := mkState [] [] [doneTodo; openTodo] 0.

End ModelExt.

(** ** [SidvyApiClient]: the configuration and the headers *)

Module ClientState.
Import Client.

(** A property of a [Partial<SidvyConfig>] argument: not an own
    property, an own property holding [undefined], or a value. *)
Inductive Partial (A : Type) :=
| Absent
| Undefined
| Given (v : A).
Arguments Absent {A}.
Arguments Undefined {A}.
Arguments Given {A} v.

Record PartialConfig := mkPartialConfig {
  pc_apiToken : Partial string;
  pc_apiUrl : Partial string;
  pc_defaultWorkspaceId : Partial string;
  pc_debug : Partial bool
}.

(** [this.config] after updates: a spread may have left [undefined]
    in a property. *)
Record ConfigObject := mkConfigObject {
  co_apiToken : option string;
  co_apiUrl : option string;
  co_defaultWorkspaceId : option string;
  co_debug : option bool
}.

Record SidvyApiClient := mkClient {
  cl_config : ConfigObject;
  baseHeaders : gmap string string
}.

Definition bearer (token : string) : string := "Bearer " +:+ token.

(** [new SidvyApiClient(config)] *)
Definition construct (config : SidvyConfig) : SidvyApiClient :=
  let headers : gmap string string :=
    <["User-Agent" := "Sidvy-MCP-Server/1.0.0"]>
      (<["Content-Type" := "application/json"]> ∅) in
  mkClient
    (mkConfigObject (Some (apiToken config)) (Some (apiUrl config))
       (defaultWorkspaceId config) (Some (debug config)))
    (if JS.truthy (Some (apiToken config))
     then <["Authorization" := bearer (apiToken config)]> headers
     else headers).

(** One property of [{ ...this.config, ...newConfig }] *)
Definition spread {A : Type} (old : option A) (new : Partial A) : option A :=
  match new with
  | Absent => old
  | Undefined => None
  | Given v => Some v
  end.

(** [updateConfig(newConfig)] *)
Definition updateConfig (client : SidvyApiClient) (newConfig : PartialConfig)
  : SidvyApiClient :=
  let config := cl_config client in
  mkClient
    (mkConfigObject (spread (co_apiToken config) (pc_apiToken newConfig))
       (spread (co_apiUrl config) (pc_apiUrl newConfig))
       (spread (co_defaultWorkspaceId config) (pc_defaultWorkspaceId newConfig))
       (spread (co_debug config) (pc_debug newConfig)))
    (match pc_apiToken newConfig with
     | Given token =>
         if JS.truthy (Some token)
         then <["Authorization" := bearer token]> (baseHeaders client)
         else delete "Authorization" (baseHeaders client)
     | Absent | Undefined => baseHeaders client
     end).

(** [process.env.KEY || fallback] *)
Definition envOr (env : gmap string string) (key fallback : string) : string :=
  match env !! key with
  | Some v => if JS.truthy (Some v) then v else fallback
  | None => fallback
  end.

(** [createClientFromEnv()] on the environment [env] *)
Definition createClientFromEnv (env : gmap string string) : Completion SidvyApiClient :=
  let config :=
    mkConfig (envOr env "SIDVY_API_TOKEN" "")
      (envOr env "SIDVY_API_URL" "https://sidvy.com/api")
      (env !! "SIDVY_DEFAULT_WORKSPACE_ID")
      (bool_decide (env !! "DEBUG" = Some "true")) in
  if negb (JS.truthy (Some (apiToken config)))
  then Throws (ErrorObj "SIDVY_API_TOKEN environment variable is required")
  else Returns (construct config).

(** The token of the last update that gave one, the constructor's
    when there was none. *)
Definition lastToken (token : string) (updates : list PartialConfig) : string :=
  foldl (λ t u, match pc_apiToken u with Given t' => t' | _ => t end) token updates.

(** The headers of a client whose current token is [token]. *)
Definition HeadersFor (token : string) (headers : gmap string string) : Prop :=
  headers !! "Authorization"
  = (if JS.truthy (Some token) then Some (bearer token) else None) ∧
  headers !! "Content-Type" = Some "application/json" ∧
  headers !! "User-Agent" = Some "Sidvy-MCP-Server/1.0.0".

(** A 200 answer whose body holds [data: 0]. *)
Definition zeroBody : Value := VObj [("data", VNum 0); ("meta", VNull)].
Definition fetchZero (_ : Url) (_ : RequestInit) : FetchOutcome :=
  FetchResolves (mkResponse 200 "OK" (Some zeroBody)).

End ClientState.

(** ** Vocabulary for the walk of [getGroupPath] *)

Module PathSpec.
Import JS GroupsApi.

(** The value of [currentGroup] after [k] more iterations of the
    [while] loop, were it to go on: the [k]-th ancestor. *)
Fixpoint ancestorAt (groupMap : gmap string Group) (k : nat) (currentGroup : option Group)
  : option Group :=
  match k with
  | O => currentGroup
  | S k' => ancestorAt groupMap k' (currentGroup ≫= parentIn groupMap)
  end.

(** No group is visited twice on the way up from [start]. *)
Definition NoRevisit (groupMap : gmap string Group) (start : option Group) : Prop :=
  ∀ i j, is_Some (ancestorAt groupMap i start) →
         ancestorAt groupMap (i + S j) start ≠ ancestorAt groupMap i start.

(** Every group the chain holds is the value of the lookup at its own
    id. *)
Definition Keyed (groupMap : gmap string Group) (currentGroup : option Group) : Prop :=
  ∀ g, currentGroup = Some g → groupMap !! group_id g = Some g.

(** The ids of the first [n] groups of a chain. *)
Definition chainIds (groupMap : gmap string Group) (currentGroup : option Group) (n : nat)
  : list string :=
  (λ k, from_option group_id "" (ancestorAt groupMap k currentGroup)) <$> seq 0 n.

End PathSpec.

(** ** Vocabulary for the order of siblings *)

Module TreeOrder.
Import JS Tree TreeSpec.

(** The first [a] of [l] comes before a [b]. *)
Fixpoint before {A : Type} `{EqDecision A} (l : list A) (a b : A) : bool :=
  match l with
  | [] => false
  | x :: l' => if decide (x = a) then bool_decide (b ∈ l') else before l' a b
  end.

(** [x] may stand before [y] in the result of a stable sort of [l]:
    it does not compare as larger, and comes first in [l] when the two
    compare as equal. *)
Definition stableLe {A : Type} `{EqDecision A} (compareFn : A → A → Z) (l : list A)
    (x y : A) : Prop :=
  compareFn x y ≤ 0 ∧ (compareFn x y = 0 → before l x y = true).

(** [g1] may stand before [g2] in an array sorted by name that keeps
    the order of the input [gs] between names comparing as equal. *)
Definition inOrder (localeCompare : string → string → Z) (gs : list Group)
    (g1 g2 : Group) : Prop :=
  localeCompare (group_name g1) (group_name g2) ≤ 0 ∧
  (localeCompare (group_name g1) (group_name g2) = 0 → before gs g1 g2 = true).

(** Every [children] array of the tree is in that order. *)
Inductive Ordered (localeCompare : string → string → Z) (gs : list Group)
  : GroupTreeNode → Prop :=
| Ordered_node g cs lv pa :
    StronglySorted (inOrder localeCompare gs) (treeGroup <$> cs) →
    Forall (Ordered localeCompare gs) cs →
    Ordered localeCompare gs (TreeNode g cs lv pa).

(** The pairs (parent, child) of a forest. *)
Definition edgesOf (forest : list GroupTreeNode) : list (Group * Group) :=
  flat_map (λ n, (λ c, (treeGroup n, treeGroup c)) <$> treeChildren n)
    (flat_map nodesOf forest).

(** The group's chain of [parentId]s reaches, within [gs], a group
    without one. *)
Definition inTree (gs : list Group) (g : Group) : Prop :=
  ∃ k, atDepth gs k (group_id g).

(** The two inputs list in the same relative order every two siblings
    of a tree whose names compare as equal. *)
Definition TiesOrdered (localeCompare : string → string → Z) (gs gs' : list Group) : Prop :=
  ∀ g1 g2, g1 ∈ gs → g2 ∈ gs → inTree gs g1 → siblings gs g1 g2 →
    localeCompare (group_name g1) (group_name g2) = 0 →
    before gs g1 g2 = before gs' g1 g2.

(** Two roots of one name, two children of the first in descending
    order of name, and a group whose parent is not listed, with two
    children of one name; and another order of the same groups. *)
Definition kidB : Group := mkGroup "kb" "B" "u" "w" (Some "1").
Definition kidA : Group := mkGroup "ka" "A" "u" "w" (Some "1").
Definition stray : Group := mkGroup "o" "O" "u" "w" (Some "zz").
Definition lost1 : Group := mkGroup "l1" "Z" "u" "w" (Some "o").
Definition lost2 : Group := mkGroup "l2" "Z" "u" "w" (Some "o").
Definition root1 : Group := mkGroup "1" "A" "u" "w" None.
Definition root2 : Group := mkGroup "2" "A" "u" "w" None.

Definition mixed : list Group := [root1; root2; kidB; kidA; stray; lost1; lost2].
Definition mixed' : list Group := [lost2; kidA; root1; lost1; stray; kidB; root2].

End TreeOrder.

(** ** A service whose first page of groups is empty and announces a
    second page, which fails *)

Module Faulty.
Import Remote.

Definition serveGroups (s : unit) (q : Fields) : unit * ApiResponse (list Group) :=
  match Model.qnum "page" q with
  | Some 1 => (s, ApiSuccess [] (Some (mkMeta (Some (mkPagination 1 100 0 2)))))
  | _ => (s, ApiError INTERNAL_ERROR "page unavailable")
  end.

Definition service : Service :=
  mkService unit
    serveGroups
    (λ s _, (s, ApiError INTERNAL_ERROR "unavailable"))
    (λ s _, (s, ApiError INTERNAL_ERROR "unavailable"))
    (λ s _, (s, ApiError INTERNAL_ERROR "unavailable"))
    (λ s _, (s, ApiError INTERNAL_ERROR "unavailable")).

Definition start : World service := mkWorld (svc := service) tt [].

End Faulty.

(** ** Vocabulary for the get-by-id helpers *)

Module Lookup.

(** [found] is what a search for the first item of id [id] in [data]
    gives: that item, with no item of this id before it, or nothing
    when [data] holds no item of this id. *)
Definition FirstWith {A : Type} (idOf : A → string) (id : string) (data : list A)
    (found : option A) : Prop :=
  match found with
  | Some item =>
      ∃ pre post, data = pre ++ item :: post ∧ idOf item = id ∧
                  ∀ x, x ∈ pre → idOf x ≠ id
  | None => ∀ x, x ∈ data → idOf x ≠ id
  end.

End Lookup.

(** ** [CalendarApi]: the content an append writes *)

Module CalendarApi.

(** [currentNote.data.content ? currentNote.data.content + '\n\n' + content : content]
    of [appendToDailyNote] and [appendToWeeklyNote]. *)
Definition updatedContent (current content : string) : string :=
  if JS.truthy (Some current)
  then current +:+ NotesApi.blankLine +:+ content
  else content.

End CalendarApi.

(** ** The answers of an endpoint to a sequence of requests *)

Module Answers.
Import Remote.

(** The service's answers to the bodies sent one after the other, and
    its state after the last. *)
Fixpoint answers {S T : Type} (serve : S → Fields → S * ApiResponse T) (s : S)
    (bodies : list Fields) : S * list (ApiResponse T) :=
  match bodies with
  | [] => (s, [])
  | body :: rest =>
      let '(s1, r) := serve s body in
      let '(s2, rs) := answers serve s1 rest in
      (s2, r :: rs)
  end.

(** [responses.filter(isSuccess).map(data)], written as one pass. *)
Definition successData {T : Type} (responses : list (ApiResponse T)) : list T :=
  omap (λ r, match r with ApiSuccess data _ => Some data | ApiError _ _ => None end)
    responses.

Definition failures {T : Type} (responses : list (ApiResponse T)) : list (ErrorCode * string) :=
  omap failureOf responses.

(** The body [createTodosForNote] sends for the text at index [i]. *)
Definition bulkFields (noteId : string) (workspaceId : option string)
    (startingLineNumber : Z) (i : nat) (text : string) : Fields :=
  [("text", QStr text); ("noteId", QStr noteId);
   ("lineNumber", QNum (startingLineNumber + Z.of_nat i))] ++
  field "workspaceId" QStr workspaceId ++
  [("completed", QBool false)].

(** The log entries of requests [POST url] with these bodies and
    answers. *)
Definition exchanged {T : Type} (url : string) (bodies : list Fields)
    (responses : list (ApiResponse T)) : list Exchange :=
  zip_with (λ body r, mkExchange (POST url body) (failureOf r)) bodies responses.

End Answers.

(** * Properties *)

(** ** [Array.prototype.sort] with a consistent comparator *)

Section Sorting.
Import JS.
Context {A : Type} (compareFn : A → A → Z).

Abbreviation cmp_le := (notAfter compareFn).
Abbreviation Consistent := (JS.Consistent compareFn).

Lemma sort_insert_Permutation x l : sort_insert compareFn x l ≡ₚ x :: l.
Proof.
  induction l as [|y l IH]; simpl; [done|].
  case_match; [|done].
  rewrite IH. apply Permutation_swap.
Qed.

Lemma array_sort_Permutation l : array_sort compareFn l ≡ₚ l.
Proof.
  induction l as [|x l IH]; simpl; [done|].
  unfold array_sort in *. simpl. rewrite sort_insert_Permutation. by rewrite IH.
Qed.

Lemma sort_insert_Sorted x l :
  Consistent → StronglySorted cmp_le l → StronglySorted cmp_le (sort_insert compareFn x l).
Proof.
  intros [Hanti Htrans] Hl. induction Hl as [|y l Hl IH Hy]; simpl.
  - repeat constructor.
  - destruct (0 <? compareFn x y) eqn:E.
    + apply Z.ltb_lt in E. constructor; [done|].
      rewrite sort_insert_Permutation. constructor; [|done].
      unfold cmp_le. specialize (Hanti x y). lia.
    + apply Z.ltb_ge in E. constructor; [by constructor|].
      constructor; [done|].
      eapply Forall_impl; [exact Hy|]. intros z Hz. by eapply Htrans.
Qed.

Lemma array_sort_Sorted l : Consistent → StronglySorted cmp_le (array_sort compareFn l).
Proof.
  intros HC. induction l as [|x l IH]; [constructor|].
  unfold array_sort in *. simpl. by apply sort_insert_Sorted.
Qed.

(** Sorting a sorted array leaves it as it is. *)
Lemma sort_insert_head x l :
  Forall (cmp_le x) l → sort_insert compareFn x l = x :: l.
Proof.
  destruct l as [|y l]; [done|]. intros H. apply Forall_cons_1 in H as [H _].
  simpl. unfold cmp_le in H. by rewrite (proj2 (Z.ltb_ge 0 (compareFn x y)) H).
Qed.

Lemma array_sort_sorted l : StronglySorted cmp_le l → array_sort compareFn l = l.
Proof.
  induction 1 as [|x l Hl IH Hx]; [done|].
  unfold array_sort in *. simpl. rewrite IH. by apply sort_insert_head.
Qed.

Lemma array_sort_idemp l :
  Consistent → array_sort compareFn (array_sort compareFn l) = array_sort compareFn l.
Proof. intros HC. by apply array_sort_sorted, array_sort_Sorted. Qed.

(** Two arrays with the same elements sort to the same array as soon as
    no two different elements compare as equal. *)
Lemma array_sort_perm l1 l2 :
  Consistent →
  (∀ x y, x ∈ l1 → y ∈ l1 → compareFn x y = 0 → x = y) →
  l1 ≡ₚ l2 → array_sort compareFn l1 = array_sort compareFn l2.
Proof.
  intros HC Hinj Hp.
  apply (StronglySorted_unique_strong cmp_le).
  - intros x y Hx Hy Hxy Hyx.
    rewrite array_sort_Permutation in Hx.
    rewrite array_sort_Permutation, <-Hp in Hy.
    apply Hinj; [done..|]. destruct HC as [Hanti _].
    unfold cmp_le in *. specialize (Hanti x y). lia.
  - by apply array_sort_Sorted.
  - by apply array_sort_Sorted.
  - by rewrite !array_sort_Permutation.
Qed.

End Sorting.

(** Sorting depends on the comparator only through its values. *)
Lemma array_sort_ext {A : Type} (f g : A → A → Z) (l : list A) :
  (∀ a b, f a b = g a b) → JS.array_sort f l = JS.array_sort g l.
Proof.
  intros H. induction l as [|x l IH]; [done|].
  unfold JS.array_sort in *. simpl. rewrite IH.
  generalize (foldr (JS.sort_insert g) [] l). intros k.
  induction k as [|y k IHk]; simpl; [done|]. by rewrite H, IHk.
Qed.

(** ** [buildGroupTree]: the store after the two passes over [groups] *)

Section Linking.
Import JS Tree.

Lemma groupOf_alter (f : NodeObj → NodeObj) j (m : Store) i :
  (∀ n, node_group (f n) = node_group n) → groupOf (alter f j m) i = groupOf m i.
Proof.
  intros Hf. unfold groupOf. rewrite lookup_alter.
  case_decide; [subst|done]. destruct (m !! i); simpl; [by rewrite Hf|done].
Qed.

Lemma childrenOf_alter_same (f : NodeObj → NodeObj) j (m : Store) i :
  (∀ n, node_children (f n) = node_children n) →
  childrenOf (alter f j m) i = childrenOf m i.
Proof.
  intros Hf. unfold childrenOf. rewrite lookup_alter.
  case_decide; [subst|done]. destruct (m !! i); simpl; [by rewrite Hf|done].
Qed.

Lemma childrenOf_alter_push c p (m : Store) i :
  childrenOf (alter (push_child c) p m) i =
  childrenOf m i ++ (if decide (p = i ∧ is_Some (m !! i)) then [c] else []).
Proof.
  unfold childrenOf. rewrite lookup_alter.
  destruct (decide (p = i)) as [->|Hne].
  - destruct (m !! i) eqn:E; simpl.
    + rewrite decide_True; [done|]. split; [done|by eexists].
    + rewrite decide_False; [done|]. intros [_ [? ?]]; done.
  - rewrite decide_False; [by rewrite app_nil_r|]. intros [? _]; done.
Qed.

Lemma is_Some_groupOf (m : Store) i : is_Some (groupOf m i) ↔ is_Some (m !! i).
Proof. unfold groupOf. by rewrite fmap_is_Some. Qed.

Lemma childOf_spec i g :
  childOf i g ↔ truthy (group_parentId g) ∧ group_parentId g = Some i.
Proof. unfold childOf. rewrite andb_True, bool_decide_spec. done. Qed.

Lemma link_spec st g :
  (∀ i, groupOf (link st g).1 i = groupOf st.1 i) ∧
  (∀ i, childrenOf (link st g).1 i =
        childrenOf st.1 i ++
        (if decide (childOf i g ∧ is_Some (st.1 !! i)) then [group_id g] else [])) ∧
  (link st g).2 = st.2 ++ (if isRoot g then [group_id g] else []).
Proof.
  destruct st as [m r]. unfold link, isRoot.
  destruct (truthy (group_parentId g)) eqn:Ht; simpl.
  - destruct (group_parentId g) as [p|] eqn:Hp; [|done]. simpl.
    destruct (m !! p) as [pn|] eqn:Hm; simpl.
    + split_and!; [| |by rewrite app_nil_r].
      * intros i. by rewrite !groupOf_alter.
      * intros i. rewrite !childrenOf_alter_same by done.
        rewrite childrenOf_alter_push. f_equal.
        apply decide_ext. rewrite childOf_spec, Hp, Ht. naive_solver.
    + split_and!; [done| |by rewrite app_nil_r].
      intros i. rewrite decide_False; [by rewrite app_nil_r|].
      rewrite childOf_spec, Hp. intros [[_ [= ->]] [? ?]]. congruence.
  - split_and!; [done| |done].
    intros i. rewrite decide_False; [by rewrite app_nil_r|].
    rewrite childOf_spec, Ht. naive_solver.
Qed.

Lemma links_spec l : ∀ st,
  (∀ i, groupOf (foldl link st l).1 i = groupOf st.1 i) ∧
  (∀ i, childrenOf (foldl link st l).1 i =
        childrenOf st.1 i ++
        (if decide (is_Some (st.1 !! i)) then group_id <$> filter (childOf i) l else [])) ∧
  (foldl link st l).2 = st.2 ++ (group_id <$> filter isRoot l).
Proof.
  induction l as [|g l IH]; intros st; simpl.
  - split_and!; [done| |by rewrite app_nil_r].
    intros i. case_decide; by rewrite app_nil_r.
  - destruct (IH (link st g)) as (IH1 & IH2 & IH3).
    destruct (link_spec st g) as (L1 & L2 & L3).
    split_and!.
    + intros i. by rewrite IH1, L1.
    + intros i. rewrite IH2, L2, <-(assoc_L (++)). f_equal.
      assert (is_Some ((link st g).1 !! i) ↔ is_Some (st.1 !! i)) as Hdom.
      { by rewrite <-!is_Some_groupOf, L1. }
      rewrite filter_cons.
      destruct (decide (is_Some (st.1 !! i))) as [Hs|Hs].
      * rewrite (decide_True (P := is_Some ((link st g).1 !! i))) by by apply Hdom.
        destruct (decide (childOf i g)) as [Hc|Hc].
        -- rewrite decide_True by done. done.
        -- rewrite decide_False by naive_solver. done.
      * rewrite (decide_False (P := is_Some ((link st g).1 !! i))) by by rewrite Hdom.
        rewrite decide_False by naive_solver. done.
    + rewrite IH3, L3, <-(assoc_L (++)). f_equal.
      rewrite filter_cons. by destruct (isRoot g).
Qed.

Lemma createNodes_dom gs : ∀ (m : Store) i,
  is_Some (foldl createNode m gs !! i) ↔ is_Some (m !! i) ∨ i ∈ group_id <$> gs.
Proof.
  induction gs as [|g gs IH]; intros m i; simpl.
  - rewrite elem_of_nil. naive_solver.
  - rewrite IH. unfold createNode. rewrite lookup_insert_is_Some, elem_of_cons.
    destruct (decide (group_id g = i)); naive_solver.
Qed.

Lemma createNodes_lookup gs : ∀ (m : Store) g,
  NoDup (group_id <$> gs) → g ∈ gs →
  foldl createNode m gs !! group_id g = Some (mkNodeObj g [] 0 []).
Proof.
  induction gs as [|x gs IH] using rev_ind; intros m g Hnd Hg.
  - by apply elem_of_nil in Hg.
  - rewrite foldl_snoc. unfold createNode at 1.
    rewrite fmap_app in Hnd. apply NoDup_app in Hnd as (Hnd & Hx & _).
    apply elem_of_app in Hg as [Hg|Hg].
    + rewrite lookup_insert_ne; [by apply IH|].
      intros E. apply (Hx (group_id g)); [by apply list_elem_of_fmap_2|].
      rewrite <-E. simpl. by left.
    + apply list_elem_of_singleton in Hg as ->. by rewrite lookup_insert_eq.
Qed.

End Linking.

(** ** [buildGroupTree]: the recursive sort *)

Section SortPhase.
Import JS Tree.
Variable localeCompare : string → string → Z.
Hypothesis HC : Consistent localeCompare.
Variable B : Store.
Variable N : nat.
Variable D : nat → string → Prop.
Hypothesis D_dom : ∀ k i, D k i → is_Some (B !! i).
Hypothesis D_child : ∀ k i c, D k i → c ∈ childrenOf B i → D (S k) c.
Hypothesis D_bound : ∀ k i, D k i → (k < N)%nat.

Abbreviation PS := (PartlySorted localeCompare B).
Abbreviation Done := (SortedAt localeCompare B).
Abbreviation Ext := (KeepsSorted localeCompare B).

Lemma nodeName_PS m i : PS m → nodeName m i = nodeName B i.
Proof.
  intros H. unfold nodeName. destruct (H i) as [->| ->]; [done|].
  by destruct (B !! i).
Qed.

Lemma sortNodes_PS m l : PS m → sortNodes localeCompare m l = sortNodes localeCompare B l.
Proof.
  intros H. unfold sortNodes. apply array_sort_ext. intros a b.
  by rewrite (nodeName_PS m a), (nodeName_PS m b).
Qed.

Lemma Consistent_names : Consistent (λ a b, localeCompare (nodeName B a) (nodeName B b)).
Proof. destruct HC as [H1 H2]. split; intros; eauto. Qed.

Lemma sortNodes_idemp l :
  sortNodes localeCompare B (sortNodes localeCompare B l) = sortNodes localeCompare B l.
Proof. unfold sortNodes. apply array_sort_idemp, Consistent_names. Qed.

Lemma elem_of_sortNodes m r l : r ∈ sortNodes localeCompare m l ↔ r ∈ l.
Proof. unfold sortNodes. by rewrite array_sort_Permutation. Qed.

Lemma PS_children m r n :
  PS m → m !! r = Some n →
  sortNodes localeCompare B (node_children n) = sortNodes localeCompare B (childrenOf B r)
  ∧ (∀ c, c ∈ node_children n ↔ c ∈ childrenOf B r)
  ∧ set_children (sortNodes localeCompare B (childrenOf B r)) n
    = sortedCell localeCompare B (default n (B !! r))
  ∧ is_Some (B !! r).
Proof.
  intros H Hm. unfold childrenOf. destruct (H r) as [E|E]; rewrite Hm in E.
  - rewrite <-E. simpl. done.
  - destruct (B !! r) as [bn|]; [|done]. simpl in *. injection E as ->. simpl.
    split_and!; [apply sortNodes_idemp| |done|done].
    intros c. apply elem_of_sortNodes.
Qed.

Lemma mapM_agree {X Y} (F G : X → option Y) l :
  (∀ c, c ∈ l → ∃ t, F c = Some t ∧ G c = Some t) →
  ∃ ts, mapM F l = Some ts ∧ mapM G l = Some ts.
Proof.
  induction l as [|x l IH]; intros H; simpl.
  - by exists [].
  - destruct (H x) as (t & -> & ->); [by left|].
    destruct IH as (ts & -> & ->); [intros; apply H; by right|].
    by exists (t :: ts).
Qed.

Lemma Ext_alter m r n bn :
  m !! r = Some n → B !! r = Some bn →
  PS m →
  let m2 := alter (set_children (sortNodes localeCompare B (node_children bn))) r m in
  PS m2 ∧ Ext m m2 ∧ Done m2 r.
Proof.
  intros Hm HB HPS m2.
  assert (Done m2 r) as HD.
  { unfold SortedAt, m2. rewrite lookup_alter_eq, Hm, HB. simpl. f_equal.
    destruct (HPS r) as [E|E]; rewrite Hm, HB in E; simpl in E; injection E as ->; done. }
  split_and!; [| |done].
  - intros i. destruct (decide (r = i)) as [<-|Hne]; [by right|].
    unfold m2. rewrite lookup_alter_ne by done. apply HPS.
  - intros i Hi. destruct (decide (r = i)) as [<-|Hne]; [done|].
    unfold SortedAt, m2. rewrite lookup_alter_ne by done. apply Hi.
Qed.

Lemma sortChildren_spec : ∀ f k m nodes,
  (1 ≤ f)%nat → (N < k + f)%nat → PS m → (∀ r, r ∈ nodes → D k r) →
  ∃ m', sortChildren localeCompare f m nodes = Some (sortNodes localeCompare B nodes, m')
        ∧ PS m' ∧ Ext m m'
        ∧ ∀ m'', PS m'' → Ext m' m'' → ∀ r, r ∈ nodes →
            ∃ t, readNode f m'' r = Some t
                 ∧ readNode f (sortAll localeCompare B) r = Some t.
Proof.
  induction f as [|f IHf]; intros k m nodes Hf HN HPS HD; [lia|].
  simpl. rewrite (sortNodes_PS m) by done.
  set (step := λ (acc : option Store) (r : string),
         m0 ← acc; n ← m0 !! r;
         '(cs, m1) ← sortChildren localeCompare f m0 (node_children n);
         Some (alter (set_children cs) r m1)).
  assert (∀ l m0, PS m0 → (∀ r, r ∈ l → D k r) →
     ∃ m', foldl step (Some m0) l = Some m' ∧ PS m' ∧ Ext m0 m'
       ∧ ∀ r, r ∈ l → Done m' r
           ∧ ∀ m'', PS m'' → Ext m' m'' → ∀ c, c ∈ childrenOf B r →
               ∃ t, readNode f m'' c = Some t
                    ∧ readNode f (sortAll localeCompare B) c = Some t) as Hloop.
  { clear nodes HD m HPS. induction l as [|r l IHl]; intros m0 HPS HD; simpl.
    - exists m0. split_and!; [done|done|by intros ?|]. intros r Hr. by apply elem_of_nil in Hr.
    - assert (D k r) as HDr by (apply HD; by left).
      destruct (D_dom _ _ HDr) as [bn HB].
      assert (is_Some (m0 !! r)) as [n Hm].
      { destruct (HPS r) as [->| ->]; rewrite HB; by eexists. }
      destruct (PS_children m0 r n HPS Hm) as (Hs & Hel & _ & _).
      pose proof (D_bound _ _ HDr) as Hk.
      destruct (IHf (S k) m0 (node_children n)) as (m1 & Hsc & HPS1 & Hext1 & Hread);
        [lia|lia|done| |].
      { intros c Hc. eapply D_child; [exact HDr|]. by apply Hel. }
      rewrite Hs in Hsc.
      assert (is_Some (m1 !! r)) as [n1 Hm1].
      { destruct (HPS1 r) as [->| ->]; rewrite HB; by eexists. }
      assert (childrenOf B r = node_children bn) as Hcs by (unfold childrenOf; by rewrite HB).
      destruct (Ext_alter m1 r n1 bn Hm1 HB HPS1) as (HPS2 & Hext2 & HD2).
      destruct (IHl (alter (set_children (sortNodes localeCompare B (node_children bn))) r m1))
        as (m3 & Hfold & HPS3 & Hext3 & Hrest); [done|intros; apply HD; by right|].
      exists m3. split_and!.
      + rewrite Hm. simpl. rewrite Hsc. simpl.
        rewrite Hcs. exact Hfold.
      + done.
      + intros i Hi. by apply Hext3, Hext2, Hext1.
      + intros r' Hr'. apply elem_of_cons in Hr' as [->|Hr']; [|by apply Hrest].
        split; [by apply Hext3|].
        intros m'' HPS'' Hext'' c Hc. apply Hread; [done| |by apply Hel].
        intros i Hi. by apply Hext'', Hext3, Hext2. }
  destruct (Hloop (sortNodes localeCompare B nodes) m HPS) as (m' & Hfold & HPS' & Hext' & Hres).
  { intros r Hr. apply HD. by apply elem_of_sortNodes in Hr. }
  exists m'. fold step. rewrite Hfold. simpl. split_and!; [done..|].
  intros m'' HPS'' Hext'' r Hr.
  destruct (Hres r) as [HDone Hkids]; [by apply elem_of_sortNodes|].
  apply Hext'' in HDone. unfold SortedAt in HDone.
  destruct (D_dom _ _ (HD r Hr)) as [bn HB].
  rewrite HB in HDone. simpl in HDone.
  unfold sortAll. rewrite HDone, lookup_fmap, HB. simpl.
  destruct (mapM_agree (readNode f m'') (readNode f (sortedCell localeCompare B <$> B))
              (sortNodes localeCompare B (node_children bn))) as (ts & -> & ->).
  { intros c Hc. apply (Hkids m'' HPS'' Hext'').
    apply elem_of_sortNodes in Hc. unfold childrenOf. by rewrite HB. }
  simpl. by eexists.
Qed.

End SortPhase.

(** ** [buildGroupTree]: the linked store of an input with distinct ids *)

Section Forest.
Import JS Tree.
Variable gs : list Group.
Hypothesis Hnd : NoDup (group_id <$> gs).

Lemma group_by_id g g' : g ∈ gs → g' ∈ gs → group_id g = group_id g' → g = g'.
Proof.
  intros Hg Hg' E.
  apply list_elem_of_lookup in Hg as [i Hi]. apply list_elem_of_lookup in Hg' as [j Hj].
  assert (i = j) as ->; [|congruence].
  eapply NoDup_lookup; [exact Hnd| |]; rewrite list_lookup_fmap.
  - by rewrite Hi.
  - rewrite Hj. simpl. by rewrite E.
Qed.

Lemma linked_roots : (linked gs).2 = group_id <$> filter isRoot gs.
Proof. unfold linked. by destruct (links_spec gs (foldl createNode ∅ gs, [])) as (_ & _ & ->). Qed.

Lemma linked_dom i : is_Some ((linked gs).1 !! i) ↔ i ∈ group_id <$> gs.
Proof.
  unfold linked. destruct (links_spec gs (foldl createNode ∅ gs, [])) as (H & _ & _).
  rewrite <-is_Some_groupOf, H, is_Some_groupOf. simpl.
  rewrite createNodes_dom, lookup_empty. split; [intros [[? ?]|?]; done|by right].
Qed.

Lemma linked_groupOf g : g ∈ gs → groupOf (linked gs).1 (group_id g) = Some g.
Proof.
  intros Hg. unfold linked.
  destruct (links_spec gs (foldl createNode ∅ gs, [])) as (-> & _ & _). simpl.
  unfold groupOf. by rewrite createNodes_lookup.
Qed.

Lemma linked_children i :
  i ∈ group_id <$> gs →
  childrenOf (linked gs).1 i = group_id <$> filter (childOf i) gs.
Proof.
  intros Hi. unfold linked.
  destruct (links_spec gs (foldl createNode ∅ gs, [])) as (_ & -> & _). simpl.
  apply list_elem_of_fmap in Hi as (g & -> & Hg).
  unfold childrenOf at 1. rewrite createNodes_lookup by done.
  rewrite decide_True by by eexists. done.
Qed.

Lemma linked_nodeName g : g ∈ gs → nodeName (linked gs).1 (group_id g) = group_name g.
Proof.
  intros Hg. pose proof (linked_groupOf g Hg) as H. unfold groupOf, nodeName in *.
  destruct (_ !! _); simpl in *; congruence.
Qed.

Lemma atDepth_elem k i : atDepth gs k i → i ∈ group_id <$> gs.
Proof. destruct 1; by apply list_elem_of_fmap_2. Qed.

Lemma atDepth_dom k i : atDepth gs k i → is_Some ((linked gs).1 !! i).
Proof. intros H. by eapply linked_dom, atDepth_elem. Qed.

Lemma atDepth_children k i c :
  atDepth gs k i → c ∈ childrenOf (linked gs).1 i → atDepth gs (S k) c.
Proof.
  intros Hk Hc. rewrite linked_children in Hc by by eapply atDepth_elem.
  apply list_elem_of_fmap in Hc as (g & -> & Hg).
  apply list_elem_of_filter in Hg as [Hch Hg]. by eapply atDepth_child.
Qed.

Lemma root_not_child p g : isRoot g → childOf p g → False.
Proof.
  unfold isRoot, childOf. destruct (truthy (group_parentId g)); simpl; tauto.
Qed.

Lemma childOf_inj p p' g : childOf p g → childOf p' g → p = p'.
Proof. rewrite !childOf_spec. intros [_ H1] [_ H2]. congruence. Qed.

Lemma atDepth_inv k i :
  atDepth gs k i →
  ∃ g, g ∈ gs ∧ i = group_id g ∧
       match k with
       | O => isRoot g
       | S j => ∃ p, childOf p g ∧ atDepth gs j p
       end.
Proof. destruct 1; eauto 6. Qed.

Lemma atDepth_fun k i : atDepth gs k i → ∀ k', atDepth gs k' i → k = k'.
Proof.
  induction 1 as [g Hg Hr|g p k Hg Hc Hp IH]; intros k' H';
    apply atDepth_inv in H' as (g' & Hg' & E & H'); apply group_by_id in E; try done; subst g';
    destruct k' as [|k']; try done.
  - destruct H' as (p' & Hc' & _). by destruct (root_not_child p' g).
  - by destruct (root_not_child p g).
  - destruct H' as (p' & Hc' & Hp'). rewrite (childOf_inj _ _ _ Hc Hc') in *.
    f_equal. by apply IH.
Qed.

Lemma atDepth_chain k i :
  atDepth gs k i →
  ∃ l, length l = S k ∧ NoDup l ∧ (∀ x, x ∈ l → x ∈ group_id <$> gs)
       ∧ ∀ x, x ∈ l → ∃ j, (j ≤ k)%nat ∧ atDepth gs j x.
Proof.
  induction 1 as [g Hg Hr|g p k Hg Hc Hp (l & Hlen & Hndl & Hsub & Hd)].
  - exists [group_id g]. split_and!; [done|apply NoDup_singleton| |].
    + intros x ->%list_elem_of_singleton. by apply list_elem_of_fmap_2.
    + intros x ->%list_elem_of_singleton. exists 0%nat. split; [done|by constructor].
  - exists (group_id g :: l). split_and!.
    + simpl. by rewrite Hlen.
    + constructor; [|done]. intros Hin. destruct (Hd _ Hin) as (j & Hj & Hdj).
      assert (S k = j); [|lia].
      eapply atDepth_fun; [|exact Hdj]. by eapply atDepth_child.
    + intros x [->|Hx]%elem_of_cons; [by apply list_elem_of_fmap_2|by apply Hsub].
    + intros x [->|Hx]%elem_of_cons.
      * exists (S k). split; [done|by eapply atDepth_child].
      * destruct (Hd _ Hx) as (j & Hj & Hdj). exists j. split; [lia|done].
Qed.

Lemma atDepth_bound k i : atDepth gs k i → (k < length gs)%nat.
Proof.
  intros H. destruct (atDepth_chain k i H) as (l & Hlen & Hndl & Hsub & _).
  assert (length l ≤ length (group_id <$> gs))%nat as Hle.
  { apply submseteq_length, NoDup_submseteq; done. }
  rewrite length_fmap in Hle. lia.
Qed.

End Forest.

(** ** [buildGroupTree] on two orders of one input *)

Section Reorder.
Import JS Tree.
Variable localeCompare : string → string → Z.
Hypothesis HC : Consistent localeCompare.

Lemma buildGroupTree_linked gs fuel :
  NoDup (group_id <$> gs) → (length gs < fuel)%nat →
  ∃ forest,
    buildGroupTree localeCompare fuel gs = Some forest ∧
    mapM (readNode fuel (sortAll localeCompare (linked gs).1))
         (sortNodes localeCompare (linked gs).1 (linked gs).2) = Some forest.
Proof.
  intros Hnd Hf. unfold buildGroupTree. fold (linked gs).
  pose proof (linked_roots gs) as Hroots.
  destruct (linked gs) as [B roots] eqn:HB. simpl in *.
  assert (B = (linked gs).1) as HB1 by by rewrite HB.
  destruct (sortChildren_spec localeCompare HC B (length gs) (atDepth gs)) with
    (f := fuel) (k := 0%nat) (m := B) (nodes := roots)
    as (m' & -> & HPS & _ & Hread).
  - intros k i. rewrite HB1. apply atDepth_dom.
  - intros k i c. rewrite HB1. by apply atDepth_children.
  - intros k i. by apply atDepth_bound.
  - lia.
  - lia.
  - intros i. by left.
  - intros r. rewrite Hroots. intros (g & -> & Hg)%list_elem_of_fmap.
    apply list_elem_of_filter in Hg as [Hr Hg]. by constructor.
  - simpl. destruct (mapM_agree (readNode fuel m') (readNode fuel (sortAll localeCompare B))
                       (sortNodes localeCompare B roots)) as (ts & -> & ->); [|by eexists].
    intros c Hc. apply Hread; [done|by intros ?|]. by apply elem_of_sortNodes in Hc.
Qed.

Lemma nodeName_groupOf (m : Store) i :
  nodeName m i = from_option group_name "" (groupOf m i).
Proof. unfold nodeName, groupOf. by destruct (m !! i). Qed.

Lemma groupOf_sortAll (B : Store) i : groupOf (sortAll localeCompare B) i = groupOf B i.
Proof. unfold groupOf, sortAll. rewrite lookup_fmap. by destruct (B !! i). Qed.

Lemma childrenOf_sortAll (B : Store) i :
  childrenOf (sortAll localeCompare B) i = sortNodes localeCompare B (childrenOf B i).
Proof. unfold childrenOf, sortAll. rewrite lookup_fmap. by destruct (B !! i). Qed.

Section Permuted.
Variables gs gs' : list Group.
Hypothesis Hnd : NoDup (group_id <$> gs).
Hypothesis Hperm : gs ≡ₚ gs'.

Lemma perm_NoDup : NoDup (group_id <$> gs').
Proof. by rewrite <-Hperm. Qed.

Lemma perm_groupOf i : groupOf (linked gs).1 i = groupOf (linked gs').1 i.
Proof.
  destruct (decide (i ∈ group_id <$> gs)) as [Hi|Hi].
  - apply list_elem_of_fmap in Hi as (g & -> & Hg).
    rewrite linked_groupOf by done. rewrite linked_groupOf; [done|apply perm_NoDup|by rewrite <-Hperm].
  - assert (∀ l, NoDup (group_id <$> l) → i ∉ group_id <$> l → groupOf (linked l).1 i = None) as H.
    { intros l Hl Hn. rewrite <-linked_dom in Hn by done. rewrite <-is_Some_groupOf in Hn.
      by apply eq_None_not_Some. }
    rewrite !H; [done|apply perm_NoDup|by rewrite <-Hperm|done|done].
Qed.

End Permuted.
End Reorder.

(** ** [buildGroupTree]: the claims *)

(** Case analysis on the membership of an explicit list. *)
Ltac list_cases H :=
  repeat (apply elem_of_cons in H as [->|H]); try (by apply elem_of_nil in H).

Section TreeClaims.
Import JS Tree Samples.

Lemma codeUnitCompare_Consistent : Consistent codeUnitCompare.
Proof.
  split.
  - induction a as [|x a IH]; intros [|y b]; simpl; try done.
    specialize (IH b).
    destruct (Z.eqb_spec (Z.of_N (N_of_ascii x) - Z.of_N (N_of_ascii y)) 0),
             (Z.eqb_spec (Z.of_N (N_of_ascii y) - Z.of_N (N_of_ascii x)) 0); try lia.
  - induction a as [|x a IH]; intros [|y b] [|z c]; simpl; try done.
    specialize (IH b c).
    destruct (Z.eqb_spec (Z.of_N (N_of_ascii x) - Z.of_N (N_of_ascii y)) 0),
             (Z.eqb_spec (Z.of_N (N_of_ascii y) - Z.of_N (N_of_ascii z)) 0),
             (Z.eqb_spec (Z.of_N (N_of_ascii x) - Z.of_N (N_of_ascii z)) 0); try lia.
Qed.

(** C1, on two inputs.  A group whose [parentId] names no group of the
    input is in no [children] array and not among the roots: the forest
    of [[orphan]] is empty.  And for the chain [A] > [B] > [C] listed
    child first, [C] keeps level 1 and path [["B"]] below [B] of level
    1 and path [["A"]]: its level is not its parent's plus one, and its
    path is not its parent's path followed by the parent's name. *)
Theorem buildGroupTree_orphan_and_stale_level :
  buildGroupTree codeUnitCompare 4 [orphan] = Some [] ∧
  buildGroupTree codeUnitCompare 4 [gC; gB; gA]
  = Some [TreeNode gA [TreeNode gB [TreeNode gC [] 1 ["B"]] 1 ["A"]] 0 []].
Proof. split; reflexivity. Qed.


End TreeClaims.

(** ** [getGroupPath]: the walk up the parents *)

Section PathClaims.
Import JS GroupsApi PathSpec Samples.

Lemma groupMapOf_elem l : ∀ (m : gmap string Group) k g,
  foldl (λ m g, <[group_id g := g]> m) m l !! k = Some g →
  m !! k = Some g ∨ (g ∈ l ∧ group_id g = k).
Proof.
  induction l as [|x l IH]; intros m k g H; simpl in *; [by left|].
  apply IH in H as [H|[H1 H2]].
  - apply lookup_insert_Some in H as [[<- <-]|[_ H]]; [right|by left].
    split; [by left|done].
  - right. split; [by right|done].
Qed.

Lemma groupMapOf_lookup l k g :
  groupMapOf l !! k = Some g → g ∈ l ∧ group_id g = k.
Proof.
  intros H. apply groupMapOf_elem in H as [H|H]; [|done]. by rewrite lookup_empty in H.
Qed.

Section Walk.
Variable m : gmap string Group.

Lemma ancestorAt_None k : ancestorAt m k None = None.
Proof. induction k as [|k IH]; [done|]. exact IH. Qed.

Lemma ancestorAt_add a : ∀ b cur,
  ancestorAt m (a + b) cur = ancestorAt m b (ancestorAt m a cur).
Proof. induction a as [|a IH]; intros b cur; [done|]. simpl. apply IH. Qed.

Lemma ancestorAt_ended k k' cur :
  ancestorAt m k cur = None → (k ≤ k')%nat → ancestorAt m k' cur = None.
Proof.
  intros H Hle. replace k' with (k + (k' - k))%nat by lia.
  by rewrite ancestorAt_add, H, ancestorAt_None.
Qed.

Lemma walkUp_step fuel g path :
  walkUp (S fuel) m (Some g) path = walkUp fuel m (parentIn m g) (group_name g :: path).
Proof. done. Qed.

(** The walk ends as soon as the chain does, and the bound no longer
    matters. *)
Lemma walkUp_ends k : ∀ cur path,
  ancestorAt m k cur = None →
  ∃ names, ∀ fuel, (k ≤ fuel)%nat → walkUp fuel m cur path = Some (names ++ path).
Proof.
  induction k as [|k IH]; intros cur path H.
  - simpl in H. subst cur. exists []. intros fuel _. by destruct fuel.
  - destruct cur as [g|]; [|exists []; intros fuel _; by destruct fuel].
    simpl in H. destruct (IH (parentIn m g) (group_name g :: path) H) as (names & Hn).
    exists (names ++ [group_name g]). intros [|fuel] Hf; [lia|].
    rewrite walkUp_step, Hn by lia. by rewrite <-(assoc_L (++)).
Qed.

(** The walk has no end while the chain has none. *)
Lemma walkUp_endless fuel : ∀ cur path,
  (∀ k, is_Some (ancestorAt m k cur)) → walkUp fuel m cur path = None.
Proof.
  induction fuel as [|fuel IH]; intros cur path H.
  - destruct (H 0%nat) as [g Hg]. simpl in Hg. by subst cur.
  - destruct (H 0%nat) as [g Hg]. simpl in Hg. subst cur.
    rewrite walkUp_step. apply IH. intros k. apply (H (S k)).
Qed.

(** A chain that comes back to a group goes on for ever. *)
Lemma revisit_endless i j cur :
  is_Some (ancestorAt m i cur) →
  ancestorAt m (i + S j) cur = ancestorAt m i cur →
  ∀ k, is_Some (ancestorAt m k cur).
Proof.
  intros Hi Hcycle.
  assert (∀ n, ancestorAt m (i + n * S j) cur = ancestorAt m i cur) as Hn.
  { induction n as [|n IH]; [by rewrite Nat.add_0_r|].
    replace (i + S n * S j)%nat with ((i + S j) + n * S j)%nat by lia.
    rewrite ancestorAt_add, Hcycle, <-ancestorAt_add. exact IH. }
  intros k. destruct (ancestorAt m k cur) as [g|] eqn:E; [by eexists|].
  pose proof (ancestorAt_ended k (i + k * S j) cur E) as H.
  rewrite Hn in H. rewrite H in Hi; [by destruct Hi|nia].
Qed.

End Walk.

Section Snapshot.
Variable allGroups : list Group.
Abbreviation gm := (groupMapOf allGroups).

Abbreviation Keyed := (PathSpec.Keyed (groupMapOf allGroups)).
Abbreviation chainIds := (PathSpec.chainIds (groupMapOf allGroups)).

Lemma Keyed_start groupId : Keyed (gm !! groupId).
Proof.
  intros g H. pose proof (groupMapOf_lookup _ _ _ H) as [_ Hid]. by rewrite Hid.
Qed.

Lemma Keyed_parent cur : Keyed (cur ≫= parentIn gm).
Proof.
  intros p H. destruct cur as [g|]; [|done]. simpl in H.
  unfold parentIn in H. destruct (truthy _); [|done].
  pose proof (groupMapOf_lookup _ _ _ H) as [_ Hid]. by rewrite Hid.
Qed.

Lemma Keyed_ancestor k : ∀ cur, Keyed cur → Keyed (ancestorAt gm k cur).
Proof.
  induction k as [|k IH]; intros cur H; [done|]. simpl. apply IH, Keyed_parent.
Qed.

Lemma chain_short cur :
  Keyed cur → NoRevisit gm cur → ancestorAt gm (length allGroups) cur = None.
Proof.
  intros Hkey Hnr.
  destruct (ancestorAt gm (length allGroups) cur) as [glast|] eqn:Elast; [|done].
  exfalso.
  assert (Hsome : ∀ k, (k ≤ length allGroups)%nat → is_Some (ancestorAt gm k cur)).
  { intros k Hk. destruct (ancestorAt gm k cur) eqn:E; [by eexists|].
    rewrite (ancestorAt_ended gm k (length allGroups) cur E Hk) in Elast. done. }
  assert (Hin : ∀ x, x ∈ chainIds cur (S (length allGroups)) → x ∈ group_id <$> allGroups).
  { intros x Hx. apply list_elem_of_fmap in Hx as (k & -> & Hk).
    apply elem_of_seq in Hk. destruct (Hsome k) as [g Hg]; [lia|]. rewrite Hg. simpl.
    pose proof (Keyed_ancestor k cur Hkey g Hg) as Hg'.
    apply groupMapOf_lookup in Hg' as [Hg' _]. by apply list_elem_of_fmap_2. }
  assert (Hnd : NoDup (chainIds cur (S (length allGroups)))).
  { apply NoDup_fmap_2_strong; [|apply NoDup_seq].
    intros a b Ha Hb Heq. apply elem_of_seq in Ha, Hb.
    destruct (Hsome a) as [ga Hga]; [lia|]. destruct (Hsome b) as [gb Hgb]; [lia|].
    rewrite Hga, Hgb in Heq. simpl in Heq.
    pose proof (Keyed_ancestor a cur Hkey ga Hga) as Ka.
    pose proof (Keyed_ancestor b cur Hkey gb Hgb) as Kb.
    rewrite Heq, Kb in Ka. injection Ka as <-.
    destruct (Nat.lt_trichotomy a b) as [Hlt|[->|Hlt]]; [|done|].
    - destruct (Hnr a (b - a - 1)%nat); [by eexists|].
      replace (a + S (b - a - 1))%nat with b by lia. by rewrite Hga, Hgb.
    - destruct (Hnr b (a - b - 1)%nat); [by eexists|].
      replace (b + S (a - b - 1))%nat with a by lia. by rewrite Hga, Hgb. }
  pose proof (submseteq_length _ _ (NoDup_submseteq _ _ Hnd Hin)) as Hlen.
  unfold chainIds in Hlen. rewrite !length_fmap, length_seq in Hlen. lia.
Qed.

End Snapshot.

(** C4, amended.  The walk of [getGroupPath] ends exactly when the
    chain of [parentId]s from the start group visits no group twice,
    whatever the other groups of the snapshot do: then every bound of
    at least as many iterations as there are groups gives one and the
    same path.  The loop keeps no record of the groups visited: when
    the chain from the start group comes back to a group, the walk has
    no end, whatever the bound. *)
Theorem pathIn_terminates (allGroups : list Group) (groupId : string) :
  (NoRevisit (groupMapOf allGroups) (groupMapOf allGroups !! groupId) →
   ∃ path, ∀ fuel, (length allGroups ≤ fuel)%nat →
     pathIn fuel allGroups groupId = Some path) ∧
  (¬ NoRevisit (groupMapOf allGroups) (groupMapOf allGroups !! groupId) →
   ∀ fuel, pathIn fuel allGroups groupId = None) ∧
  (∀ i j,
     is_Some (ancestorAt (groupMapOf allGroups) i (groupMapOf allGroups !! groupId)) →
     ancestorAt (groupMapOf allGroups) (i + S j) (groupMapOf allGroups !! groupId)
     = ancestorAt (groupMapOf allGroups) i (groupMapOf allGroups !! groupId) →
     ∀ fuel, pathIn fuel allGroups groupId = None).
Proof.
  assert (Hcycle : ∀ i j,
     is_Some (ancestorAt (groupMapOf allGroups) i (groupMapOf allGroups !! groupId)) →
     ancestorAt (groupMapOf allGroups) (i + S j) (groupMapOf allGroups !! groupId)
     = ancestorAt (groupMapOf allGroups) i (groupMapOf allGroups !! groupId) →
     ∀ fuel, pathIn fuel allGroups groupId = None).
  { intros i j Hi Hc fuel. unfold pathIn. apply walkUp_endless.
    by apply (revisit_endless _ i j). }
  split_and!.
  - intros Hnr.
    pose proof (chain_short allGroups _ (Keyed_start allGroups groupId) Hnr) as Hend.
    destruct (walkUp_ends _ _ _ [] Hend) as (names & Hn).
    exists (names ++ []). intros fuel Hf. unfold pathIn. by apply Hn.
  - intros Hrev fuel.
    destruct (pathIn fuel allGroups groupId) as [path|] eqn:E; [|done].
    exfalso. apply Hrev. intros i j Hi Heq. by rewrite (Hcycle i j Hi Heq fuel) in E.
  - exact Hcycle.
Qed.

Lemma walkUp_loop fuel : ∀ path,
  walkUp fuel (groupMapOf [loopA; loopB]) (Some loopA) path = None ∧
  walkUp fuel (groupMapOf [loopA; loopB]) (Some loopB) path = None.
Proof.
  assert (groupMapOf [loopA; loopB] !! "la" = Some loopA) as Ha by reflexivity.
  assert (groupMapOf [loopA; loopB] !! "lb" = Some loopB) as Hb by reflexivity.
  induction fuel as [|fuel IH]; intros path; [done|].
  split; simpl; [rewrite Hb|rewrite Ha]; apply IH.
Qed.

(** C4 as stated fails: on two groups that name each other as parent
    the walk of [getGroupPath] has no end, whatever the bound. *)
Lemma pathIn_cycle_never_ends :
  ¬ ∃ fuel path, pathIn fuel [loopA; loopB] "la" = Some path.
Proof.
  intros (fuel & path & H). unfold pathIn in H.
  change (groupMapOf [loopA; loopB] !! "la") with (Some loopA) in H.
  destruct (walkUp_loop fuel []) as [E _]. congruence.
Qed.

Lemma pathIn_terminates_witness :
  ∃ path, ∀ fuel, (length [gA; loopA; loopB] ≤ fuel)%nat →
    pathIn fuel [gA; loopA; loopB] "a" = Some path.
Proof.
  apply (proj1 (pathIn_terminates [gA; loopA; loopB] "a")).
  intros i j Hi. destruct i as [|i].
  - change (ancestorAt (groupMapOf [gA; loopA; loopB]) (0 + S j)
              (groupMapOf [gA; loopA; loopB] !! "a"))
      with (ancestorAt (groupMapOf [gA; loopA; loopB]) j None).
    by rewrite ancestorAt_None.
  - change (ancestorAt (groupMapOf [gA; loopA; loopB]) (S i)
              (groupMapOf [gA; loopA; loopB] !! "a"))
      with (ancestorAt (groupMapOf [gA; loopA; loopB]) i None) in Hi.
    rewrite ancestorAt_None in Hi. by destruct Hi.
Defined.

End PathClaims.

(** ** [SidvyApiClient.request] *)

Section ClientClaims.
Import Client Samples.

Lemma errorResult_isFailure code message :
  isErrorCode code = true → isFailureVariant (errorResult code message) = true.
Proof. intros H. unfold isFailureVariant, errorResult. simpl. exact H. Qed.

Lemma or_else_defined a : or_else a (VObj []) ≠ VUndefined.
Proof. unfold or_else. destruct (truthy a) eqn:E; [|done]. by destruct a. Qed.

(** C7.  [request] on a 500 answer whose JSON body is not an error
    envelope: the branch commented "Return error response in our
    format" returns the body as it is, where the other branches build
    a tagged variant.  The result is neither the success nor the
    failure variant, and no [HTTP_ERROR] failure is made. *)
Lemma request_unstructured_body :
  request joinURL fetch500 config "GET" "/group" None None = Returns detailBody ∧
  isSuccessVariant detailBody = false ∧
  isFailureVariant detailBody = false.
Proof. split_and!; reflexivity. Qed.

(** Once the address is built, [request] returns on every outcome of
    [fetch] and never throws: a rejected [fetch] gives
    a [NETWORK_ERROR] failure with the error's message (or the fixed
    one); a 2xx answer gives a success; a non-2xx answer whose body
    parses to a truthy JSON value gives that body unchanged, whatever
    its shape; a non-2xx answer with no such body gives an [HTTP_ERROR]
    failure with the message ["HTTP <status>: <statusText>"]. *)
Theorem request_resolves
    (newURL : string → string → option string)
    (fetch : Url → RequestInit → FetchOutcome)
    (config : SidvyConfig) (method url : string)
    (data : option Value) (params : option (list (string * Value)))
    (address : string) :
  newURL (endpointOf url) (baseUrlOf config) = Some address →
  ∃ v, request newURL fetch config method url data params = Returns v ∧
    match fetch (mkUrl address (queryOf params)) (mkRequestInit method (bodyOf data)) with
    | FetchRejects error =>
        v = errorResult "NETWORK_ERROR" (messageOf error) ∧ isFailureVariant v = true
    | FetchResolves response =>
        if ok response then isSuccessVariant v = true
        else if truthy (default VNull (body response))
             then body response = Some v
             else v = errorResult "HTTP_ERROR" (httpErrorMessage response)
                  ∧ isFailureVariant v = true
    end.
Proof.
  intros Haddr. unfold request. rewrite Haddr.
  destruct (fetch _ _) as [error|response].
  - eexists. split; [done|]. split; [done|]. by apply errorResult_isFailure.
  - destruct (ok response); simpl.
    + eexists. split; [done|]. unfold isSuccessVariant. simpl.
      pose proof (or_else_defined
        (or_else (optProp (default VNull (body response)) "data")
                 (default VNull (body response)))) as H.
      by destruct (or_else _ (VObj [])).
    + destruct (truthy (default VNull (body response))) eqn:E.
      * eexists. split; [done|]. by destruct (body response).
      * eexists. split; [done|]. split; [done|]. by apply errorResult_isFailure.
Qed.

Lemma request_resolves_witness :
  ∃ v, request joinURL fetch500 config "GET" "/group" None None = Returns v ∧
    match fetch500 (mkUrl "https://sidvy.com/api/group" (queryOf None))
                   (mkRequestInit "GET" (bodyOf None)) with
    | FetchRejects error =>
        v = errorResult "NETWORK_ERROR" (messageOf error) ∧ isFailureVariant v = true
    | FetchResolves response =>
        if ok response then isSuccessVariant v = true
        else if truthy (default VNull (body response))
             then body response = Some v
             else v = errorResult "HTTP_ERROR" (httpErrorMessage response)
                  ∧ isFailureVariant v = true
    end.
Proof.
  apply (request_resolves joinURL fetch500 config "GET" "/group" None None
           "https://sidvy.com/api/group").
  reflexivity.
Defined.

End ClientClaims.

(** ** [createGroupPath]: failures *)

Section CreatePathFailure.
Import JS Remote GroupsApi.
Context {svc : Service}.

Lemma perform_log {T} (serve : St svc → Fields → St svc * ApiResponse T) req payload w :
  log (perform serve req payload w).1
  = log w ++ [mkExchange req (failureOf (perform serve req payload w).2)].
Proof. unfold perform. by destruct (serve (srv w) payload). Qed.

Lemma createGroupPathFrom_log path : ∀ ws created parent (w : World svc),
  ∃ entries,
    log (createGroupPathFrom path ws created parent w).1 = log w ++ entries ∧
    Forall readsOrCreates entries ∧
    match (createGroupPathFrom path ws created parent w).2 with
    | ApiError code message =>
        ∃ pre req, entries = pre ++ [mkExchange req (Some (code, message))]
                   ∧ Forall answeredOk pre
    | ApiSuccess gs _ =>
        Forall answeredOk entries ∧ length gs = (length created + length path)%nat
    end.
Proof.
  induction path as [|name rest IH]; intros ws created parent w; simpl.
  - exists []. rewrite app_nil_r. split_and!; [done|constructor|constructor|lia].
  - unfold listGroups, get_groups.
    pose proof (perform_log (get_group svc)
                  (GET "/group" (searchParams (queryParams
                     (mkListGroupsParams None None ws parent None None))))
                  (searchParams (queryParams
                     (mkListGroupsParams None None ws parent None None))) w) as Hl.
    destruct (perform (get_group svc) _ _ w) as [w1 [data meta|code message]]; simpl in Hl.
    + destruct (array_find _ data) as [g|].
      * destruct (IH ws (created ++ [g]) (Some (group_id g)) w1) as (entries & Hlog & Hrc & Hres).
        eexists (_ :: entries). rewrite Hlog, Hl, <-(assoc_L (++)). split; [done|].
        split; [by constructor|].
        destruct (createGroupPathFrom rest ws (created ++ [g]) (Some (group_id g)) w1).2.
        -- destruct Hres as [Hok Hlen]. rewrite length_app in Hlen. simpl in Hlen.
           split; [by constructor|lia].
        -- destruct Hres as (pre & req & -> & Hok). eexists (_ :: pre), req.
           split; [done|by constructor].
      * unfold createGroup, post_groups.
        pose proof (perform_log (post_group svc)
                      (POST "/group" (createBody (mkCreateGroupRequest name ws parent)))
                      (createBody (mkCreateGroupRequest name ws parent)) w1) as Hc.
        destruct (perform (post_group svc) _ _ w1) as [w2 [g meta'|code message]]; simpl in Hc.
        -- destruct (IH ws (created ++ [g]) (Some (group_id g)) w2)
             as (entries & Hlog & Hrc & Hres).
           eexists (_ :: _ :: entries). rewrite Hlog, Hc, Hl, <-!(assoc_L (++)).
           split; [done|]. split; [by repeat constructor|].
           destruct (createGroupPathFrom rest ws (created ++ [g]) (Some (group_id g)) w2).2.
           ++ destruct Hres as [Hok Hlen]. rewrite length_app in Hlen. simpl in Hlen.
              split; [by repeat constructor|lia].
           ++ destruct Hres as (pre & req & -> & Hok). eexists (_ :: _ :: pre), req.
              split; [done|by repeat constructor].
        -- simpl. eexists [_; _]. rewrite Hc, Hl, <-(assoc_L (++)). split; [done|].
           split; [by repeat constructor|].
           eexists [_], _. split; [done|by repeat constructor].
    + simpl. eexists [_]. rewrite Hl. split; [done|]. split; [by repeat constructor|].
      by exists [], (GET "/group" (searchParams (queryParams
                     (mkListGroupsParams None None ws parent None None)))).
Qed.

(** C8.  Whatever the service answers, [createGroupPath] issues only
    listings and creations, so nothing it created is undone; when it
    returns a failure, that failure is the answer to the last request
    it issued, code and message unchanged, and every request before
    was answered with a success; when it returns a success, every
    request was, and one group per name is returned. *)
Theorem createGroupPath_failure_aborts (path : list string) (workspaceId : option string)
    (w : World svc) :
  ∃ entries,
    log (createGroupPath path workspaceId w).1 = log w ++ entries ∧
    Forall readsOrCreates entries ∧
    match (createGroupPath path workspaceId w).2 with
    | ApiError code message =>
        ∃ pre req, entries = pre ++ [mkExchange req (Some (code, message))]
                   ∧ Forall answeredOk pre
    | ApiSuccess gs _ =>
        Forall answeredOk entries ∧ length gs = length path
    end.
Proof. apply (createGroupPathFrom_log path workspaceId [] None w). Qed.

End CreatePathFailure.

(** ** [createGroupPath], [appendToNote] and the get-by-id helpers on the reference service *)

Section CreatePathRuns.
Import JS Remote GroupsApi Samples.

(** C3, on two facts.  The query [listGroups] builds for the first
    step, where [currentParentId] is [undefined], has no [parentId]
    entry, whatever the workspace; and on a service that has a group
    [A] only below the root [X], [createGroupPath(["A"])] issues that one
    listing, finds the nested [A] in it and returns it as the group of
    the root level: nothing is created under "no parent". *)
Theorem createGroupPath_first_lookup_unfiltered :
  (∀ workspaceId,
     queryParams (mkListGroupsParams None None workspaceId None None None)
     = field "workspaceId" QStr workspaceId) ∧
  createGroupPath ["A"] (Some "ws") (Model.start false nested)
  = (Model.world false nested
       [mkExchange (GET "/group" [("workspaceId", QStr "ws")]) None],
     ApiSuccess [nestedA] None) ∧
  group_parentId nestedA = Some "x".
Proof. split_and!; [by intros []|reflexivity|reflexivity]. Qed.

(** C2, on one run.  The service holds a hundred root groups, none
    named [A], and returns at most a hundred groups a page.  The first
    [createGroupPath(["A"])] creates [A] with id [g0]; the second lists
    the same first page, does not find [A] in it, and creates another
    one with id [g1]: the ids differ and the second run issues a
    [POST]. *)
Theorem createGroupPath_twice_creates_twice :
  (createGroupPath ["A"] (Some "ws") (Model.start false crowded)).2
  = ApiSuccess [mkGroup "g0" "A" "user" "ws" None] None ∧
  (createGroupPath ["A"] (Some "ws")
     (createGroupPath ["A"] (Some "ws") (Model.start false crowded)).1).2
  = ApiSuccess [mkGroup "g1" "A" "user" "ws" None] None ∧
  drop 2 (log (createGroupPath ["A"] (Some "ws")
                 (createGroupPath ["A"] (Some "ws") (Model.start false crowded)).1).1)
  = [mkExchange (GET "/group" [("workspaceId", QStr "ws")]) None;
     mkExchange (POST "/group" [("name", QStr "A"); ("workspaceId", QStr "ws")]) None].
Proof. split_and!; vm_compute; reflexivity. Qed.

End CreatePathRuns.

Section AppendClaims.
Import JS Remote NotesApi Samples.

(** C9.  Appending ["x"] to a note whose content is empty:
    [appendToNote] writes two line feeds and then ["x"], not ["x"]
    alone, where [appendToDailyNote] and [appendToWeeklyNote], which
    test the existing content first, write ["x"] alone. *)
Lemma appendToNote_empty_content :
  note_content emptyNote = "" ∧
  log (appendToNote (svc := Model.service false) "n1" "x" None (Model.start false oneNote)).1
  = [mkExchange (GET "/note" [("limit", QNum 100)]) None;
     mkExchange (PUT "/note" [("id", QStr "n1"); ("content", QStr (blankLine +:+ "x"))]) None]
  ∧ blankLine +:+ "x" ≠ "x"
  ∧ CalendarApi.updatedContent (note_content emptyNote) "x" = "x".
Proof. split_and!; [reflexivity|reflexivity|discriminate|reflexivity]. Qed.

(** When the lookup finds the note, [appendToNote] writes
    back the existing content, two line feeds, and the new content, in
    this order, whether or not the existing content is empty, and
    returns the answer to that update. *)
Theorem appendToNote_writes_concatenation {svc : Service}
    (noteId additionalContent : string) (workspaceId : option string)
    (w : World svc) (currentNote : Note) (meta : option Meta) :
  (getNoteById noteId workspaceId w).2 = ApiSuccess (Some currentNote) meta →
  ∃ w2 r,
    appendToNote noteId additionalContent workspaceId w = (w2, AppendDone r) ∧
    log w2 = log (getNoteById noteId workspaceId w).1 ++
      [mkExchange
         (PUT "/note"
            [("id", QStr noteId);
             ("content", QStr (note_content currentNote +:+ blankLine +:+ additionalContent))])
         (failureOf r)].
Proof.
  intros H. unfold appendToNote.
  destruct (getNoteById noteId workspaceId w) as [w1 resp]. simpl in H. subst resp.
  unfold updateNote, put_notes.
  pose proof (perform_log (put_note svc)
    (PUT "/note" (updateBody (mkUpdateNoteRequest noteId None
       (Some (note_content currentNote +:+ blankLine +:+ additionalContent)) None)))
    (updateBody (mkUpdateNoteRequest noteId None
       (Some (note_content currentNote +:+ blankLine +:+ additionalContent)) None)) w1) as Hl.
  destruct (perform (put_note svc) _ _ w1) as [w2 r]. exists w2, r. split; [done|]. exact Hl.
Qed.

Lemma appendToNote_writes_concatenation_witness :
  ∃ w2 r,
    appendToNote (svc := Model.service false) "n1" "x" None (Model.start false oneNote)
    = (w2, AppendDone r) ∧
    log w2 = log (getNoteById "n1" None (Model.start false oneNote)).1 ++
      [mkExchange
         (PUT "/note"
            [("id", QStr "n1");
             ("content", QStr (note_content emptyNote +:+ blankLine +:+ "x"))])
         (failureOf r)].
Proof.
  apply (appendToNote_writes_concatenation (svc := Model.service false)
           "n1" "x" None (Model.start false oneNote) emptyNote None).
  reflexivity.
Defined.

End AppendClaims.

Section GetByIdClaims.
Import JS Remote GroupsApi NotesApi TodosApi Lookup Samples.

Lemma array_find_FirstWith {A} (idOf : A → string) id data :
  FirstWith idOf id data (array_find (λ x, String.eqb (idOf x) id) data).
Proof.
  induction data as [|x data IH]; simpl; [intros x Hx; by apply elem_of_nil in Hx|].
  destruct (String.eqb_spec (idOf x) id) as [E|E].
  - exists [], data. split_and!; [done|done|]. intros y Hy. by apply elem_of_nil in Hy.
  - destruct (array_find _ data) as [item|]; simpl in *.
    + destruct IH as (pre & post & -> & Hid & Hpre). exists (x :: pre), post.
      split_and!; [done|done|]. intros y [->|Hy]%elem_of_cons; [done|by apply Hpre].
    + intros y [->|Hy]%elem_of_cons; [done|by apply IH].
Qed.

Lemma FirstWith_found {A} (idOf : A → string) id data found x :
  FirstWith idOf id data found →
  x ∈ data → idOf x = id → NoDup (idOf <$> data) → found = Some x.
Proof.
  intros H Hx Hid Hnd. destruct found as [item|]; simpl in H.
  - destruct H as (pre & post & -> & Hitem & Hpre). f_equal.
    rewrite fmap_app, fmap_cons in Hnd. apply NoDup_app in Hnd as (_ & Hdisj & Hnd).
    apply NoDup_cons in Hnd as [Hnot _].
    apply elem_of_app in Hx as [Hx|Hx]; [by destruct (Hpre x Hx)|].
    apply elem_of_cons in Hx as [->|Hx]; [done|].
    destruct Hnot. rewrite Hitem, <-Hid. by apply list_elem_of_fmap_2.
  - by destruct (H x Hx).
Qed.

Lemma FirstWith_missing {A} (idOf : A → string) id data found :
  FirstWith idOf id data found → id ∉ (idOf <$> data) → found = None.
Proof.
  intros H Hid. destruct found as [item|]; [|done]. simpl in H.
  destruct H as (pre & post & -> & Hitem & _). destruct Hid.
  rewrite <-Hitem. apply list_elem_of_fmap_2. apply elem_of_app. right. left.
Qed.

Lemma byIdQuery_sent workspaceId : searchParams (byIdQuery workspaceId) = byIdQuery workspaceId.
Proof. by destruct workspaceId. Qed.

(** C10.  Each get-by-id helper issues one [GET] with [limit = 100]
    and no [page], and sends nothing else.  A failed listing is
    returned as it is.  Otherwise the answer is a success holding the
    first item of that id in the page received and [null] when the
    page holds none: so an item of the page whose id is the only one of
    its kind there is returned itself, and an id that is not in the
    page gives [null], wherever else the item exists.  On a service
    that pages its listings, the page received is the first hundred
    items of the listing: of 250 groups the 43rd is found and the 101st
    is answered with [null]. *)
Theorem getById_first_page_only :
  (∀ (svc : Service) id workspaceId (w : World svc),
     (log (getGroupById id workspaceId w).1
      = log w ++ [mkExchange (GET "/group" (byIdQuery workspaceId))
                    (failureOf (get_groups (byIdQuery workspaceId) w).2)] ∧
      (getGroupById id workspaceId w).1 = (get_groups (byIdQuery workspaceId) w).1 ∧
      match (get_groups (byIdQuery workspaceId) w).2 with
      | ApiSuccess data _ =>
          ∃ found, (getGroupById id workspaceId w).2 = ApiSuccess found None ∧
                   FirstWith group_id id data found
      | ApiError code message =>
          (getGroupById id workspaceId w).2 = ApiError code message
      end) ∧
     (log (getNoteById id workspaceId w).1
      = log w ++ [mkExchange (GET "/note" (byIdQuery workspaceId))
                    (failureOf (get_notes (byIdQuery workspaceId) w).2)] ∧
      (getNoteById id workspaceId w).1 = (get_notes (byIdQuery workspaceId) w).1 ∧
      match (get_notes (byIdQuery workspaceId) w).2 with
      | ApiSuccess data _ =>
          ∃ found, (getNoteById id workspaceId w).2 = ApiSuccess found None ∧
                   FirstWith note_id id data found
      | ApiError code message =>
          (getNoteById id workspaceId w).2 = ApiError code message
      end) ∧
     (log (getTodoById id workspaceId w).1
      = log w ++ [mkExchange (GET "/todo" (byIdQuery workspaceId))
                    (failureOf (get_todos (byIdQuery workspaceId) w).2)] ∧
      (getTodoById id workspaceId w).1 = (get_todos (byIdQuery workspaceId) w).1 ∧
      match (get_todos (byIdQuery workspaceId) w).2 with
      | ApiSuccess data _ =>
          ∃ found, (getTodoById id workspaceId w).2 = ApiSuccess found None ∧
                   FirstWith todo_id id data found
      | ApiError code message =>
          (getTodoById id workspaceId w).2 = ApiError code message
      end)) ∧
  (∀ (A : Type) (idOf : A → string) id data found,
     FirstWith idOf id data found →
     (∀ x, x ∈ data → idOf x = id → NoDup (idOf <$> data) → found = Some x) ∧
     (id ∉ (idOf <$> data) → found = None)) ∧
  (∀ withMeta s id workspaceId lg,
     (∃ found,
        getGroupById id workspaceId (Model.world withMeta s lg)
        = (Model.world withMeta s
             (lg ++ [mkExchange (GET "/group" (byIdQuery workspaceId)) None]),
           ApiSuccess found None) ∧
        FirstWith group_id id
          (take 100 (Model.groupListing (byIdQuery workspaceId) s)) found) ∧
     (∃ found,
        getNoteById id workspaceId (Model.world withMeta s lg)
        = (Model.world withMeta s
             (lg ++ [mkExchange (GET "/note" (byIdQuery workspaceId)) None]),
           ApiSuccess found None) ∧
        FirstWith note_id id
          (take 100 (Model.noteListing (byIdQuery workspaceId) s)) found) ∧
     (∃ found,
        getTodoById id workspaceId (Model.world withMeta s lg)
        = (Model.world withMeta s
             (lg ++ [mkExchange (GET "/todo" (byIdQuery workspaceId)) None]),
           ApiSuccess found None) ∧
        FirstWith todo_id id
          (take 100 (Model.todoListing (byIdQuery workspaceId) s)) found)) ∧
  (mkGroup "x42" "item42" "user" "ws" None ∈ take 100 (Model.groups large) ∧
   (getGroupById "x42" (Some "ws") (Model.start false large)).2
   = ApiSuccess (Some (mkGroup "x42" "item42" "user" "ws" None)) None) ∧
  (mkGroup "x100" "item100" "user" "ws" None ∈ drop 100 (Model.groups large) ∧
   (getGroupById "x100" (Some "ws") (Model.start false large)).2 = ApiSuccess None None).
Proof.
  split_and!.
  - intros svc id workspaceId w. split_and!.
    + unfold getGroupById, listGroups.
      replace (GroupsApi.queryParams (mkListGroupsParams None (Some 100) workspaceId None None None))
        with (byIdQuery workspaceId) by by destruct workspaceId.
      unfold get_groups. rewrite byIdQuery_sent.
      pose proof (perform_log (get_group svc) (GET "/group" (byIdQuery workspaceId))
                    (byIdQuery workspaceId) w) as H.
      by destruct (perform _ _ _ w) as [w1 [data meta|code message]].
    + unfold getGroupById, listGroups.
      replace (GroupsApi.queryParams (mkListGroupsParams None (Some 100) workspaceId None None None))
        with (byIdQuery workspaceId) by by destruct workspaceId.
      by destruct (get_groups _ w) as [w1 [data meta|code message]].
    + unfold getGroupById, listGroups.
      replace (GroupsApi.queryParams (mkListGroupsParams None (Some 100) workspaceId None None None))
        with (byIdQuery workspaceId) by by destruct workspaceId.
      destruct (get_groups _ w) as [w1 [data meta|code message]]; [|done].
      eexists. split; [done|]. apply array_find_FirstWith.
    + unfold getNoteById, listNotes.
      replace (NotesApi.queryParams
                 (mkListNotesParams None (Some 100) workspaceId None None None None))
        with (byIdQuery workspaceId) by by destruct workspaceId.
      unfold get_notes. rewrite byIdQuery_sent.
      pose proof (perform_log (get_note svc) (GET "/note" (byIdQuery workspaceId))
                    (byIdQuery workspaceId) w) as H.
      by destruct (perform _ _ _ w) as [w1 [data meta|code message]].
    + unfold getNoteById, listNotes.
      replace (NotesApi.queryParams
                 (mkListNotesParams None (Some 100) workspaceId None None None None))
        with (byIdQuery workspaceId) by by destruct workspaceId.
      by destruct (get_notes _ w) as [w1 [data meta|code message]].
    + unfold getNoteById, listNotes.
      replace (NotesApi.queryParams
                 (mkListNotesParams None (Some 100) workspaceId None None None None))
        with (byIdQuery workspaceId) by by destruct workspaceId.
      destruct (get_notes _ w) as [w1 [data meta|code message]]; [|done].
      eexists. split; [done|]. apply array_find_FirstWith.
    + unfold getTodoById, listTodos.
      replace (TodosApi.queryParams
                 (mkListTodosParams None (Some 100) workspaceId None None None None None))
        with (byIdQuery workspaceId) by by destruct workspaceId.
      unfold get_todos. rewrite byIdQuery_sent.
      pose proof (perform_log (get_todo svc) (GET "/todo" (byIdQuery workspaceId))
                    (byIdQuery workspaceId) w) as H.
      by destruct (perform _ _ _ w) as [w1 [data meta|code message]].
    + unfold getTodoById, listTodos.
      replace (TodosApi.queryParams
                 (mkListTodosParams None (Some 100) workspaceId None None None None None))
        with (byIdQuery workspaceId) by by destruct workspaceId.
      by destruct (get_todos _ w) as [w1 [data meta|code message]].
    + unfold getTodoById, listTodos.
      replace (TodosApi.queryParams
                 (mkListTodosParams None (Some 100) workspaceId None None None None None))
        with (byIdQuery workspaceId) by by destruct workspaceId.
      destruct (get_todos _ w) as [w1 [data meta|code message]]; [|done].
      eexists. split; [done|]. apply array_find_FirstWith.
  - intros A idOf id data found H. split.
    + intros x. by apply FirstWith_found.
    + by apply FirstWith_missing.
  - intros withMeta s id workspaceId lg. split_and!.
    + eexists. split; [|apply array_find_FirstWith]. by destruct workspaceId.
    + eexists. split; [|apply array_find_FirstWith]. by destruct workspaceId.
    + eexists. split; [|apply array_find_FirstWith]. by destruct workspaceId.
  - apply list_elem_of_In. vm_compute. tauto.
  - vm_compute. reflexivity.
  - apply list_elem_of_In. vm_compute. tauto.
  - vm_compute. reflexivity.
Qed.

End GetByIdClaims.

(** ** [getAllGroupsInWorkspace]: the paging loop *)

Section Paging.
Import JS Remote GroupsApi Samples.

Lemma hasMore_rule page data meta :
  hasMore page 100 data meta = true ↔
  (∃ pagination, meta ≫= meta_pagination = Some pagination
                 ∧ page < pg_totalPages pagination)
  ∨ (meta ≫= meta_pagination = None ∧ Z.of_nat (length data) = 100).
Proof.
  unfold hasMore. destruct (meta ≫= meta_pagination) as [pg|].
  - rewrite Z.ltb_lt. split; [intros; left; by exists pg|].
    intros [(pg' & [= <-] & H)|[[=] _]]. done.
  - rewrite Z.eqb_eq. split; [by right|]. intros [(pg' & [=] & _)|[_ H]]. done.
Qed.

Lemma pageQuery_sent ws page :
  searchParams (queryParams (pageParams ws page)) = pageQuery ws page.
Proof. reflexivity. Qed.

Lemma pageQuery_listing ws page s :
  Model.groupListing (pageQuery ws page) s = Model.inWorkspace ws s.
Proof.
  unfold Model.groupListing, Model.inWorkspace.
  apply list_filter_iff. intros g. simpl. by rewrite andb_true_r.
Qed.

Lemma pageQuery_index ws (p : nat) : Model.pageIndex (pageQuery ws (Z.of_nat (S p))) = p.
Proof. unfold Model.pageIndex. simpl. lia. Qed.

Lemma model_page withMeta s ws (p : nat) lg :
  listGroups (pageParams ws (Z.of_nat (S p))) (Model.world withMeta s lg)
  = (Model.world withMeta s
       (lg ++ [mkExchange (GET "/group" (pageQuery ws (Z.of_nat (S p)))) None]),
     ApiSuccess (take 100 (drop (p * 100) (Model.inWorkspace ws s)))
       (if withMeta
        then Some (mkMeta (Some (mkPagination (Z.of_nat (S p)) 100
                     (Z.of_nat (length (Model.inWorkspace ws s)))
                     (Z.of_nat ((length (Model.inWorkspace ws s) + 99) / 100)))))
        else None)).
Proof.
  unfold listGroups, get_groups, perform, Model.world.
  rewrite pageQuery_sent.
  cbn [get_group Model.service srv log].
  unfold Model.pageOf. rewrite pageQuery_listing, pageQuery_index.
  change (Model.limitOf (pageQuery ws (Z.of_nat (S p)))) with 100%nat.
  unfold Model.totalPages.
  replace (length (Model.inWorkspace ws s) + 100 - 1)%nat
    with (length (Model.inWorkspace ws s) + 99)%nat by lia.
  by destruct withMeta.
Qed.

Lemma fetchPages_step {svc : Service} fuel ws page acc (w : World svc) :
  fetchPages (S fuel) ws page acc w =
  match listGroups (pageParams ws page) w with
  | (w1, ApiError code message) => (w1, Rejected message)
  | (w1, ApiSuccess data meta) =>
      if hasMore page 100 data meta
      then fetchPages fuel ws (page + 1) (acc ++ data) w1
      else (w1, Resolved (acc ++ data))
  end.
Proof.
  simpl. unfold pageParams.
  by destruct (listGroups _ w) as [w1 [data meta|code message]].
Qed.

Lemma fetchPages_model withMeta s ws : ∀ fuel p acc lg,
  (p * 100 ≤ length (Model.inWorkspace ws s))%nat →
  (length (Model.inWorkspace ws s) / 100 < p + fuel)%nat →
  fetchPages fuel ws (Z.of_nat (S p)) acc (Model.world withMeta s lg)
  = (Model.world withMeta s
       (lg ++ pageLog ws p (pagesFrom withMeta (length (Model.inWorkspace ws s)) p)),
     Resolved (acc ++ drop (p * 100) (Model.inWorkspace ws s))).
Proof.
  set (L := Model.inWorkspace ws s).
  induction fuel as [|fuel IH]; intros p acc lg Hp Hf; [lia|].
  rewrite fetchPages_step, model_page. fold L.
  assert (length (take 100 (drop (p * 100) L)) = Nat.min 100 (length L - p * 100)) as Hlen.
  { by rewrite length_take, length_drop. }
  assert (take 100 (drop (p * 100) L) ++ drop (S p * 100) L = drop (p * 100) L) as Hsplit.
  { replace (S p * 100)%nat with (p * 100 + 100)%nat by lia.
    rewrite <-drop_drop. apply take_drop. }
  replace (Z.of_nat (S p) + 1) with (Z.of_nat (S (S p))) by lia.
  destruct withMeta.
  - change (hasMore (Z.of_nat (S p)) 100 _ _)
      with (Z.of_nat (S p) <? Z.of_nat ((length L + 99) / 100)).
    destruct (Z.ltb_spec (Z.of_nat (S p)) (Z.of_nat ((length L + 99) / 100))) as [Hm|Hm].
    + rewrite IH by lia. rewrite <-!(assoc_L (++)), Hsplit. f_equal. f_equal. f_equal.
      unfold pageLog, pagesFrom.
      replace (Nat.max 1 ((length L + 99) / 100 - p))
        with (S (Nat.max 1 ((length L + 99) / 100 - S p))) by lia.
      done.
    + f_equal; [|f_equal; f_equal; apply take_ge; rewrite length_drop; lia].
      f_equal. f_equal. unfold pageLog, pagesFrom.
      replace (Nat.max 1 ((length L + 99) / 100 - p)) with 1%nat by lia. done.
  - change (hasMore (Z.of_nat (S p)) 100 (take 100 (drop (p * 100) L)) None)
      with (Z.of_nat (length (take 100 (drop (p * 100) L))) =? 100).
    rewrite Hlen.
    destruct (Z.eqb_spec (Z.of_nat (Nat.min 100 (length L - p * 100))) 100) as [Hm|Hm].
    + rewrite IH by lia. rewrite <-!(assoc_L (++)), Hsplit. f_equal. f_equal. f_equal.
      unfold pageLog, pagesFrom.
      replace (length L / 100 - p + 1)%nat with (S (length L / 100 - S p + 1)) by lia.
      done.
    + f_equal; [|f_equal; f_equal; apply take_ge; rewrite length_drop; lia].
      f_equal. f_equal. unfold pageLog, pagesFrom.
      replace (length L / 100 - p + 1)%nat with 1%nat by lia. done.
Qed.

(** C6, amended.  [getAllGroupsInWorkspace] asks for page 1 first;
    after a page it asks for the next one exactly when the answer has
    a pagination block and [page < totalPages], or has none and holds
    exactly 100 items, and otherwise returns the items of all pages in
    the order received; a failed page makes it throw.  An empty page 1
    with no pagination block, or with one that announces at most one
    page, gives the empty sequence after that one request; an empty
    page 1 whose pagination block announces more pages is followed by
    the request for page 2, and the loop goes on from there.  On a
    service that
    pages a listing of [n] items, 100 a page, it returns the whole
    listing in the order of the service, after [pagesFrom] requests:
    for 250 items, the three requests for pages 1, 2 and 3, with and
    without the pagination block. *)
Theorem getAllGroupsInWorkspace_pages :
  (∀ (svc : Service) fuel ws page acc (w : World svc),
     getAllGroupsInWorkspace (S fuel) ws w = fetchPages (S fuel) ws 1 [] w ∧
     fetchPages (S fuel) ws page acc w =
     match listGroups (pageParams ws page) w with
     | (w1, ApiError code message) => (w1, Rejected message)
     | (w1, ApiSuccess data meta) =>
         if hasMore page 100 data meta
         then fetchPages fuel ws (page + 1) (acc ++ data) w1
         else (w1, Resolved (acc ++ data))
     end) ∧
  (∀ page data meta,
     hasMore page 100 data meta = true ↔
     (∃ pagination, meta ≫= meta_pagination = Some pagination
                    ∧ page < pg_totalPages pagination)
     ∨ (meta ≫= meta_pagination = None ∧ Z.of_nat (length data) = 100)) ∧
  (∀ (svc : Service) fuel ws (w : World svc) meta,
     (listGroups (pageParams ws 1) w).2 = ApiSuccess [] meta →
     (meta ≫= meta_pagination = None
      ∨ ∃ pagination, meta ≫= meta_pagination = Some pagination
                      ∧ pg_totalPages pagination ≤ 1) →
     getAllGroupsInWorkspace (S fuel) ws w
     = ((listGroups (pageParams ws 1) w).1, Resolved [])) ∧
  (∀ (svc : Service) fuel ws (w : World svc) meta pagination,
     (listGroups (pageParams ws 1) w).2 = ApiSuccess [] meta →
     meta ≫= meta_pagination = Some pagination →
     1 < pg_totalPages pagination →
     getAllGroupsInWorkspace (S fuel) ws w
     = fetchPages fuel ws 2 [] (listGroups (pageParams ws 1) w).1) ∧
  (∀ withMeta s ws lg fuel,
     (length (Model.inWorkspace ws s) / 100 < fuel)%nat →
     getAllGroupsInWorkspace fuel ws (Model.world withMeta s lg)
     = (Model.world withMeta s
          (lg ++ pageLog ws 0 (pagesFrom withMeta (length (Model.inWorkspace ws s)) 0)),
        Resolved (Model.inWorkspace ws s))) ∧
  (∀ withMeta,
     length (Model.filler "ws" 250) = 250%nat ∧
     getAllGroupsInWorkspace 3 "ws" (Model.start withMeta large)
     = (Model.world withMeta large
          [mkExchange (GET "/group" (pageQuery "ws" 1)) None;
           mkExchange (GET "/group" (pageQuery "ws" 2)) None;
           mkExchange (GET "/group" (pageQuery "ws" 3)) None],
        Resolved (Model.filler "ws" 250))).
Proof.
  split_and!.
  - intros svc fuel ws page acc w. split; [done|apply fetchPages_step].
  - apply hasMore_rule.
  - intros svc fuel ws w meta Hresp Hmeta.
    unfold getAllGroupsInWorkspace. rewrite fetchPages_step.
    destruct (listGroups (pageParams ws 1) w) as [w1 resp]. simpl in Hresp. subst resp.
    assert (hasMore 1 100 [] meta = false) as ->; [|done].
    apply not_true_is_false. rewrite hasMore_rule.
    intros [(pg & E & Hlt)|[_ Hlen]]; [|done].
    destruct Hmeta as [Hn|(pg' & E' & Hle)]; [congruence|].
    rewrite E in E'. injection E' as <-. lia.
  - intros svc fuel ws w meta pagination Hresp Hmeta Hlt.
    unfold getAllGroupsInWorkspace. rewrite fetchPages_step.
    destruct (listGroups (pageParams ws 1) w) as [w1 resp]. simpl in Hresp. subst resp.
    assert (hasMore 1 100 [] meta = true) as ->; [|done].
    rewrite hasMore_rule. left. by exists pagination.
  - intros withMeta s ws lg fuel Hfuel. unfold getAllGroupsInWorkspace.
    change 1 with (Z.of_nat 1).
    rewrite (fetchPages_model withMeta s ws fuel 0 [] lg) by lia.
    by rewrite drop_0.
  - intros withMeta.
    assert (Model.inWorkspace "ws" large = Model.filler "ws" 250) as HL
      by (vm_compute; reflexivity).
    assert (length (Model.filler "ws" 250) = 250%nat) as Hlen
      by (unfold Model.filler; by rewrite length_map, length_seq).
    split; [done|].
    pose proof (fetchPages_model withMeta large "ws" 3 0 [] []) as H.
    rewrite HL, Hlen, drop_0 in H.
    unfold getAllGroupsInWorkspace, Model.start.
    change 1 with (Z.of_nat 1). rewrite H by lia. by destruct withMeta.
Qed.

(** C6 as stated fails: an empty page 1 does not always give the empty
    result.  When the empty page 1 carries a pagination block that
    announces two pages, the loop asks for page 2, and as that request
    fails the call throws; with one iteration less it has not settled. *)
Lemma getAllGroupsInWorkspace_empty_page_goes_on :
  (listGroups (pageParams "ws" 1) Faulty.start).2
  = ApiSuccess [] (Some (mkMeta (Some (mkPagination 1 100 0 2)))) ∧
  (getAllGroupsInWorkspace 1 "ws" Faulty.start).2 = Pending ∧
  (∀ fuel,
     getAllGroupsInWorkspace (S (S fuel)) "ws" Faulty.start
     = (mkWorld (svc := Faulty.service) tt
          [mkExchange (GET "/group" (pageQuery "ws" 1)) None;
           mkExchange (GET "/group" (pageQuery "ws" 2))
             (Some (INTERNAL_ERROR, "page unavailable"))],
        Rejected "page unavailable")).
Proof. split_and!; [reflexivity|reflexivity|intros fuel; reflexivity]. Qed.

End Paging.

(** ** Runs on sample data *)

Section Runs.
Import JS Tree Remote GroupsApi Samples.

(** The sort is stable: of two elements that compare as equal the one
    listed first stays first. *)
Example array_sort_stable :
  array_sort (λ a b : Z * string, a.1 - b.1) [(2, "x"); (1, "y"); (2, "z"); (1, "w")]
  = [(1, "y"); (1, "w"); (2, "x"); (2, "z")].
Proof. reflexivity. Qed.

(** Siblings come out by ascending name. *)
Example buildGroupTree_sorts_roots :
  fmap (M := option) (fmap (M := list) shape)
    (buildGroupTree codeUnitCompare 2 [rootB; rootA; rootC])
  = Some [ShapeNode rootA []; ShapeNode rootB []; ShapeNode rootC []].
Proof. reflexivity. Qed.

(** Listed parent first, the chain gets the documented levels and paths. *)
Example buildGroupTree_chain :
  buildGroupTree codeUnitCompare 4 [gA; gB; gC]
  = Some [TreeNode gA [TreeNode gB [TreeNode gC [] 2 ["A"; "B"]] 1 ["A"]] 0 []].
Proof. reflexivity. Qed.

(** The path of a root is its name; the path of an unknown id is empty;
    the path of [C] in the chain runs from the root. *)
Example pathIn_samples :
  pathIn 4 [gA; gB; gC] "a" = Some ["A"] ∧
  pathIn 4 [gA; gB; gC] "missing" = Some [] ∧
  pathIn 4 [gA; gB; gC] "c" = Some ["A"; "B"; "C"].
Proof. split_and!; reflexivity. Qed.

(** On an empty service [createGroupPath(["A"; "B"])] creates both
    groups, the second below the first, and a second call reuses them. *)
Example createGroupPath_creates_then_reuses :
  (createGroupPath ["A"; "B"] (Some "ws") (Model.start false empty)).2
  = ApiSuccess [mkGroup "g0" "A" "user" "ws" None;
                mkGroup "g1" "B" "user" "ws" (Some "g0")] None ∧
  (createGroupPath ["A"; "B"] (Some "ws")
     (createGroupPath ["A"; "B"] (Some "ws") (Model.start false empty)).1).2
  = ApiSuccess [mkGroup "g0" "A" "user" "ws" None;
                mkGroup "g1" "B" "user" "ws" (Some "g0")] None ∧
  Model.groups (srv (createGroupPath ["A"; "B"] (Some "ws")
     (createGroupPath ["A"; "B"] (Some "ws") (Model.start false empty)).1).1)
  = [mkGroup "g0" "A" "user" "ws" None; mkGroup "g1" "B" "user" "ws" (Some "g0")].
Proof. split_and!; reflexivity. Qed.

(** On a service that refuses a second group, [createGroupPath(["A"; "B"])]
    returns the refusal of the second [POST] as it is, after four
    requests, and the group [A] it created stays. *)
Example createGroupPath_partial_progress :
  createGroupPath ["A"; "B"] (Some "ws") (mkWorld (svc := Model.limited 1) empty [])
  = (mkWorld (svc := Model.limited 1)
       (Model.mkState [mkGroup "g0" "A" "user" "ws" None] [] [] 1)
       [mkExchange (GET "/group" [("workspaceId", QStr "ws")]) None;
        mkExchange (POST "/group" [("name", QStr "A"); ("workspaceId", QStr "ws")]) None;
        mkExchange (GET "/group" [("workspaceId", QStr "ws"); ("parentId", QStr "g0")]) None;
        mkExchange (POST "/group" [("name", QStr "B"); ("workspaceId", QStr "ws");
                                   ("parentId", QStr "g0")])
          (Some (FORBIDDEN, "Group limit reached"))],
     ApiError FORBIDDEN "Group limit reached").
Proof. reflexivity. Qed.

End Runs.

(** ** [getGroupPath]: laws of the path *)

Section PathLaws.
Import JS Tree GroupsApi Samples.

Lemma groupMapOf_None allGroups k :
  k ∉ group_id <$> allGroups → groupMapOf allGroups !! k = None.
Proof.
  intros Hk. destruct (groupMapOf allGroups !! k) as [g|] eqn:E; [|done].
  apply groupMapOf_lookup in E as [Hg <-]. destruct Hk. by apply list_elem_of_fmap_2.
Qed.

Lemma groupMapOf_NoDup allGroups g :
  NoDup (group_id <$> allGroups) → g ∈ allGroups →
  groupMapOf allGroups !! group_id g = Some g.
Proof.
  unfold groupMapOf. generalize (∅ : gmap string Group).
  induction allGroups as [|x l IH] using rev_ind; intros m Hnd Hg.
  - by apply elem_of_nil in Hg.
  - rewrite foldl_snoc. rewrite fmap_app in Hnd. apply NoDup_app in Hnd as (Hnd & Hx & _).
    apply elem_of_app in Hg as [Hg|Hg].
    + rewrite lookup_insert_ne; [by apply IH|].
      intros E. apply (Hx (group_id g)); [by apply list_elem_of_fmap_2|].
      rewrite <-E. simpl. by left.
    + apply list_elem_of_singleton in Hg as ->. by rewrite lookup_insert_eq.
Qed.

(** The names already collected stay behind the ones the walk adds. *)
Lemma walkUp_acc fuel : ∀ (m : gmap string Group) cur path,
  walkUp fuel m cur path = (λ names, names ++ path) <$> walkUp fuel m cur [].
Proof.
  induction fuel as [|fuel IH]; intros m cur path.
  - by destruct cur.
  - destruct cur as [g|]; [|done]. simpl.
    rewrite (IH m _ (group_name g :: path)), (IH m _ [group_name g]).
    destruct (walkUp fuel m _ []) as [names|]; simpl; [|done].
    by rewrite <-(assoc_L (++)).
Qed.

(** X1.  The path of an id that is not in the snapshot is empty, whatever
    the bound on the walk. *)
Theorem pathIn_missing (allGroups : list Group) (groupId : string) (fuel : nat) :
  groupId ∉ group_id <$> allGroups → pathIn fuel allGroups groupId = Some [].
Proof.
  intros H. unfold pathIn. rewrite groupMapOf_None by done. by destruct fuel.
Qed.

Lemma pathIn_missing_witness : pathIn 0 [gA; gB; gC] "missing" = Some [].
Proof.
  apply (pathIn_missing [gA; gB; gC] "missing" 0).
  intros H. apply list_elem_of_In in H. simpl in H. intuition discriminate.
Defined.

(** X2.  The path of a group is the path of its parent followed by its own
    name, and its own name alone when it has no parent in the
    snapshot. *)
Theorem pathIn_parent_then_self (allGroups : list Group) (g : Group) :
  NoDup (group_id <$> allGroups) → g ∈ allGroups →
  (parentIn (groupMapOf allGroups) g = None →
   ∀ fuel, pathIn (S fuel) allGroups (group_id g) = Some [group_name g]) ∧
  (∀ p fuel parentPath,
     parentIn (groupMapOf allGroups) g = Some p →
     pathIn fuel allGroups (group_id p) = Some parentPath →
     pathIn (S fuel) allGroups (group_id g) = Some (parentPath ++ [group_name g])).
Proof.
  intros Hnd Hg. unfold pathIn. rewrite (groupMapOf_NoDup _ _ Hnd Hg). split.
  - intros Hp fuel. simpl. fold (parentIn (groupMapOf allGroups) g). rewrite Hp.
    by destruct fuel.
  - intros p fuel parentPath Hp Hpath. simpl.
    fold (parentIn (groupMapOf allGroups) g). rewrite Hp.
    assert (groupMapOf allGroups !! group_id p = Some p) as Hmp.
    { unfold parentIn in Hp. destruct (truthy _); [|done].
      pose proof (groupMapOf_lookup _ _ _ Hp) as [_ Hid]. by rewrite Hid. }
    rewrite Hmp in Hpath. rewrite walkUp_acc, Hpath. done.
Qed.

Lemma pathIn_parent_then_self_witness :
  (parentIn (groupMapOf [gA; gB; gC]) gB = None →
   ∀ fuel, pathIn (S fuel) [gA; gB; gC] (group_id gB) = Some [group_name gB]) ∧
  (∀ p fuel parentPath,
     parentIn (groupMapOf [gA; gB; gC]) gB = Some p →
     pathIn fuel [gA; gB; gC] (group_id p) = Some parentPath →
     pathIn (S fuel) [gA; gB; gC] (group_id gB) = Some (parentPath ++ [group_name gB])).
Proof.
  apply (pathIn_parent_then_self [gA; gB; gC] gB).
  - by apply (bool_decide_unpack _).
  - apply list_elem_of_In. simpl. tauto.
Defined.

End PathLaws.

(** ** [buildGroupTree]: the forest of an input with distinct ids *)

Section ForestLaws.
Import JS Tree TreeSpec Samples.

Lemma array_find_elem {A} (p : A → bool) l x :
  x ∈ l → p x → ∃ y, array_find p l = Some y ∧ y ∈ l ∧ p y.
Proof.
  induction l as [|z l IH]; intros Hx Hp; [by apply elem_of_nil in Hx|].
  simpl. destruct (p z) eqn:E.
  - exists z. split; [done|]. split; [left|by rewrite E].
  - apply elem_of_cons in Hx as [->|Hx]; [by rewrite E in Hp|].
    destruct (IH Hx Hp) as (y & ? & ? & ?). exists y. split; [done|]. split; [by right|done].
Qed.

Lemma StronglySorted_fmap_inv {X Y} (R : Y → Y → Prop) (R' : X → X → Prop) (f : X → Y) l :
  (∀ x y, x ∈ l → y ∈ l → R (f x) (f y) → R' x y) →
  StronglySorted R (f <$> l) → StronglySorted R' l.
Proof.
  induction l as [|x l IH]; intros HR Hs; [constructor|].
  simpl in Hs. apply StronglySorted_inv in Hs as [Hs Hx].
  constructor.
  - apply IH; [|done]. intros a b Ha Hb. apply HR; by right.
  - apply Forall_forall. intros y Hy. apply HR; [left|by right|].
    rewrite Forall_forall in Hx. apply Hx. by apply list_elem_of_fmap_2.
Qed.

Lemma levelOf_alter_same (f : NodeObj → NodeObj) j (m : Store) i :
  (∀ n, node_level (f n) = node_level n) → levelOf (alter f j m) i = levelOf m i.
Proof.
  intros Hf. unfold levelOf. destruct (decide (j = i)) as [->|Hne].
  - rewrite lookup_alter_eq. destruct (m !! i); simpl; [apply Hf|done].
  - by rewrite lookup_alter_ne.
Qed.

Lemma pathOf_alter_same (f : NodeObj → NodeObj) j (m : Store) i :
  (∀ n, node_path (f n) = node_path n) → pathOf (alter f j m) i = pathOf m i.
Proof.
  intros Hf. unfold pathOf. destruct (decide (j = i)) as [->|Hne].
  - rewrite lookup_alter_eq. destruct (m !! i); simpl; [apply Hf|done].
  - by rewrite lookup_alter_ne.
Qed.

Lemma levelOf_alter_ne (f : NodeObj → NodeObj) j (m : Store) i :
  i ≠ j → levelOf (alter f j m) i = levelOf m i.
Proof. intros Hne. unfold levelOf. by rewrite lookup_alter_ne. Qed.

Lemma pathOf_alter_ne (f : NodeObj → NodeObj) j (m : Store) i :
  i ≠ j → pathOf (alter f j m) i = pathOf m i.
Proof. intros Hne. unfold pathOf. by rewrite lookup_alter_ne. Qed.

(** One step of the second pass writes [level] and [path] of its own
    node only. *)
Lemma link_other st g i :
  i ≠ group_id g →
  levelOf (link st g).1 i = levelOf st.1 i ∧ pathOf (link st g).1 i = pathOf st.1 i.
Proof.
  intros Hne. destruct st as [m roots]. unfold link.
  destruct (truthy (group_parentId g)); [|done].
  destruct (m !! default "" (group_parentId g)); [|done]. simpl. split.
  - rewrite levelOf_alter_same by done. rewrite levelOf_alter_ne by done.
    by rewrite levelOf_alter_same.
  - rewrite pathOf_alter_ne by done. rewrite pathOf_alter_same by done.
    by rewrite pathOf_alter_same.
Qed.

Lemma links_other l : ∀ st i,
  i ∉ group_id <$> l →
  levelOf (foldl link st l).1 i = levelOf st.1 i ∧ pathOf (foldl link st l).1 i = pathOf st.1 i.
Proof.
  induction l as [|g l IH]; intros st i Hi; [done|].
  simpl. rewrite fmap_cons in Hi. apply not_elem_of_cons in Hi as [Hne Hi].
  destruct (IH (link st g) i Hi) as [-> ->]. by apply link_other.
Qed.

(** A step on a group without [parentId], or whose parent has no node,
    leaves the store as it is. *)
Lemma link_root st g : isRoot g → (link st g).1 = st.1.
Proof.
  intros Hr. destruct st as [m roots]. unfold link, isRoot in *.
  by destruct (truthy (group_parentId g)).
Qed.

(** A step on a group whose parent has a node sets [level] and [path]
    from what the parent's node holds at that moment. *)
Lemma link_child st g p n :
  childOf p g → p ≠ group_id g → st.1 !! p = Some n → is_Some (st.1 !! group_id g) →
  levelOf (link st g).1 (group_id g) = S (node_level n) ∧
  pathOf (link st g).1 (group_id g) = node_path n ++ [group_name (node_group n)].
Proof.
  intros Hc Hne Hp [ng Hg]. apply childOf_spec in Hc as [Ht Hpar].
  destruct st as [m roots]. simpl in *. unfold link.
  apply Is_true_true in Ht. rewrite Ht, Hpar. cbn [default from_option id]. rewrite Hp. simpl.
  rewrite lookup_alter_ne by done. rewrite !lookup_alter_eq, Hp. simpl. split.
  - rewrite levelOf_alter_same by done. unfold levelOf.
    rewrite lookup_alter_eq, lookup_alter_ne, Hg by done. done.
  - unfold pathOf. rewrite lookup_alter_eq, lookup_alter_eq, lookup_alter_ne, Hg by done. done.
Qed.

Section Input.
Variable localeCompare : string → string → Z.
Hypothesis HC : JS.Consistent localeCompare.
Variable gs : list Group.
Hypothesis Hnd : NoDup (group_id <$> gs).

Abbreviation B := (linked gs).1.
Abbreviation SB := (sortAll localeCompare (linked gs).1).

Lemma byId_elem g : g ∈ gs → byId gs (group_id g) = Some g.
Proof.
  intros Hg. unfold byId.
  destruct (array_find_elem (λ g0, String.eqb (group_id g0) (group_id g)) gs g Hg)
    as (y & -> & Hy & Hp).
  { by rewrite String.eqb_refl. }
  f_equal. apply (group_by_id gs Hnd); [done..|].
  apply Is_true_true in Hp. by apply String.eqb_eq in Hp.
Qed.

Lemma omap_byId l : Forall (λ g, g ∈ gs) l → omap (byId gs) (group_id <$> l) = l.
Proof.
  induction 1 as [|g l Hg Hl IH]; [done|].
  rewrite fmap_cons. cbn [omap list_omap]. fold (omap (byId gs) (group_id <$> l)).
  rewrite (byId_elem g Hg). simpl. by rewrite IH.
Qed.

Lemma perm_by_id l1 l2 :
  Forall (λ g, g ∈ gs) l1 → Forall (λ g, g ∈ gs) l2 →
  group_id <$> l1 ≡ₚ group_id <$> l2 → l1 ≡ₚ l2.
Proof.
  intros H1 H2 Hp. rewrite <-(omap_byId l1 H1), <-(omap_byId l2 H2). by rewrite Hp.
Qed.

Abbreviation ReadsTree := (TreeSpec.ReadsTree localeCompare gs).

Lemma read_list (P : Group → bool) f cs :
  ReadsTree f →
  mapM (readNode f SB) (sortNodes localeCompare B (group_id <$> filter P gs)) = Some cs →
  treeGroup <$> cs ≡ₚ filter P gs ∧
  StronglySorted (byName localeCompare) (treeGroup <$> cs) ∧
  Forall (TreeOf localeCompare gs) cs.
Proof.
  intros IH Hm. apply mapM_Some in Hm.
  assert (Hin : ∀ c, c ∈ sortNodes localeCompare B (group_id <$> filter P gs) →
                     c ∈ group_id <$> gs).
  { intros c Hc. apply elem_of_sortNodes in Hc.
    apply list_elem_of_fmap in Hc as (g & -> & Hg). apply list_elem_of_fmap_2.
    by apply list_elem_of_filter in Hg as [_ Hg]. }
  assert (Hall : group_id <$> (treeGroup <$> cs)
                 = sortNodes localeCompare B (group_id <$> filter P gs)
               ∧ Forall (λ g, g ∈ gs) (treeGroup <$> cs)
               ∧ Forall (TreeOf localeCompare gs) cs).
  { revert Hin Hm. generalize (sortNodes localeCompare B (group_id <$> filter P gs)).
    intros ids Hin Hm. induction Hm as [|c t ids cs Hc Hm IHm]; [done|].
    destruct IHm as (E & F1 & F2); [intros; apply Hin; by right|].
    destruct (IH c t) as (g & Hg & -> & Hgt & Ht); [apply Hin; left|done|].
    rewrite !fmap_cons, Hgt, E. repeat split; [by constructor|by constructor]. }
  destruct Hall as (E & F1 & F2).
  split; [|split; [|done]].
  - apply perm_by_id; [done| |].
    + apply Forall_forall. intros g Hg. by apply list_elem_of_filter in Hg as [_ Hg].
    + rewrite E. apply array_sort_Permutation.
  - pose proof (array_sort_Sorted (λ a b, localeCompare (nodeName B a) (nodeName B b))
                  (group_id <$> filter P gs) (Consistent_names localeCompare HC B)) as Hs.
    fold (sortNodes localeCompare B (group_id <$> filter P gs)) in Hs. rewrite <-E in Hs.
    eapply StronglySorted_fmap_inv; [|exact Hs].
    intros x y Hx Hy. rewrite Forall_forall in F1.
    unfold notAfter, byName.
    by rewrite !(linked_nodeName gs Hnd) by by apply F1.
Qed.

Lemma readNode_TreeOf f : ReadsTree f.
Proof.
  induction f as [|f IH]; intros r t Hr Hread; [done|].
  simpl in Hread.
  apply list_elem_of_fmap in Hr as (g & -> & Hg).
  destruct (SB !! group_id g) as [n|] eqn:En; [|done]. simpl in Hread.
  destruct (mapM (readNode f SB) (node_children n)) as [cs|] eqn:Em; [|done].
  simpl in Hread. injection Hread as <-.
  assert (Hgn : node_group n = g).
  { pose proof (groupOf_sortAll localeCompare B (group_id g)) as H.
    rewrite (linked_groupOf gs Hnd g Hg) in H. unfold groupOf in H. rewrite En in H.
    simpl in H. congruence. }
  assert (Hcn : node_children n
                = sortNodes localeCompare B (group_id <$> filter (childOf (group_id g)) gs)).
  { pose proof (childrenOf_sortAll localeCompare B (group_id g)) as H.
    rewrite (linked_children gs Hnd) in H by by apply list_elem_of_fmap_2.
    unfold childrenOf at 1 in H. by rewrite En in H. }
  rewrite Hcn in Em. apply read_list in Em as (Hp & Hs & Hf); [|done].
  exists g. rewrite Hgn. split; [done|]. split; [done|]. split; [done|]. by constructor.
Qed.

Lemma forest_of_input (fuel : nat) :
  (length gs < fuel)%nat →
  ∃ forest,
    buildGroupTree localeCompare fuel gs = Some forest ∧
    treeGroup <$> forest ≡ₚ filter isRoot gs ∧
    StronglySorted (byName localeCompare) (treeGroup <$> forest) ∧
    Forall (TreeOf localeCompare gs) forest.
Proof.
  intros Hfuel.
  destruct (buildGroupTree_linked localeCompare HC gs fuel Hnd Hfuel) as (forest & Hb & Hm).
  exists forest. split; [done|].
  rewrite (linked_roots gs) in Hm.
  eapply read_list; [apply readNode_TreeOf|done].
Qed.

(** X3.  The forest [buildGroupTree] returns for an input with distinct
    ids: its roots are exactly the groups without [parentId], the
    subtrees of each node are exactly the groups naming it as parent,
    and every array of siblings is in ascending order of name. *)
Theorem buildGroupTree_forest (fuel : nat) :
  (length gs < fuel)%nat →
  ∃ forest,
    buildGroupTree localeCompare fuel gs = Some forest ∧
    treeGroup <$> forest ≡ₚ filter isRoot gs ∧
    StronglySorted (byName localeCompare) (treeGroup <$> forest) ∧
    Forall (TreeOf localeCompare gs) forest.
Proof. apply forest_of_input. Qed.

Section Ordered.
Hypothesis Hpf : ParentFirst gs.

Lemma split_ids pre g post :
  gs = pre ++ g :: post →
  (group_id g ∉ (group_id <$> pre)) ∧ (group_id g ∉ (group_id <$> post)) ∧
  ∀ p, p ∈ pre → (group_id p ∉ (group_id <$> post)) ∧ group_id p ≠ group_id g.
Proof.
  intros E. pose proof Hnd as H. rewrite E, fmap_app, fmap_cons in H.
  apply NoDup_app in H as (H1 & H2 & H3). apply NoDup_cons in H3 as [H3 H4].
  split; [|split].
  - intros Hin. apply (H2 _ Hin). left.
  - done.
  - intros p Hp. split.
    + intros Hin. apply (H2 (group_id p)); [by apply list_elem_of_fmap_2|by right].
    + intros Heq. apply (H2 (group_id p)); [by apply list_elem_of_fmap_2|]. rewrite Heq. left.
Qed.

Lemma created_level i :
  levelOf (foldl createNode ∅ gs) i = 0%nat ∧ pathOf (foldl createNode ∅ gs) i = [].
Proof.
  unfold levelOf, pathOf.
  destruct (foldl createNode ∅ gs !! i) as [n|] eqn:E; [|done].
  assert (Hi : i ∈ group_id <$> gs).
  { destruct (proj1 (createNodes_dom gs ∅ i)) as [[? H]|H]; [by eexists| |done].
    by rewrite lookup_empty in H. }
  apply list_elem_of_fmap in Hi as (g & -> & Hg).
  rewrite (createNodes_lookup gs ∅ g Hnd Hg) in E. by injection E as <-.
Qed.

Lemma linked_root_level g :
  g ∈ gs → isRoot g → levelOf B (group_id g) = 0%nat ∧ pathOf B (group_id g) = [].
Proof.
  intros Hg Hr. apply list_elem_of_split in Hg as (pre & post & E).
  destruct (split_ids pre g post E) as (Hpre & Hpost & _).
  unfold linked. rewrite E at 2 4. rewrite !foldl_app. simpl.
  destruct (links_other post
     (link (foldl link (foldl createNode ∅ gs, []) pre) g) (group_id g) Hpost) as [-> ->].
  rewrite link_root by done.
  destruct (links_other pre (foldl createNode ∅ gs, []) (group_id g) Hpre) as [-> ->].
  apply created_level.
Qed.

Lemma linked_child_level g p :
  g ∈ gs → p ∈ gs → childOf (group_id p) g →
  levelOf B (group_id g) = S (levelOf B (group_id p)) ∧
  pathOf B (group_id g) = pathOf B (group_id p) ++ [group_name p].
Proof.
  intros Hg Hp Hc. apply list_elem_of_split in Hg as (pre & post & E).
  pose proof (Hpf pre g post p E Hp Hc) as Hpre.
  destruct (split_ids pre g post E) as (Hgpre & Hgpost & Hrest).
  destruct (Hrest p Hpre) as [Hppost Hpg].
  unfold linked. rewrite E at 2 4 6 8. rewrite !foldl_app. simpl.
  set (st := foldl link (foldl createNode ∅ gs, []) pre).
  destruct (links_other post (link st g) (group_id g) Hgpost) as [-> ->].
  destruct (links_other post (link st g) (group_id p) Hppost) as [-> ->].
  destruct (link_other st g (group_id p) Hpg) as [-> ->].
  assert (Hdom : ∀ i, i ∈ group_id <$> gs → ∃ n, st.1 !! i = Some n ∧
                        groupOf st.1 i = groupOf (foldl createNode ∅ gs) i).
  { intros i Hi.
    pose proof (proj1 (links_spec pre (foldl createNode ∅ gs, [])) i) as Hgo.
    fold st in Hgo. simpl in Hgo.
    assert (is_Some (st.1 !! i)) as [n Hn].
    { apply is_Some_groupOf. rewrite Hgo. apply is_Some_groupOf.
      apply createNodes_dom. by right. }
    by exists n. }
  destruct (Hdom (group_id p)) as (n & Hn & Hgo); [by apply list_elem_of_fmap_2|].
  destruct (Hdom (group_id g)) as (ng & Hng & _).
  { apply list_elem_of_fmap_2. rewrite E. apply elem_of_app. right. left. }
  destruct (link_child st g (group_id p) n Hc Hpg Hn) as [-> ->]; [by eexists|].
  assert (node_group n = p) as ->.
  { unfold groupOf in Hgo. rewrite Hn, (createNodes_lookup gs ∅ p Hnd Hp) in Hgo.
    simpl in Hgo. congruence. }
  unfold levelOf, pathOf. by rewrite Hn.
Qed.

Lemma levelOf_sortAll i : levelOf SB i = levelOf B i ∧ pathOf SB i = pathOf B i.
Proof.
  unfold levelOf, pathOf, sortAll. rewrite lookup_fmap. by destruct (B !! i).
Qed.

Lemma readNode_Levelled f : ∀ r t,
  r ∈ group_id <$> gs → readNode f SB r = Some t →
  Levelled (levelOf B r) (pathOf B r) t.
Proof.
  induction f as [|f IH]; intros r t Hr Hread; [done|].
  simpl in Hread.
  apply list_elem_of_fmap in Hr as (g & -> & Hg).
  destruct (levelOf_sortAll (group_id g)) as [Hlv Hpa].
  unfold levelOf at 1 in Hlv. unfold pathOf at 1 in Hpa.
  destruct (SB !! group_id g) as [n|] eqn:En; [|done]. simpl in *.
  destruct (mapM (readNode f SB) (node_children n)) as [cs|] eqn:Em; [|done].
  simpl in Hread. injection Hread as <-.
  assert (Hgn : node_group n = g).
  { pose proof (groupOf_sortAll localeCompare B (group_id g)) as H.
    rewrite (linked_groupOf gs Hnd g Hg) in H. unfold groupOf in H. rewrite En in H.
    simpl in H. congruence. }
  assert (Hcn : node_children n
                = sortNodes localeCompare B (group_id <$> filter (childOf (group_id g)) gs)).
  { pose proof (childrenOf_sortAll localeCompare B (group_id g)) as H.
    rewrite (linked_children gs Hnd) in H by by apply list_elem_of_fmap_2.
    unfold childrenOf at 1 in H. by rewrite En in H. }
  rewrite Hgn, Hlv, Hpa. constructor.
  apply mapM_Some in Em. rewrite Hcn in Em.
  assert (Hin : ∀ c, c ∈ sortNodes localeCompare B
                           (group_id <$> filter (childOf (group_id g)) gs) →
                     ∃ gc, gc ∈ gs ∧ c = group_id gc ∧ childOf (group_id g) gc).
  { intros c Hc. apply elem_of_sortNodes in Hc.
    apply list_elem_of_fmap in Hc as (gc & -> & Hgc).
    apply list_elem_of_filter in Hgc as [? ?]. by exists gc. }
  revert Hin Em.
  generalize (sortNodes localeCompare B (group_id <$> filter (childOf (group_id g)) gs)).
  intros ids Hin Em. induction Em as [|c t ids cs Hc Em IHm]; [constructor|].
  constructor.
  - destruct (Hin c) as (gc & Hgc & -> & Hch); [left|].
    destruct (linked_child_level gc g Hgc Hg Hch) as [<- <-].
    apply IH; [by apply list_elem_of_fmap_2|done].
  - apply IHm. intros; apply Hin; by right.
Qed.

(** X4.  When every group is listed after its parent, every node of the
    forest carries its depth as [level] and the names of its
    ancestors, root first, as [path]. *)
Theorem buildGroupTree_levels (fuel : nat) :
  (length gs < fuel)%nat →
  ∃ forest,
    buildGroupTree localeCompare fuel gs = Some forest ∧
    Forall (Levelled 0 []) forest.
Proof.
  intros Hfuel.
  destruct (buildGroupTree_linked localeCompare HC gs fuel Hnd Hfuel) as (forest & Hb & Hm).
  exists forest. split; [done|]. clear Hb.
  rewrite (linked_roots gs) in Hm. apply mapM_Some in Hm.
  assert (Hin : ∀ c, c ∈ sortNodes localeCompare B (group_id <$> filter isRoot gs) →
                     ∃ g, g ∈ gs ∧ c = group_id g ∧ isRoot g).
  { intros c Hc. apply elem_of_sortNodes in Hc.
    apply list_elem_of_fmap in Hc as (g & -> & Hg).
    apply list_elem_of_filter in Hg as [? ?]. by exists g. }
  revert Hin Hm.
  generalize (sortNodes localeCompare B (group_id <$> filter isRoot gs)).
  intros ids Hin Hm. induction Hm as [|c t ids cs Hc Hm IHm]; [constructor|].
  constructor.
  - destruct (Hin c) as (g & Hg & -> & Hr); [left|].
    destruct (linked_root_level g Hg Hr) as [<- <-].
    apply readNode_Levelled with (f := fuel); [by apply list_elem_of_fmap_2|done].
  - apply IHm. intros; apply Hin; by right.
Qed.

End Ordered.
End Input.

Lemma buildGroupTree_forest_witness :
  ∃ forest,
    buildGroupTree codeUnitCompare 5 [gC; gB; gA; orphan] = Some forest ∧
    treeGroup <$> forest ≡ₚ filter isRoot [gC; gB; gA; orphan] ∧
    StronglySorted (byName codeUnitCompare) (treeGroup <$> forest) ∧
    Forall (TreeOf codeUnitCompare [gC; gB; gA; orphan]) forest.
Proof.
  apply (buildGroupTree_forest codeUnitCompare codeUnitCompare_Consistent
           [gC; gB; gA; orphan]).
  - by apply (bool_decide_unpack _).
  - simpl. lia.
Defined.

Lemma samples_parent_first : ParentFirst [gA; gB; gC].
Proof.
  intros pre g post p E Hp Hc.
  destruct pre as [|x1 [|x2 [|x3 [|x4 pre]]]]; simplify_eq/=;
    list_cases Hp; vm_compute in Hc; try done; set_solver.
Qed.

Lemma buildGroupTree_levels_witness :
  ∃ forest,
    buildGroupTree codeUnitCompare 4 [gA; gB; gC] = Some forest ∧
    Forall (Levelled 0 []) forest.
Proof.
  apply (buildGroupTree_levels codeUnitCompare codeUnitCompare_Consistent [gA; gB; gC]).
  - by apply (bool_decide_unpack _).
  - exact samples_parent_first.
  - simpl. lia.
Defined.

End ForestLaws.

(** ** The four paging loops: what they request and how they end *)

Section PagedRuns.
Import JS Remote Backend Paged.

Section Generic.
Context {svc : Service} {T : Type}.
Variable listPage : Z → World svc → World svc * ApiResponse (list T).
Variable limit : Z.
Variable req : Z → Request.
Hypothesis listPage_log : ∀ page w,
  log (listPage page w).1
  = log w ++ [mkExchange (req page) (failureOf (listPage page w).2)].

Lemma pageRequests_S p k :
  pageRequests req p (S k) = req (Z.of_nat (S p)) :: pageRequests req (S p) k.
Proof. done. Qed.

Lemma pagedLoop_run : ∀ fuel p acc w,
  PagedRun req p fuel (log w)
    (log (pagedLoop listPage limit fuel (Z.of_nat (S p)) acc w).1)
    (pagedLoop listPage limit fuel (Z.of_nat (S p)) acc w).2.
Proof.
  induction fuel as [|fuel IH]; intros p acc w.
  - exists []. simpl. rewrite app_nil_r. split_and!; [done|lia|done|done|constructor].
  - cbn [pagedLoop]. pose proof (listPage_log (Z.of_nat (S p)) w) as Hlog.
    destruct (listPage (Z.of_nat (S p)) w) as [w1 [data meta|code message]];
      cbn [fst snd failureOf] in Hlog.
    + destruct (hasMore _ _ _ _).
      * replace (Z.of_nat (S p) + 1) with (Z.of_nat (S (S p))) by lia.
        destruct (IH (S p) (acc ++ data) w1) as (entries & Hafter & Hlen & Hreq & Hout).
        exists (mkExchange (req (Z.of_nat (S p))) None :: entries).
        split_and!.
        -- rewrite Hafter, Hlog, <-(assoc_L (++)). done.
        -- simpl. lia.
        -- rewrite fmap_cons. cbn [length]. rewrite pageRequests_S. by rewrite Hreq.
        -- destruct (pagedLoop _ _ _ _ _ _).2 as [v|m|].
           ++ destruct Hout as [_ Hall]. split; [done|]. by constructor.
           ++ destruct Hout as (pre & e & c & -> & Hpre & He).
              exists (mkExchange (req (Z.of_nat (S p))) None :: pre), e, c.
              split_and!; [done|by constructor|done].
           ++ destruct Hout as [Hl Hall]. split; [simpl; lia|by constructor].
      * exists [mkExchange (req (Z.of_nat (S p))) None]. cbn [fst snd].
        split_and!; [done|simpl; lia|done|done|by repeat constructor].
    + exists [mkExchange (req (Z.of_nat (S p))) (Some (code, message))]. cbn [fst snd].
      split_and!; [done|simpl; lia|done|].
      exists [], (mkExchange (req (Z.of_nat (S p))) (Some (code, message))), code.
      split_and!; [done|constructor|done].
Qed.

End Generic.

Context {svc : Service} (ep : Endpoints svc).

Lemma groups_pagedLoop fuel ws : ∀ page acc (w : World svc),
  GroupsApi.fetchPages fuel ws page acc w
  = pagedLoop (λ p, GroupsApi.listGroups (GroupsApi.pageParams ws p)) 100 fuel page acc w.
Proof.
  induction fuel as [|fuel IH]; intros page acc w; [done|].
  rewrite fetchPages_step. cbn [pagedLoop].
  destruct (GroupsApi.listGroups _ w) as [w1 [data meta|code message]]; [|done].
  change (GroupsApi.hasMore page 100 data meta) with (hasMore page 100 data meta).
  destruct (hasMore page 100 data meta); [apply IH|done].
Qed.

Lemma notes_pagedLoop fuel ws del : ∀ page acc (w : World svc),
  NotesApiExt.fetchPages fuel ws del page acc w
  = pagedLoop (λ p, NotesApi.listNotes
                      (NotesApi.mkListNotesParams (Some p) (Some 100) (Some ws) None
                         (Some del) None (Some "updatedAt:desc"))) 100 fuel page acc w.
Proof.
  induction fuel as [|fuel IH]; intros page acc w; [done|].
  cbn [NotesApiExt.fetchPages pagedLoop].
  destruct (NotesApi.listNotes _ w) as [w1 [data meta|code message]]; [|done].
  destruct (hasMore page 100 data meta); [apply IH|done].
Qed.

Lemma todos_pagedLoop fuel ws del com : ∀ page acc (w : World svc),
  TodosApiExt.fetchPages fuel ws del com page acc w
  = pagedLoop (λ p, TodosApi.listTodos (TodosApiExt.allTodosParams ws del com p))
      100 fuel page acc w.
Proof.
  induction fuel as [|fuel IH]; intros page acc w; [done|].
  cbn [TodosApiExt.fetchPages pagedLoop].
  destruct (TodosApi.listTodos _ w) as [w1 [data meta|code message]]; [|done].
  destruct (hasMore page 100 data meta); [apply IH|done].
Qed.

Lemma workspaces_pagedLoop fuel : ∀ page acc (w : World svc),
  WorkspacesApi.fetchPages ep fuel page acc w
  = pagedLoop (λ p, WorkspacesApi.listWorkspaces ep
                      (WorkspacesApi.mkListWorkspacesParams (Some p) (Some 10)))
      10 fuel page acc w.
Proof.
  induction fuel as [|fuel IH]; intros page acc w; [done|].
  cbn [WorkspacesApi.fetchPages pagedLoop].
  destruct (WorkspacesApi.listWorkspaces _ _ w) as [w1 [data meta|code message]]; [|done].
  destruct (hasMore page 10 data meta); [apply IH|done].
Qed.

Lemma getAllWorkspaces_run fuel (w : World svc) :
  PagedRun (λ page, GET "/workspace" (workspacesPageQuery page)) 0 fuel (log w)
    (log (WorkspacesApi.getAllWorkspaces ep fuel w).1)
    (WorkspacesApi.getAllWorkspaces ep fuel w).2.
Proof.
  unfold WorkspacesApi.getAllWorkspaces. rewrite workspaces_pagedLoop.
  change 1 with (Z.of_nat 1). apply pagedLoop_run.
  intros page w0. apply perform_log.
Qed.

(** X6.  Each of the four paging loops asks for pages 1, 2, ... in order
    and for nothing else, stops at the first page answered with a
    failure and throws that failure's message, and returns only after
    a last page answered with a success. *)
Theorem getAll_paged_run (fuel : nat) (w : World svc) :
  (∀ ws,
     PagedRun (λ page, GET "/group" (GroupsApi.pageQuery ws page)) 0 fuel (log w)
       (log (GroupsApi.getAllGroupsInWorkspace fuel ws w).1)
       (GroupsApi.getAllGroupsInWorkspace fuel ws w).2) ∧
  (∀ ws includeDeleted,
     PagedRun (λ page, GET "/note" (notesPageQuery ws includeDeleted page)) 0 fuel (log w)
       (log (NotesApiExt.getAllNotesInWorkspace fuel ws includeDeleted w).1)
       (NotesApiExt.getAllNotesInWorkspace fuel ws includeDeleted w).2) ∧
  (∀ ws includeDeleted includeCompleted,
     PagedRun (λ page, GET "/todo" (todosPageQuery ws includeDeleted includeCompleted page))
       0 fuel (log w)
       (log (TodosApiExt.getAllTodosInWorkspace fuel ws includeDeleted includeCompleted w).1)
       (TodosApiExt.getAllTodosInWorkspace fuel ws includeDeleted includeCompleted w).2) ∧
  PagedRun (λ page, GET "/workspace" (workspacesPageQuery page)) 0 fuel (log w)
    (log (WorkspacesApi.getAllWorkspaces ep fuel w).1)
    (WorkspacesApi.getAllWorkspaces ep fuel w).2.
Proof.
  split_and!.
  - intros ws. unfold GroupsApi.getAllGroupsInWorkspace. rewrite groups_pagedLoop.
    change 1 with (Z.of_nat 1). apply pagedLoop_run.
    intros page w0. apply perform_log.
  - intros ws del. unfold NotesApiExt.getAllNotesInWorkspace. rewrite notes_pagedLoop.
    change 1 with (Z.of_nat 1). apply pagedLoop_run.
    intros page w0. apply perform_log.
  - intros ws del com. unfold TodosApiExt.getAllTodosInWorkspace. rewrite todos_pagedLoop.
    change 1 with (Z.of_nat 1). apply pagedLoop_run.
    intros page w0. unfold TodosApi.listTodos, get_todos.
    destruct com; apply perform_log.
  - apply getAllWorkspaces_run.
Qed.

End PagedRuns.

(** ** [getRootGroups], [getChildGroups] and [getGroupTree] *)

Section GroupListings.
Import JS Remote Tree TreeSpec GroupsApi GroupsApiExt Samples.

(** X7.  [getRootGroups] sends no [parentId]: the [null] it puts in the
    query is dropped by [request], so the service receives the request
    of an unfiltered listing sorted by name.  On a service that filters
    by [parentId] when it is given, the answer holds the nested groups
    too, while [getChildGroups] is filtered. *)
Theorem getRootGroups_unfiltered :
  (∀ (svc : Service) workspaceId (w : World svc),
     getRootGroups workspaceId w
     = listGroups (mkListGroupsParams None None workspaceId None None (Some "name:asc")) w) ∧
  (getRootGroups (Some "ws") (Model.start false nested)).2
  = ApiSuccess [mkGroup "x" "X" "u" "ws" None; nestedA] None ∧
  (getChildGroups "x" (Some "ws") (Model.start false nested)).2
  = ApiSuccess [nestedA] None.
Proof.
  split_and!.
  - intros svc [ws|] w; reflexivity.
  - reflexivity.
  - reflexivity.
Qed.

(** X8.  [getGroupTree] is [buildGroupTree] on what the paging loop
    returns: when the loop resolves to groups of distinct ids, the
    result is the forest of these groups (roots without [parentId],
    each node above exactly the groups naming it as parent, siblings
    in ascending order of name), and no request is made besides the
    loop's. *)
Theorem getGroupTree_resolves {svc : Service} (localeCompare : string → string → Z)
    (fuel : nat) (workspaceId : string) (w w1 : World svc) (allGroups : list Group) :
  Consistent localeCompare →
  getAllGroupsInWorkspace fuel workspaceId w = (w1, Resolved allGroups) →
  NoDup (group_id <$> allGroups) →
  (length allGroups < fuel)%nat →
  ∃ forest,
    getGroupTree localeCompare fuel workspaceId w = (w1, Resolved forest) ∧
    treeGroup <$> forest ≡ₚ filter isRoot allGroups ∧
    StronglySorted (byName localeCompare) (treeGroup <$> forest) ∧
    Forall (TreeOf localeCompare allGroups) forest.
Proof.
  intros HC Hall Hnd Hfuel.
  destruct (forest_of_input localeCompare HC allGroups Hnd fuel Hfuel)
    as (forest & Hb & Hrest).
  exists forest. split; [|done].
  unfold getGroupTree. by rewrite Hall, Hb.
Qed.

Lemma getGroupTree_resolves_witness :
  ∃ forest,
    getGroupTree codeUnitCompare 3 "ws" (Model.start false nested)
    = (Model.world false nested [mkExchange (GET "/group" (pageQuery "ws" 1)) None],
       Resolved forest) ∧
    treeGroup <$> forest ≡ₚ filter isRoot [mkGroup "x" "X" "u" "ws" None; nestedA] ∧
    StronglySorted (byName codeUnitCompare) (treeGroup <$> forest) ∧
    Forall (TreeOf codeUnitCompare [mkGroup "x" "X" "u" "ws" None; nestedA]) forest.
Proof.
  apply (getGroupTree_resolves codeUnitCompare 3 "ws" (Model.start false nested)).
  - exact codeUnitCompare_Consistent.
  - reflexivity.
  - by apply (bool_decide_unpack _).
  - simpl. lia.
Defined.

End GroupListings.

(** ** [createTodosForNote] and its handler *)

Section TodoLaws.
Import JS Remote Backend TodosApi TodosApiExt Tools Answers.
Context {svc : Service} (ep : Endpoints svc).

Lemma filter_split_length {A} (p : A → bool) (l : list A) :
  (length (filter (λ x, p x = true) l) + length (filter (λ x, negb (p x) = true) l))%nat
  = length l.
Proof.
  induction l as [|x l IH]; [done|].
  rewrite !filter_cons. destruct (p x) eqn:E; simpl.
  - destruct (decide (true = true)); [|done]. destruct (decide (false = true)); [done|].
    simpl. lia.
  - destruct (decide (false = true)); [done|]. destruct (decide (true = true)); [|done].
    simpl. lia.
Qed.

Lemma createTodosFrom_answers noteId workspaceId start :
  ∀ todoTexts (i : nat) results (w : World svc),
  createTodosFrom ep noteId todoTexts workspaceId start (Z.of_nat i) results w
  = (mkWorld
       (answers (post_todo ep) (srv w)
          (imap (λ j, bulkFields noteId workspaceId start (i + j)%nat) todoTexts)).1
       (log w ++
        exchanged "/todo" (imap (λ j, bulkFields noteId workspaceId start (i + j)%nat) todoTexts)
          (answers (post_todo ep) (srv w)
             (imap (λ j, bulkFields noteId workspaceId start (i + j)%nat) todoTexts)).2),
     results ++
     (answers (post_todo ep) (srv w)
        (imap (λ j, bulkFields noteId workspaceId start (i + j)%nat) todoTexts)).2).
Proof.
  induction todoTexts as [|text rest IH]; intros i results w.
  - simpl. rewrite !app_nil_r. by destruct w.
  - cbn [createTodosFrom imap]. unfold createTodo, post_todos, perform.
    replace (createBody (mkCreateTodoRequest text noteId (start + Z.of_nat i) workspaceId
                           (Some false)))
      with (bulkFields noteId workspaceId start (i + 0)%nat text)
      by (unfold createBody; cbn; by rewrite Nat.add_0_r).
    cbn [answers].
    destruct (post_todo ep (srv w) _) as [s1 r] eqn:E1.
    replace (Z.of_nat i + 1) with (Z.of_nat (S i)) by lia.
    rewrite IH. cbn [srv log].
    rewrite (imap_ext (λ j, bulkFields noteId workspaceId start (S i + j)%nat)
               ((λ j, bulkFields noteId workspaceId start (i + j)%nat) ∘ S) rest)
      by (intros j x _; cbn; by replace (i + S j)%nat with (S (i + j))%nat by lia).
    destruct (answers (post_todo ep) s1 _) as [s2 rs] eqn:E2. unfold exchanged. cbn [fst snd zip_with].
    by rewrite <-!(assoc_L (++)).
Qed.

Lemma answers_length {S T} (serve : S → Fields → S * ApiResponse T) bodies : ∀ s,
  length (answers serve s bodies).2 = length bodies.
Proof.
  induction bodies as [|b bodies IH]; intros s; [done|]. simpl.
  destruct (serve s b) as [s1 r]. specialize (IH s1).
  destruct (answers serve s1 bodies) as [s2 rs]. simpl in *. by rewrite IH.
Qed.

Lemma successData_failures {T} (responses : list (ApiResponse T)) :
  (length (successData responses) + length (failures responses))%nat = length responses.
Proof.
  induction responses as [|[d m|c m] rs IH]; [done| |]; unfold successData, failures in *;
    cbn [omap list_omap failureOf length]; lia.
Qed.

Lemma dataOf_successData {T} (responses : list (ApiResponse T)) :
  dataOf (filter (λ r, isSuccessResponse r = true) responses) = successData responses.
Proof.
  unfold dataOf, successData. induction responses as [|[d m|c m] rs IH]; [done| |].
  - rewrite filter_cons_True by done. cbn [omap list_omap]. by rewrite IH.
  - rewrite filter_cons_False by done. exact IH.
Qed.

Lemma failed_failures {T} (responses : list (ApiResponse T)) :
  length (filter (λ r, negb (isSuccessResponse r) = true) responses)
  = length (failures responses).
Proof.
  unfold failures. induction responses as [|[d m|c m] rs IH]; [done| |].
  - rewrite filter_cons_False by done. exact IH.
  - rewrite filter_cons_True by done. cbn [omap list_omap failureOf length]. by rewrite IH.
Qed.

Lemma success_length {T} (responses : list (ApiResponse T)) :
  length (filter (λ r, isSuccessResponse r = true) responses)
  = length (successData responses).
Proof.
  unfold successData. induction responses as [|[d m|c m] rs IH]; [done| |].
  - rewrite filter_cons_True by done. cbn [omap list_omap length]. by rewrite IH.
  - rewrite filter_cons_False by done. exact IH.
Qed.

Lemma exchanged_requests (bodies : list Fields) (rs : list (ApiResponse Todo)) :
  length rs = length bodies →
  ex_request <$> exchanged "/todo" bodies rs = POST "/todo" <$> bodies ∧
  ex_failure <$> exchanged "/todo" bodies rs = failureOf <$> rs.
Proof.
  revert rs. induction bodies as [|b bodies IH]; intros [|r rs] Hlen; try done.
  simpl in Hlen. destruct (IH rs) as [H1 H2]; [lia|].
  unfold exchanged in *. cbn [zip_with]. rewrite !fmap_cons, H1, H2. done.
Qed.

Lemma exchanged_ok (bodies : list Fields) (rs : list (ApiResponse Todo)) :
  length rs = length bodies →
  length (filter (λ e, answeredOk e) (exchanged "/todo" bodies rs))
  = length (successData rs).
Proof.
  revert rs. induction bodies as [|b bodies IH]; intros [|[d m|c m] rs] Hlen; try done.
  - unfold exchanged in *. cbn [zip_with]. rewrite filter_cons_True by done.
    unfold successData. cbn [omap list_omap length]. f_equal. apply IH. simpl in Hlen. lia.
  - unfold exchanged in *. cbn [zip_with]. rewrite filter_cons_False by done.
    unfold successData. cbn [omap list_omap]. apply IH. simpl in Hlen. lia.
Qed.

(** X9.  [createTodosForNote] sends one [POST /todo] for each text, in
    order, with line numbers counting up from the starting one and
    [completed: false]; it goes on after a failed request.  Its
    results are the service's answers to these requests, one after the
    other: the [i]-th result is the answer to the [i]-th request, and
    the log holds that request with the failure of that answer. *)
Theorem createTodosForNote_run (noteId : string) (todoTexts : list string)
    (workspaceId : option string) (startingLineNumber : Z) (w : World svc) :
  createTodosForNote ep noteId todoTexts workspaceId startingLineNumber w
  = (mkWorld
       (answers (post_todo ep) (srv w)
          (imap (bulkFields noteId workspaceId startingLineNumber) todoTexts)).1
       (log w ++
        exchanged "/todo" (imap (bulkFields noteId workspaceId startingLineNumber) todoTexts)
          (answers (post_todo ep) (srv w)
             (imap (bulkFields noteId workspaceId startingLineNumber) todoTexts)).2),
     (answers (post_todo ep) (srv w)
        (imap (bulkFields noteId workspaceId startingLineNumber) todoTexts)).2) ∧
  ∃ entries,
    log (createTodosForNote ep noteId todoTexts workspaceId startingLineNumber w).1
    = log w ++ entries ∧
    ex_request <$> entries
    = imap (λ i text, POST "/todo" (bulkFields noteId workspaceId startingLineNumber i text))
        todoTexts ∧
    ex_failure <$> entries
    = failureOf <$> (createTodosForNote ep noteId todoTexts workspaceId
                       startingLineNumber w).2 ∧
    length (createTodosForNote ep noteId todoTexts workspaceId startingLineNumber w).2
    = length todoTexts.
Proof.
  unfold createTodosForNote.
  pose proof (createTodosFrom_answers noteId workspaceId startingLineNumber todoTexts 0 [] w)
    as H.
  change (Z.of_nat 0) with 0 in H. cbn [Nat.add app] in H.
  rewrite (imap_ext (λ j, bulkFields noteId workspaceId startingLineNumber j)
             (bulkFields noteId workspaceId startingLineNumber) todoTexts) in H by done.
  rewrite H. split; [done|]. clear H. cbn [fst snd log].
  pose proof (answers_length (post_todo ep)
                (imap (bulkFields noteId workspaceId startingLineNumber) todoTexts) (srv w))
    as Hlen.
  destruct (exchanged_requests _ _ Hlen) as [Hq Hf].
  exists (exchanged "/todo"
            (imap (bulkFields noteId workspaceId startingLineNumber) todoTexts)
            (answers (post_todo ep) (srv w)
               (imap (bulkFields noteId workspaceId startingLineNumber) todoTexts)).2).
  split_and!; [done| |exact Hf|].
  - rewrite Hq. by rewrite fmap_imap.
  - by rewrite Hlen, length_imap.
Qed.

(** X10.  [handleCreateTodosForNote] starts at line
    [startingLineNumber || 1] and always returns: [todos] are the data
    of the results that are successes, in order, [created] is their
    number and [failed] the number of the results that are failures,
    so that the two add up to the number of texts; a run in which
    every request failed still reports success, with [created = 0]. *)
Theorem handleCreateTodosForNote_counts (noteId : string) (todoTexts : list string)
    (workspaceId : option string) (startingLineNumber : option Z) (w : World svc) :
  ∃ start result,
    start = match startingLineNumber with
            | Some 0 | None => 1
            | Some n => n
            end ∧
    handleCreateTodosForNote ep noteId todoTexts workspaceId startingLineNumber w
    = ((createTodosForNote ep noteId todoTexts workspaceId start w).1, Returned result) ∧
    cr_todos result
    = successData (createTodosForNote ep noteId todoTexts workspaceId start w).2 ∧
    cr_created result
    = length (successData (createTodosForNote ep noteId todoTexts workspaceId start w).2) ∧
    cr_failed result
    = length (failures (createTodosForNote ep noteId todoTexts workspaceId start w).2) ∧
    cr_message result
    = "Created " +:+ pretty (cr_created result) +:+ " todos for note ("
      +:+ pretty (cr_failed result) +:+ " failed)" ∧
    (cr_created result + cr_failed result)%nat = length todoTexts ∧
    length (cr_todos result) = cr_created result ∧
    length (filter (λ e, answeredOk e)
              (drop (length (log w))
                 (log (handleCreateTodosForNote ep noteId todoTexts workspaceId
                         startingLineNumber w).1)))
    = cr_created result.
Proof.
  unfold handleCreateTodosForNote.
  assert ((match startingLineNumber with
           | Some n => if n =? 0 then 1 else n
           | None => 1
           end)
          = match startingLineNumber with
            | Some 0 | None => 1
            | Some n => n
            end) as ->.
  { destruct startingLineNumber as [[|n|n]|]; done. }
  set (start := match startingLineNumber with
                | Some 0 | None => 1
                | Some n => n
                end).
  eexists start, _. split; [done|].
  unfold createTodosForNote.
  pose proof (createTodosFrom_answers noteId workspaceId start todoTexts 0 [] w) as H.
  change (Z.of_nat 0) with 0 in H. cbn [Nat.add app] in H.
  rewrite (imap_ext (λ j, bulkFields noteId workspaceId start j)
             (bulkFields noteId workspaceId start) todoTexts) in H by done.
  rewrite !H. clear H.
  pose proof (answers_length (post_todo ep)
                (imap (bulkFields noteId workspaceId start) todoTexts) (srv w)) as Hlen.
  rewrite length_imap in Hlen.
  set (rs := (answers (post_todo ep) (srv w)
                (imap (bulkFields noteId workspaceId start) todoTexts)).2) in *.
  cbn [fst snd app]. split; [done|].
  cbn [cr_todos cr_created cr_failed cr_message log].
  rewrite dataOf_successData, success_length, failed_failures.
  split_and!; try done.
  - rewrite <-Hlen. apply successData_failures.
  - rewrite drop_app_length. apply exchanged_ok. rewrite length_imap. exact Hlen.
Qed.

End TodoLaws.

(** ** [toggleTodo], [getTodoStats] and the handlers on a missing id *)

Section LookupThenWrite.
Import JS Remote Backend TodosApi TodosApiExt Tools Samples.

Lemma getTodoById_log {svc : Service} todoId workspaceId (w : World svc) :
  log (getTodoById todoId workspaceId w).1
  = log w ++ [mkExchange (GET "/todo" (byIdQuery workspaceId))
                (failureOf (getTodoById todoId workspaceId w).2)].
Proof.
  unfold getTodoById, listTodos, get_todos.
  pose proof (perform_log (get_todo svc)
    (GET "/todo" (searchParams (TodosApi.queryParams
       (mkListTodosParams None (Some 100) workspaceId None None None None None))))
    (searchParams (TodosApi.queryParams
       (mkListTodosParams None (Some 100) workspaceId None None None None None))) w) as H.
  destruct (perform _ _ _ w) as [w1 [data meta|code message]]; cbn [fst snd] in *.
  - rewrite H. by destruct workspaceId.
  - rewrite H. by destruct workspaceId.
Qed.

(** X11.  [toggleTodo] looks the todo up in the first 100 todos of a listing
    that names no workspace.  It sends a [PUT] only when the lookup
    found the todo, and then one [PUT] that carries the todo's id and
    the negation of the [completed] flag read, and nothing else; when
    the lookup failed or found nothing, the lookup's response is what
    it returns. *)
Theorem toggleTodo_guarded {svc : Service} (ep : Endpoints svc) (todoId : string)
    (w : World svc) :
  match (getTodoById todoId None w).2 with
  | ApiSuccess (Some todo) _ =>
      ∃ response,
        (toggleTodo ep todoId w).2 = Completed response ∧
        log (toggleTodo ep todoId w).1
        = log w ++ [mkExchange (GET "/todo" [("limit", QNum 100)]) None;
                    mkExchange (PUT "/todo" [("todoId", QStr todoId);
                                             ("completed",
                                              QBool (negb (todo_completed todo)))])
                      (failureOf response)]
  | other =>
      toggleTodo ep todoId w = ((getTodoById todoId None w).1, LookupReturned other) ∧
      log (toggleTodo ep todoId w).1
      = log w ++ [mkExchange (GET "/todo" [("limit", QNum 100)]) (failureOf other)]
  end.
Proof.
  pose proof (getTodoById_log todoId None w) as Hlog.
  unfold toggleTodo.
  destruct (getTodoById todoId None w) as [w1 [[todo|] meta|code message]];
    cbn [fst snd] in *.
  - unfold updateTodo, put_todos.
    pose proof (perform_log (put_todo ep)
      (PUT "/todo" (updateBody (mkUpdateTodoRequest todoId None
                                  (Some (negb (todo_completed todo))) None)))
      (updateBody (mkUpdateTodoRequest todoId None
                     (Some (negb (todo_completed todo))) None)) w1) as H.
    destruct (perform _ _ _ w1) as [w2 r]. cbn [fst snd] in *.
    exists r. split; [done|]. rewrite H, Hlog, <-(assoc_L (++)). done.
  - done.
  - done.
Qed.

(** X12.  On an id the lookup does not find, [handleGetNote] returns
    [{ success: false, error: 'Note not found' }], while
    [handleAppendToNote] and [handleToggleTodo] take the lookup's
    success with [data: null] for the result of the update and throw
    the [TypeError] of reading a property of [null]; none of them
    sends an update. *)
Theorem handlers_on_missing_id {svc : Service} (ep : Endpoints svc)
    (id content : string) (workspaceId : option string) (w : World svc)
    (noteMeta todoMeta : option Meta) :
  (NotesApi.getNoteById id workspaceId w).2 = ApiSuccess None noteMeta →
  (getTodoById id None w).2 = ApiSuccess None todoMeta →
  handleGetNote id workspaceId w
  = ((NotesApi.getNoteById id workspaceId w).1, Returned (NoteMissing "Note not found")) ∧
  handleAppendToNote id content workspaceId w
  = ((NotesApi.getNoteById id workspaceId w).1, Threw (ThrownTypeError "name")) ∧
  handleToggleTodo ep id w
  = ((getTodoById id None w).1, Threw (ThrownTypeError "completed")).
Proof.
  intros Hn Ht. split_and!.
  - unfold handleGetNote.
    destruct (NotesApi.getNoteById id workspaceId w) as [w1 r]. cbn [snd] in Hn. by subst r.
  - unfold handleAppendToNote, NotesApi.appendToNote.
    destruct (NotesApi.getNoteById id workspaceId w) as [w1 r]. cbn [snd] in Hn. by subst r.
  - unfold handleToggleTodo, toggleTodo.
    destruct (getTodoById id None w) as [w1 r]. cbn [snd] in Ht. by subst r.
Qed.

Lemma handlers_on_missing_id_witness :
  handleGetNote "n9" (Some "ws") (Model.start false ModelExt.twoTodos)
  = ((NotesApi.getNoteById "n9" (Some "ws") (Model.start false ModelExt.twoTodos)).1,
     Returned (NoteMissing "Note not found")) ∧
  handleAppendToNote "n9" "more" (Some "ws") (Model.start false ModelExt.twoTodos)
  = ((NotesApi.getNoteById "n9" (Some "ws") (Model.start false ModelExt.twoTodos)).1,
     Threw (ThrownTypeError "name")) ∧
  handleToggleTodo (ModelExt.endpoints false [ModelExt.home]) "n9"
    (Model.start false ModelExt.twoTodos)
  = ((getTodoById "n9" None (Model.start false ModelExt.twoTodos)).1,
     Threw (ThrownTypeError "completed")).
Proof.
  apply (handlers_on_missing_id (ModelExt.endpoints false [ModelExt.home]) "n9" "more"
           (Some "ws") (Model.start false ModelExt.twoTodos) None None); reflexivity.
Defined.

(** X13.  [getTodoStats] sends one listing request with [limit = 1000]
    and nothing else.  When the listing fails it throws the failure's
    message.  Otherwise it resolves to the counts of the listed todos:
    [total] their number, [completed], [pending] and [deleted] the
    numbers of those that are completed, not completed and deleted, so
    that [completed] and [pending] add up to [total] and [deleted] is
    at most [total]; the completion rate is 0 for an empty listing and
    is otherwise computed with the sum of [completed] and [pending],
    which is [total], as the divisor, so it is never a division by
    zero. *)
Theorem getTodoStats_counts {svc : Service} (isDeleted : Todo → bool)
    (workspaceId : option string) (w : World svc) :
  (getTodoStats isDeleted workspaceId w).1
  = (listTodos (mkListTodosParams None (Some 1000) workspaceId
                  None None None None None) w).1 ∧
  log (getTodoStats isDeleted workspaceId w).1
  = log w ++ [mkExchange (GET "/todo" ([("limit", QNum 1000)] ++
                                       field "workspaceId" QStr workspaceId))
                (failureOf (listTodos (mkListTodosParams None (Some 1000) workspaceId
                                         None None None None None) w).2)] ∧
  match (listTodos (mkListTodosParams None (Some 1000) workspaceId
                      None None None None None) w).2 with
  | ApiError _ message => (getTodoStats isDeleted workspaceId w).2 = Rejected message
  | ApiSuccess todos _ =>
      ∃ stats,
        (getTodoStats isDeleted workspaceId w).2 = Resolved stats ∧
        ts_total stats = length todos ∧
        ts_completed stats = length (filter (λ t, todo_completed t = true) todos) ∧
        ts_pending stats = length (filter (λ t, todo_completed t = false) todos) ∧
        ts_deleted stats = length (filter (λ t, isDeleted t = true) todos) ∧
        (ts_completed stats + ts_pending stats)%nat = ts_total stats ∧
        (ts_deleted stats ≤ ts_total stats)%nat ∧
        match todos with
        | [] => ts_completionRate stats = RateZero
        | _ :: _ =>
            ts_completionRate stats = RateOf (ts_completed stats) (ts_total stats) ∧
            (0 < ts_total stats)%nat
        end
  end.
Proof.
  unfold getTodoStats, listTodos, get_todos.
  pose proof (perform_log (get_todo svc)
    (GET "/todo" (searchParams (TodosApi.queryParams
       (mkListTodosParams None (Some 1000) workspaceId None None None None None))))
    (searchParams (TodosApi.queryParams
       (mkListTodosParams None (Some 1000) workspaceId None None None None None))) w) as H.
  destruct (perform _ _ _ w) as [w1 [todos meta|code message]]; cbn [fst snd] in *.
  - split; [done|]. split; [rewrite H; by destruct workspaceId|].
    eexists. split; [done|].
    unfold statsOf. cbn [ts_completed ts_pending ts_total ts_deleted ts_completionRate].
    pose proof (filter_split_length todo_completed todos) as Hsplit.
    assert (filter (λ t, negb (todo_completed t) = true) todos
            = filter (λ t, todo_completed t = false) todos) as Hneg.
    { apply list_filter_iff. intros t. by destruct (todo_completed t). }
    rewrite Hneg in *.
    split_and!; [done|done|done|done|exact Hsplit|apply length_filter|].
    destruct todos as [|t todos]; [done|].
    destruct (decide (0 < length (t :: todos))%nat) as [Hpos|Hpos]; [|simpl in Hpos; lia].
    split; [|done]. by rewrite Hsplit.
  - split; [done|]. split; [rewrite H; by destruct workspaceId|]. done.
Qed.

End LookupThenWrite.

(** ** [WorkspacesApi]: the guards before a write *)

Section WorkspaceGuards.
Import JS Remote Backend Paged WorkspacesApi.
Context {svc : Service} (ep : Endpoints svc).
Variable toLowerCase : string → string.

Lemma findWorkspace_log p (w : World svc) :
  log (findWorkspace ep p w).1
  = log w ++ [mkExchange (GET "/workspace" [])
                (failureOf (listWorkspaces ep (mkListWorkspacesParams None None) w).2)].
Proof.
  unfold findWorkspace, listWorkspaces, get_workspaces.
  pose proof (perform_log (get_workspace ep)
    (GET "/workspace" (searchParams (queryParams (mkListWorkspacesParams None None))))
    (searchParams (queryParams (mkListWorkspacesParams None None))) w) as H.
  by destruct (perform _ _ _ w) as [w1 [data meta|code message]].
Qed.

Lemma findWorkspace_found p (w : World svc) x meta :
  (findWorkspace ep p w).2 = ApiSuccess (Some x) meta →
  ∃ data meta', (listWorkspaces ep (mkListWorkspacesParams None None) w).2
                = ApiSuccess data meta' ∧ array_find p data = Some x.
Proof.
  unfold findWorkspace.
  destruct (listWorkspaces ep _ w) as [w1 [data meta'|code message]]; [|done].
  cbn [snd]. intros [= H _]. by exists data, meta'.
Qed.

Lemma PagedRun_reads {A} (req : Z → Request) p fuel before after (out : Outcome A) :
  (∀ page, ∃ url params, req page = GET url params) →
  PagedRun req p fuel before after out →
  ∃ entries, after = before ++ entries ∧ Forall (λ e, isWrite e = false) entries.
Proof.
  intros Hget (entries & -> & _ & Hreq & _). exists entries. split; [done|].
  apply Forall_forall. intros e He.
  assert (ex_request e ∈ pageRequests req p (length entries)) as Hin.
  { rewrite <-Hreq. by apply list_elem_of_fmap_2. }
  unfold pageRequests in Hin. apply list_elem_of_fmap in Hin as (i & Hi & _).
  destruct (Hget (Z.of_nat (S i))) as (url & params & Hr).
  unfold isWrite. by rewrite Hi, Hr.
Qed.

(** X14.  [deleteWorkspaceWithConfirmation] sends nothing at all without the
    confirmation.  With it, it sends a [DELETE] only after a lookup
    that found the workspace and found it not to be the default one,
    and then for that workspace id. *)
Theorem deleteWorkspaceWithConfirmation_guarded (workspaceId : string)
    (confirmDelete : bool) (w : World svc) :
  (if confirmDelete then True
   else
     deleteWorkspaceWithConfirmation ep workspaceId confirmDelete w
     = (w, Completed (ApiError VALIDATION_ERROR
             "Workspace deletion requires explicit confirmation due to data loss"))) ∧
  ∃ entries,
    log (deleteWorkspaceWithConfirmation ep workspaceId confirmDelete w).1
    = log w ++ entries ∧
    ∀ e, e ∈ entries → isWrite e = true →
      ex_request e = DELETE "/workspace" [("workspaceId", QStr workspaceId)] ∧
      confirmDelete = true ∧
      ∃ data meta x,
        (listWorkspaces ep (mkListWorkspacesParams None None) w).2 = ApiSuccess data meta ∧
        array_find (λ x, String.eqb (workspace_id x) workspaceId) data = Some x ∧
        workspace_isDefault x = false.
Proof.
  unfold deleteWorkspaceWithConfirmation. destruct confirmDelete; cbn [negb].
  - split; [done|]. unfold getWorkspaceById.
    pose proof (findWorkspace_log (λ x, String.eqb (workspace_id x) workspaceId) w) as Hlog.
    pose proof (findWorkspace_found (λ x, String.eqb (workspace_id x) workspaceId) w) as Hf.
    destruct (findWorkspace ep _ w) as [w1 [[x|] meta|code message]]; cbn [fst snd] in *.
    + destruct (workspace_isDefault x) eqn:Ed; cbn [fst snd].
      * eexists. split; [exact Hlog|]. intros e He. by apply list_elem_of_singleton in He as ->.
      * unfold deleteWorkspace, delete_workspaces.
        pose proof (perform_log (delete_workspace ep)
          (DELETE "/workspace" [("workspaceId", QStr workspaceId)])
          [("workspaceId", QStr workspaceId)] w1) as H.
        destruct (perform _ _ _ w1) as [w2 r]. cbn [fst snd] in *.
        eexists. split; [rewrite H, Hlog, <-(assoc_L (++)); done|].
        intros e He Hw. apply elem_of_cons in He as [->|He]; [done|].
        apply list_elem_of_singleton in He as ->. split; [done|]. split; [done|].
        destruct (Hf x meta eq_refl) as (data & meta' & H1 & H2). by exists data, meta', x.
    + eexists. split; [exact Hlog|]. intros e He. by apply list_elem_of_singleton in He as ->.
    + eexists. split; [exact Hlog|]. intros e He. by apply list_elem_of_singleton in He as ->.
  - split; [done|]. exists []. split; [by rewrite app_nil_r|].
    intros e He. by apply elem_of_nil in He.
Qed.

Lemma createWorkspace_log name (w : World svc) :
  log (createWorkspace ep name w).1
  = log w ++ [mkExchange (POST "/workspace" [("name", QStr name)])
                (failureOf (createWorkspace ep name w).2)].
Proof. unfold createWorkspace, post_workspaces. apply perform_log. Qed.

(** X15.  [createWorkspaceIfPossible] by cases.  When the paging loop
    throws, whatever the failure, or lists two or more workspaces, the
    result is the [FORBIDDEN] failure of the workspace limit and
    nothing more is sent.  When the loop lists fewer than two
    workspaces, the workspace is looked up by name: a lookup that
    succeeds with a match gives the [VALIDATION_ERROR] failure and no
    [POST]; a lookup that finds none, and also a lookup that failed,
    is followed by one [POST] with the name, whose answer is the
    result.  So a [POST] is sent only after a loop that listed fewer
    than two workspaces and a lookup that did not succeed with a
    match. *)
Theorem createWorkspaceIfPossible_guarded (fuel : nat) (name : string) (w : World svc) :
  match getAllWorkspaces ep fuel w with
  | (w1, Resolved workspaces) =>
      if decide (length workspaces < 2)%nat then
        match getWorkspaceByName ep toLowerCase name w1 with
        | (w2, ApiSuccess (Some _) _) =>
            createWorkspaceIfPossible ep toLowerCase fuel name w
            = (w2, Some (ApiError VALIDATION_ERROR "Workspace with this name already exists"))
        | (w2, ApiSuccess None _) | (w2, ApiError _ _) =>
            createWorkspaceIfPossible ep toLowerCase fuel name w
            = ((createWorkspace ep name w2).1, Some (createWorkspace ep name w2).2) ∧
            log (createWorkspace ep name w2).1
            = log w2 ++ [mkExchange (POST "/workspace" [("name", QStr name)])
                           (failureOf (createWorkspace ep name w2).2)]
        end
      else
        createWorkspaceIfPossible ep toLowerCase fuel name w
        = (w1, Some (ApiError FORBIDDEN "Maximum number of workspaces reached (2 per user)"))
  | (w1, Rejected _) =>
      createWorkspaceIfPossible ep toLowerCase fuel name w
      = (w1, Some (ApiError FORBIDDEN "Maximum number of workspaces reached (2 per user)"))
  | (w1, Pending) =>
      createWorkspaceIfPossible ep toLowerCase fuel name w = (w1, None)
  end ∧
  ∃ entries,
    log (createWorkspaceIfPossible ep toLowerCase fuel name w).1 = log w ++ entries ∧
    ∀ e, e ∈ entries → isWrite e = true →
      ex_request e = POST "/workspace" [("name", QStr name)] ∧
      ∃ workspaces,
        (getAllWorkspaces ep fuel w).2 = Resolved workspaces ∧
        (length workspaces < 2)%nat ∧
        ∀ x meta,
          (getWorkspaceByName ep toLowerCase name (getAllWorkspaces ep fuel w).1).2
          ≠ ApiSuccess (Some x) meta.
Proof.
  pose proof (getAllWorkspaces_run ep fuel w) as Hrun.
  apply PagedRun_reads in Hrun as (pages & Hpages & Hreads);
    [|intros page; by eexists _, _].
  unfold createWorkspaceIfPossible, canCreateWorkspace.
  destruct (getAllWorkspaces ep fuel w) as [w1 [workspaces|message|]]; cbn [fst snd] in *.
  - destruct (decide (length workspaces < 2)%nat) as [Hlt|Hge].
    + rewrite bool_decide_eq_true_2 by done.
      unfold getWorkspaceByName.
      pose proof (findWorkspace_log
        (λ x, String.eqb (toLowerCase (workspace_name x)) (toLowerCase name)) w1) as Hlog.
      destruct (findWorkspace ep _ w1) as [w2 existing] eqn:Efind. cbn [fst snd] in *.
      assert (Hnowrite : ∀ e,
                e ∈ pages ++ [mkExchange (GET "/workspace" [])
                     (failureOf (listWorkspaces ep (mkListWorkspacesParams None None) w1).2)] →
                isWrite e = true → False).
      { intros e He Hw. apply elem_of_app in He as [He|He].
        - rewrite Forall_forall in Hreads. rewrite (Hreads e He) in Hw. done.
        - by apply list_elem_of_singleton in He as ->. }
      pose proof (createWorkspace_log name w2) as Hpost.
      assert (Hcreate :
        ∃ entries, log (createWorkspace ep name w2).1 = log w ++ entries ∧
          ∀ e, e ∈ entries → isWrite e = true →
            ex_request e = POST "/workspace" [("name", QStr name)]).
      { eexists. split; [rewrite Hpost, Hlog, Hpages, <-!(assoc_L (++)); done|].
        intros e He Hw. rewrite (assoc_L (++)) in He.
        apply elem_of_app in He as [He|He]; [by destruct (Hnowrite e He Hw)|].
        by apply list_elem_of_singleton in He as ->. }
      destruct existing as [[x|] meta|code message].
      * split; [done|]. cbn [fst snd].
        eexists. split; [rewrite Hlog, Hpages, <-(assoc_L (++)); done|].
        intros e He Hw. by destruct (Hnowrite e He Hw).
      * destruct (createWorkspace ep name w2) as [w3 r]. cbn [fst snd] in *.
        split; [done|].
        destruct Hcreate as (entries & Hl & Hw). exists entries. split; [done|].
        intros e He Hwr. split; [by apply Hw|]. exists workspaces. by split_and!.
      * destruct (createWorkspace ep name w2) as [w3 r]. cbn [fst snd] in *.
        split; [done|].
        destruct Hcreate as (entries & Hl & Hw). exists entries. split; [done|].
        intros e He Hwr. split; [by apply Hw|]. exists workspaces. by split_and!.
    + rewrite bool_decide_eq_false_2 by done. split; [done|].
      cbn [fst snd]. exists pages. split; [done|]. intros e He Hw.
      rewrite Forall_forall in Hreads. rewrite (Hreads e He) in Hw. done.
  - split; [done|]. exists pages. split; [done|]. intros e He Hw.
    rewrite Forall_forall in Hreads. rewrite (Hreads e He) in Hw. done.
  - split; [done|]. exists pages. split; [done|]. intros e He Hw.
    rewrite Forall_forall in Hreads. rewrite (Hreads e He) in Hw. done.
Qed.

End WorkspaceGuards.

(** ** [handleGetGroupPath] on an unknown id *)

Section PathHandler.
Import JS Remote GroupsApi Tools Samples.

(** X16.  For a group id that is not among the groups of the workspace,
    [handleGetGroupPath] reports a success with the empty path and the
    empty path string: an unknown id is not told apart from a group. *)
Theorem handleGetGroupPath_unknown {svc : Service} (fuel : nat)
    (groupId workspaceId : string) (w w1 : World svc) (allGroups : list Group) :
  getAllGroupsInWorkspace fuel workspaceId w = (w1, Resolved allGroups) →
  groupId ∉ (group_id <$> allGroups) →
  handleGetGroupPath fuel groupId workspaceId w
  = (w1, Returned (mkGroupPathResult [] "" groupId)).
Proof.
  intros Hall Hid. unfold handleGetGroupPath, getGroupPath. rewrite Hall.
  unfold pathIn. rewrite (groupMapOf_None allGroups groupId Hid).
  by destruct fuel.
Qed.

Lemma handleGetGroupPath_unknown_witness :
  handleGetGroupPath 3 "zz" "ws" (Model.start false nested)
  = (Model.world false nested [mkExchange (GET "/group" (pageQuery "ws" 1)) None],
     Returned (mkGroupPathResult [] "" "zz")).
Proof.
  apply (handleGetGroupPath_unknown 3 "zz" "ws" (Model.start false nested)
           (Model.world false nested [mkExchange (GET "/group" (pageQuery "ws" 1)) None])
           [mkGroup "x" "X" "u" "ws" None; nestedA]).
  - reflexivity.
  - intros H. apply list_elem_of_In in H. simpl in H. intuition discriminate.
Defined.

End PathHandler.

(** ** [SidvyApiClient]: headers, addresses and the data of a success *)

Section ClientLaws.
Import Client ClientState Samples.

Lemma construct_headers config :
  HeadersFor (apiToken config) (baseHeaders (construct config)).
Proof.
  unfold HeadersFor, construct. cbn [baseHeaders].
  destruct (JS.truthy (Some (apiToken config))); split_and!; by simplify_map_eq.
Qed.

Lemma updateConfig_headers client token newConfig :
  HeadersFor token (baseHeaders client) →
  HeadersFor (lastToken token [newConfig]) (baseHeaders (updateConfig client newConfig)).
Proof.
  intros (Ha & Hc & Hu). unfold HeadersFor, updateConfig, lastToken.
  cbn [baseHeaders foldl].
  destruct (pc_apiToken newConfig) as [| |t]; [done|done|].
  destruct (JS.truthy (Some t)); split_and!; by simplify_map_eq.
Qed.

Lemma updates_headers updates : ∀ client token,
  HeadersFor token (baseHeaders client) →
  HeadersFor (lastToken token updates) (baseHeaders (foldl updateConfig client updates)).
Proof.
  induction updates as [|u updates IH]; intros client token H; [done|].
  cbn [foldl]. unfold lastToken. cbn [foldl].
  apply (IH (updateConfig client u)). by apply (updateConfig_headers client token u).
Qed.

(** X17.  After the construction and any sequence of [updateConfig] calls,
    the [Authorization] header is the bearer of the last token an
    update gave (the constructor's when none did), and is absent when
    that token is empty; an update that gives no token, or gives
    [undefined], leaves it alone.  The two other headers never
    change. *)
Theorem updateConfig_authorization (config : SidvyConfig) (updates : list PartialConfig) :
  baseHeaders (foldl updateConfig (construct config) updates) !! "Authorization"
  = (if JS.truthy (Some (lastToken (apiToken config) updates))
     then Some (bearer (lastToken (apiToken config) updates))
     else None) ∧
  baseHeaders (foldl updateConfig (construct config) updates) !! "Content-Type"
  = Some "application/json" ∧
  baseHeaders (foldl updateConfig (construct config) updates) !! "User-Agent"
  = Some "Sidvy-MCP-Server/1.0.0".
Proof. apply (updates_headers updates (construct config)), construct_headers. Qed.

Lemma envOr_spec env key fallback :
  (∃ v, env !! key = Some v ∧ v ≠ "" ∧ envOr env key fallback = v) ∨
  ((env !! key = None ∨ env !! key = Some "") ∧ envOr env key fallback = fallback).
Proof.
  unfold envOr. destruct (env !! key) as [v|]; [|right; by split; [left|]].
  simpl. destruct (String.eqb_spec v ""); simpl.
  - right. subst. by split; [right|].
  - left. by exists v.
Qed.

(** X18.  [createClientFromEnv] throws exactly when [SIDVY_API_TOKEN]
    is unset or empty.  The client it returns otherwise carries the
    bearer of that token; its [apiUrl] is the value of [SIDVY_API_URL],
    or the default address when that variable is unset or empty, and
    so is never empty; its [defaultWorkspaceId] is the value of
    [SIDVY_DEFAULT_WORKSPACE_ID], if any, and [debug] is on exactly
    when [DEBUG] is ["true"]. *)
Theorem createClientFromEnv_token (env : gmap string string) :
  match createClientFromEnv env with
  | Returns client =>
      ∃ token,
        env !! "SIDVY_API_TOKEN" = Some token ∧ token ≠ "" ∧
        baseHeaders client !! "Authorization" = Some (bearer token) ∧
        co_apiToken (cl_config client) = Some token ∧
        (∃ address, co_apiUrl (cl_config client) = Some address ∧ address ≠ "") ∧
        co_apiUrl (cl_config client)
        = Some (match env !! "SIDVY_API_URL" with
                | Some "" | None => "https://sidvy.com/api"
                | Some address => address
                end) ∧
        co_defaultWorkspaceId (cl_config client) = env !! "SIDVY_DEFAULT_WORKSPACE_ID" ∧
        (co_debug (cl_config client) = Some true ↔ env !! "DEBUG" = Some "true") ∧
        (co_debug (cl_config client) = Some false ↔ env !! "DEBUG" ≠ Some "true") ∧
        baseHeaders client !! "Content-Type" = Some "application/json" ∧
        baseHeaders client !! "User-Agent" = Some "Sidvy-MCP-Server/1.0.0"
  | Throws e =>
      e = ErrorObj "SIDVY_API_TOKEN environment variable is required" ∧
      (env !! "SIDVY_API_TOKEN" = None ∨ env !! "SIDVY_API_TOKEN" = Some "")
  end.
Proof.
  unfold createClientFromEnv. cbn [apiToken].
  destruct (envOr_spec env "SIDVY_API_TOKEN" "") as [(v & Hv & Hne & ->)|[Hno ->]].
  - assert (JS.truthy (Some v) = true) as Ht.
    { simpl. by destruct (String.eqb_spec v ""). }
    rewrite Ht. cbn [negb]. exists v.
    unfold construct. cbn [baseHeaders cl_config co_apiUrl co_apiToken co_debug
                           co_defaultWorkspaceId apiUrl apiToken debug defaultWorkspaceId].
    rewrite Ht.
    split_and!; [done|done|by simplify_map_eq|done| | |done| | |
                 by simplify_map_eq|by simplify_map_eq].
    + eexists. split; [done|].
      destruct (envOr_spec env "SIDVY_API_URL" "https://sidvy.com/api")
        as [(u & _ & Hu & ->)|[_ ->]]; done.
    + f_equal. unfold envOr. destruct (env !! "SIDVY_API_URL") as [u|]; [|done].
      simpl. destruct (String.eqb_spec u "") as [->|Hu]; [done|].
      by destruct u.
    + split; [intros [= H]; by apply bool_decide_eq_true in H|].
      intros H. f_equal. by apply bool_decide_eq_true.
    + split; [intros [= H]; by apply bool_decide_eq_false in H|].
      intros H. f_equal. by apply bool_decide_eq_false.
  - done.
Qed.

Lemma get_append_slash s :
  String.get (String.length s) (s +:+ "/") = Some "/"%char ∧
  String.length (s +:+ "/") = S (String.length s).
Proof.
  induction s as [|c s [IH1 IH2]]; [done|]. simpl. split; [done|]. by rewrite IH2.
Qed.

(** X19.  The base address [request] resolves every endpoint against ends
    with a slash, whatever [apiUrl] is configured, and normalising it
    again changes nothing; the endpoint is [url] without one leading
    slash, so [url] is the endpoint behind that slash, if any. *)
Theorem request_base_ends_with_slash (config : SidvyConfig) (url : string) :
  endsWithSlash (baseUrlOf config) = true ∧
  baseUrlOf (mkConfig (apiToken config) (baseUrlOf config) (defaultWorkspaceId config)
               (debug config))
  = baseUrlOf config ∧
  url = (if startsWithSlash url then "/" else "") +:+ endpointOf url.
Proof.
  assert (endsWithSlash (baseUrlOf config) = true) as Hends.
  { unfold baseUrlOf. destruct (endsWithSlash (apiUrl config)) eqn:E; [done|].
    unfold endsWithSlash. destruct (get_append_slash (apiUrl config)) as [H1 H2].
    rewrite H2. simpl. rewrite Nat.sub_0_r, H1. done. }
  split_and!.
  - done.
  - unfold baseUrlOf at 1. cbn [apiUrl]. by rewrite Hends.
  - unfold endpointOf. destruct url as [|c rest]; [done|]. simpl.
    destruct (Ascii.eqb_spec c "/"%char); [by subst|done].
Qed.

(** X20.  A 2xx answer is always wrapped as a success whose [data] is
    truthy: the body's [data] when that is truthy, else the whole
    body when that is truthy, else the empty object.  So a falsy
    payload ([0], [false], the empty string, [null]) never reaches the
    caller, who gets the envelope in its place. *)
Theorem request_success_data
    (newURL : string → string → option string)
    (fetch : Url → RequestInit → FetchOutcome)
    (config : SidvyConfig) (method url : string)
    (data : option Value) (params : option (list (string * Value)))
    (address : string) (response : Response) :
  newURL (endpointOf url) (baseUrlOf config) = Some address →
  fetch (mkUrl address (queryOf params)) (mkRequestInit method (bodyOf data))
  = FetchResolves response →
  ok response = true →
  ∃ d,
    request newURL fetch config method url data params
    = Returns (VObj [("success", VBool true); ("data", d);
                     ("meta", optProp (default VNull (body response)) "meta")]) ∧
    truthy d = true ∧
    d = (if truthy (optProp (default VNull (body response)) "data")
         then optProp (default VNull (body response)) "data"
         else if truthy (default VNull (body response))
              then default VNull (body response)
              else VObj []).
Proof.
  intros Haddr Hfetch Hok. unfold request. rewrite Haddr, Hfetch, Hok. cbn [negb].
  eexists. split; [done|]. unfold or_else.
  destruct (truthy (optProp _ "data")) eqn:E1; rewrite ?E1.
  - done.
  - destruct (truthy (default VNull (body response))) eqn:E2; rewrite ?E2; done.
Qed.

Lemma request_success_data_witness :
  ∃ d,
    request joinURL fetchZero config "GET" "/todo" None None
    = Returns (VObj [("success", VBool true); ("data", d);
                     ("meta", optProp (default VNull (Some zeroBody)) "meta")]) ∧
    truthy d = true ∧
    d = (if truthy (optProp (default VNull (Some zeroBody)) "data")
         then optProp (default VNull (Some zeroBody)) "data"
         else if truthy (default VNull (Some zeroBody))
              then default VNull (Some zeroBody)
              else VObj []).
Proof.
  apply (request_success_data joinURL fetchZero config "GET" "/todo" None None
           "https://sidvy.com/api/todo" (mkResponse 200 "OK" (Some zeroBody)));
    reflexivity.
Defined.

End ClientLaws.

(** ** [buildGroupTree]: the groups in the forest *)

Section Members.
Import JS Tree TreeSpec Samples.

Lemma GroupTreeNode_nested_ind (P : GroupTreeNode → Prop) :
  (∀ g cs lv pa, Forall P cs → P (TreeNode g cs lv pa)) → ∀ t, P t.
Proof.
  intros H. fix IH 1. intros [g cs lv pa]. apply H.
  induction cs as [|c cs IHcs]; constructor; [apply IH|exact IHcs].
Qed.

Lemma elem_of_flat_map {A B} (f : A → list B) (l : list A) (x : B) :
  x ∈ flat_map f l ↔ ∃ y, x ∈ f y ∧ y ∈ l.
Proof.
  rewrite list_elem_of_In, in_flat_map. split.
  - intros (y & Hy & Hx). exists y. by rewrite !list_elem_of_In.
  - intros (y & Hx & Hy). exists y. by rewrite <-!list_elem_of_In.
Qed.

Lemma nodesOf_self t : t ∈ nodesOf t.
Proof. destruct t. left. Qed.

Lemma nodesOf_child : ∀ r t c, t ∈ nodesOf r → c ∈ treeChildren t → c ∈ nodesOf r.
Proof.
  intros r. induction r as [g cs lv pa IH] using GroupTreeNode_nested_ind.
  intros t c Ht Hc. cbn [nodesOf] in *. apply elem_of_cons in Ht as [->|Ht].
  - right. apply elem_of_flat_map. exists c. split; [apply nodesOf_self|done].
  - right. apply elem_of_flat_map in Ht as (r' & Ht & Hr').
    apply elem_of_flat_map. exists r'. split; [|done].
    rewrite Forall_forall in IH. by apply (IH r' Hr' t c).
Qed.

Section Input.
Variable localeCompare : string → string → Z.
Variable gs : list Group.
Hypothesis Hnd : NoDup (group_id <$> gs).

Lemma elem_of_perm_fmap (cs : list GroupTreeNode) (l : list Group) g :
  treeGroup <$> cs ≡ₚ l → g ∈ l → ∃ c, c ∈ cs ∧ treeGroup c = g.
Proof.
  intros Hp Hg. rewrite <-Hp in Hg. apply list_elem_of_fmap in Hg as (c & -> & Hc).
  by exists c.
Qed.

(** Every node of a tree over [gs] below a node at some depth holds a
    group at some depth. *)
Lemma TreeOf_members : ∀ t k,
  TreeOf localeCompare gs t → atDepth gs k (group_id (treeGroup t)) →
  ∀ n, n ∈ nodesOf t →
    treeGroup n ∈ gs ∧ TreeOf localeCompare gs n
    ∧ ∃ k', atDepth gs k' (group_id (treeGroup n)).
Proof.
  intros t. induction t as [g cs lv pa IH] using GroupTreeNode_nested_ind.
  intros k Ht Hd n Hn. inversion Ht as [g' cs' lv' pa' Hg Hperm Hsort Hall]; subst.
  cbn [nodesOf] in Hn. apply elem_of_cons in Hn as [->|Hn].
  - split_and!; [done|done|by exists k].
  - apply elem_of_flat_map in Hn as (c & Hn & Hc).
    rewrite Forall_forall in IH, Hall.
    assert (treeGroup c ∈ filter (childOf (group_id g)) gs) as Hcg.
    { rewrite <-Hperm. by apply list_elem_of_fmap_2. }
    apply list_elem_of_filter in Hcg as [Hch Hcgs].
    apply (IH c Hc (S k)); [by apply Hall| |done].
    by apply (atDepth_child gs (treeGroup c) (group_id g) k).
Qed.

Lemma members_of_forest forest :
  treeGroup <$> forest ≡ₚ filter isRoot gs →
  Forall (TreeOf localeCompare gs) forest →
  ∀ g, g ∈ groupsOf forest ↔ g ∈ gs ∧ ∃ k, atDepth gs k (group_id g).
Proof.
  intros Hroots Hall g. rewrite Forall_forall in Hall. split.
  - intros Hg. unfold groupsOf in Hg.
    apply list_elem_of_fmap in Hg as (n & -> & Hn).
    apply elem_of_flat_map in Hn as (t & Hn & Ht).
    assert (treeGroup t ∈ filter isRoot gs) as Hr.
    { rewrite <-Hroots. by apply list_elem_of_fmap_2. }
    apply list_elem_of_filter in Hr as [Hr Htg].
    destruct (TreeOf_members t 0 (Hall t Ht) (atDepth_root gs _ Htg Hr) n Hn)
      as (? & _ & ?). done.
  - intros [Hg [k Hd]].
    assert (∃ n, n ∈ flat_map nodesOf forest ∧ treeGroup n = g
                 ∧ TreeOf localeCompare gs n) as (n & Hn & <- & _).
    { remember (group_id g) as i eqn:Ei. revert g Hg Ei.
      induction Hd as [g0 Hg0 Hr0|g0 p k Hg0 Hch Hd IH]; intros g Hg Ei.
      - assert (g = g0) as -> by (by apply (group_by_id gs Hnd)).
        destruct (elem_of_perm_fmap forest (filter isRoot gs) g0 Hroots) as (t & Ht & Htg).
        { by apply list_elem_of_filter. }
        exists t. split_and!; [|done|by apply Hall].
        apply elem_of_flat_map. exists t. split; [apply nodesOf_self|done].
      - assert (g = g0) as -> by (by apply (group_by_id gs Hnd)).
        destruct (atDepth_inv gs k p Hd) as (gp & Hgp & -> & _).
        destruct (IH gp Hgp eq_refl) as (tp & Htp & Htg & Htree).
        destruct tp as [g' cs lv pa]. cbn [treeGroup] in Htg. subst g'.
        inversion Htree as [g' cs' lv' pa' _ Hperm _ Hcs]; subst.
        destruct (elem_of_perm_fmap cs _ g0 Hperm) as (c & Hc & Hcg).
        { by apply list_elem_of_filter. }
        rewrite Forall_forall in Hcs.
        exists c. split_and!; [|done|by apply Hcs].
        apply elem_of_flat_map in Htp as (r & Htp & Hr).
        apply elem_of_flat_map. exists r. split; [|done].
        by apply (nodesOf_child r (TreeNode gp cs lv pa) c). }
    unfold groupsOf. by apply list_elem_of_fmap_2.
Qed.

End Input.

(** X5.  The groups in the forest [buildGroupTree] returns for an input
    with distinct ids are exactly those whose chain of [parentId]s
    reaches, within the input, a group without one: a group whose
    chain leaves the input, or runs into a cycle, is in no tree. *)
Theorem buildGroupTree_members (localeCompare : string → string → Z)
    (gs : list Group) (fuel : nat) :
  Consistent localeCompare →
  NoDup (group_id <$> gs) →
  (length gs < fuel)%nat →
  ∃ forest,
    buildGroupTree localeCompare fuel gs = Some forest ∧
    ∀ g, g ∈ groupsOf forest ↔ g ∈ gs ∧ ∃ k, atDepth gs k (group_id g).
Proof.
  intros HC Hnd Hfuel.
  destruct (forest_of_input localeCompare HC gs Hnd fuel Hfuel)
    as (forest & Hb & Hroots & _ & Hall).
  exists forest. split; [done|]. by apply (members_of_forest localeCompare gs Hnd).
Qed.

Lemma buildGroupTree_members_witness :
  ∃ forest,
    buildGroupTree codeUnitCompare 6 [gA; gB; orphan; loopA; loopB] = Some forest ∧
    ∀ g, g ∈ groupsOf forest
         ↔ g ∈ [gA; gB; orphan; loopA; loopB]
           ∧ ∃ k, atDepth [gA; gB; orphan; loopA; loopB] k (group_id g).
Proof.
  apply (buildGroupTree_members codeUnitCompare [gA; gB; orphan; loopA; loopB] 6).
  - exact codeUnitCompare_Consistent.
  - by apply (bool_decide_unpack _).
  - simpl. lia.
Defined.

End Members.

(** ** [buildGroupTree]: the forests of two orders of one input *)

Section StableSort.
Import JS TreeOrder.
Context {A : Type} `{EqDecision A}.

Lemma before_elem (l : list A) a b : before l a b = true → a ∈ l ∧ b ∈ l.
Proof.
  induction l as [|x l IH]; [done|]. simpl. destruct (decide (x = a)) as [->|Hne].
  - intros Hb. apply bool_decide_eq_true in Hb. split; [left|by right].
  - intros Hb. destruct (IH Hb). split; by right.
Qed.

Lemma before_head (l : list A) a b : b ∈ l → before (a :: l) a b = true.
Proof.
  intros Hb. simpl. destruct (decide (a = a)); [|done]. by apply bool_decide_eq_true.
Qed.

Lemma before_cons_ne (l : list A) x a b : x ≠ a → before (x :: l) a b = before l a b.
Proof. intros Hne. simpl. by destruct (decide (x = a)). Qed.

Lemma before_asym (l : list A) a b :
  NoDup l → before l a b = true → before l b a = true → False.
Proof.
  induction l as [|x l IH]; [done|]. intros Hnd. apply NoDup_cons in Hnd as [Hx Hnd].
  simpl. destruct (decide (x = a)) as [Ea|Ha], (decide (x = b)) as [Eb|Hb].
  - subst a b. intros H _. by apply bool_decide_eq_true in H.
  - subst a. intros _ H. by apply before_elem in H as [_ H].
  - subst b. intros H _. by apply before_elem in H as [_ H].
  - by apply IH.
Qed.

Lemma before_fmap {B : Type} `{EqDecision B} (f : A → B) (l : list A) a b :
  (∀ x, x ∈ l → f x = f a → x = a) →
  (∀ x, x ∈ l → f x = f b → x = b) →
  before (f <$> l) (f a) (f b) = before l a b.
Proof.
  induction l as [|x l IH]; intros Ha Hb; [done|].
  rewrite fmap_cons. simpl.
  destruct (decide (x = a)) as [->|Hne].
  - destruct (decide (f a = f a)); [|done].
    apply bool_decide_ext. rewrite list_elem_of_fmap. split.
    + intros (y & Hy & Hin). by rewrite <-(Hb y (list_elem_of_further _ _ _ Hin) (eq_sym Hy)).
    + intros Hin. by exists b.
  - destruct (decide (f x = f a)) as [E|_].
    + destruct Hne. apply Ha; [left|done].
    + apply IH; intros y Hy; [apply Ha|apply Hb]; by right.
Qed.

Lemma before_filter (P : A → Prop) `{∀ x, Decision (P x)} (l : list A) a b :
  P a → P b → before (filter P l) a b = before l a b.
Proof.
  intros Ha Hb. induction l as [|x l IH]; [done|].
  rewrite filter_cons. destruct (decide (P x)) as [Hx|Hx].
  - simpl. destruct (decide (x = a)); [|done].
    apply bool_decide_ext. rewrite list_elem_of_filter. naive_solver.
  - rewrite before_cons_ne; [done|]. by intros ->.
Qed.

Variable compareFn : A → A → Z.
Hypothesis HC : Consistent compareFn.

Lemma sort_insert_stable x l s :
  NoDup (x :: l) → (∀ y, y ∈ s → y ∈ l) →
  StronglySorted (stableLe compareFn l) s →
  StronglySorted (stableLe compareFn (x :: l)) (sort_insert compareFn x s).
Proof.
  intros Hnd Hsub Hs. apply NoDup_cons in Hnd as [Hx _]. destruct HC as [Hanti Htrans].
  assert (Hlift : ∀ a b, a ∈ l → stableLe compareFn l a b →
                         stableLe compareFn (x :: l) a b).
  { intros a b Ha [H1 H2]. split; [done|]. intros E.
    rewrite before_cons_ne; [by apply H2|]. by intros ->. }
  induction Hs as [|y s Hs IH Hy]; simpl.
  - repeat constructor.
  - assert (Hys : ∀ z, z ∈ s → z ∈ l) by (intros z Hz; apply Hsub; by right).
    assert (Hyl : y ∈ l) by (apply Hsub; left).
    assert (Hs' : StronglySorted (stableLe compareFn (x :: l)) (y :: s)).
    { constructor.
      - clear IH. induction Hs as [|z s Hs IHs Hz]; constructor.
        + apply IHs; [intros; apply Hsub; set_solver| |set_solver].
          by apply Forall_cons_1 in Hy as [_ Hy].
        + eapply Forall_impl; [exact Hz|]. intros w Hw. apply Hlift; [|done]. apply Hys. left.
      - eapply Forall_impl; [exact Hy|]. intros w Hw. by apply Hlift. }
    destruct (0 <? compareFn x y) eqn:E.
    + apply Z.ltb_lt in E. constructor; [by apply IH|].
      rewrite sort_insert_Permutation. constructor.
      * split; [specialize (Hanti x y); lia|]. intros E0. specialize (Hanti x y). lia.
      * eapply Forall_impl; [exact Hy|]. intros w Hw. by apply Hlift.
    + apply Z.ltb_ge in E. constructor; [done|].
      apply Forall_forall. intros z Hz.
      assert (compareFn x z ≤ 0) as Hxz.
      { apply elem_of_cons in Hz as [->|Hz]; [done|].
        rewrite Forall_forall in Hy. destruct (Hy z Hz) as [Hyz _]. by eapply Htrans. }
      split; [done|]. intros _. apply before_head. by apply Hsub.
Qed.

Lemma array_sort_StableSorted l :
  NoDup l → StronglySorted (stableLe compareFn l) (array_sort compareFn l).
Proof.
  induction l as [|x l IH]; intros Hnd; [constructor|].
  change (array_sort compareFn (x :: l))
    with (sort_insert compareFn x (array_sort compareFn l)).
  apply sort_insert_stable; [done| |].
  - intros y Hy. by rewrite array_sort_Permutation in Hy.
  - apply IH. by apply NoDup_cons in Hnd as [_ ?].
Qed.

Lemma StronglySorted_impl_on (R R' : A → A → Prop) l :
  (∀ x y, x ∈ l → y ∈ l → R x y → R' x y) → StronglySorted R l → StronglySorted R' l.
Proof.
  intros H Hs. apply (StronglySorted_fmap_inv R R' id); [done|]. by rewrite list_fmap_id.
Qed.

(** Two arrays with the same elements sort to the same array as soon
    as they list in the same order the elements that compare as equal. *)
Lemma array_sort_agree l l' :
  NoDup l → l ≡ₚ l' →
  (∀ x y, x ∈ l → y ∈ l → compareFn x y = 0 →
     before l' x y = true → before l x y = true) →
  array_sort compareFn l = array_sort compareFn l'.
Proof.
  intros Hnd Hp Hties.
  assert (NoDup l') as Hnd' by by rewrite <-Hp.
  apply (StronglySorted_unique_strong (stableLe compareFn l)).
  - intros x y _ _ [H1 H2] [H3 H4]. exfalso.
    destruct HC as [Hanti _]. specialize (Hanti x y).
    assert (compareFn x y = 0) as E by lia. assert (compareFn y x = 0) as E' by lia.
    exact (before_asym l x y Hnd (H2 E) (H4 E')).
  - by apply array_sort_StableSorted.
  - apply (StronglySorted_impl_on (stableLe compareFn l')); [|by apply array_sort_StableSorted].
    intros x y Hx Hy [H1 H2]. rewrite array_sort_Permutation, <-Hp in Hx, Hy.
    split; [done|]. intros E. apply Hties; auto.
  - by rewrite !array_sort_Permutation.
Qed.

End StableSort.

Section Reordered.
Import JS Tree TreeSpec TreeOrder.
Variable localeCompare : string → string → Z.
Hypothesis HC : Consistent localeCompare.

Lemma atDepth_perm gs gs' k i : gs ≡ₚ gs' → atDepth gs k i → atDepth gs' k i.
Proof.
  intros Hp H. induction H as [g Hg Hr|g p k Hg Hc H IH].
  - constructor; [by rewrite <-Hp|done].
  - econstructor; [by rewrite <-Hp|done|done].
Qed.

Lemma fmap_mapM_shape_on (F G : string → option GroupTreeNode) l :
  (∀ c, c ∈ l → fmap (M := option) shape (F c) = fmap (M := option) shape (G c)) →
  fmap (M := option) (fmap (M := list) shape) (mapM F l)
  = fmap (M := option) (fmap (M := list) shape) (mapM G l).
Proof.
  intros H. induction l as [|x l IH]; simpl; [done|].
  pose proof (H x (list_elem_of_here _ _)) as Hx.
  assert (IH' := IH (λ c Hc, H c (list_elem_of_further _ _ _ Hc))). clear IH.
  destruct (F x), (G x); simpl in *; try done.
  injection Hx as Hx. destruct (mapM F l), (mapM G l); simpl in *; try done.
  injection IH' as IH'. f_equal. by f_equal.
Qed.

(** Two stores that agree on the groups, and on the [children] arrays
    of a set of nodes closed under children, give trees of the same
    shape below every node of the set. *)
Lemma readNode_shape_ext_on (D : string → Prop) f : ∀ (m m' : Store) r,
  (∀ i, groupOf m i = groupOf m' i) →
  (∀ i, D i → childrenOf m i = childrenOf m' i) →
  (∀ i c, D i → c ∈ childrenOf m i → D c) →
  D r →
  fmap (M := option) shape (readNode f m r) = fmap (M := option) shape (readNode f m' r).
Proof.
  induction f as [|f IH]; intros m m' r Hg Hc Hd Hr; simpl; [done|].
  pose proof (Hg r) as Hgr. pose proof (Hc r Hr) as Hcr. pose proof (Hd r) as Hdr.
  unfold groupOf, childrenOf in Hgr, Hcr, Hdr.
  destruct (m !! r) as [n|], (m' !! r) as [n'|]; simpl in *; try done.
  injection Hgr as Hgr. rewrite <-Hcr.
  pose proof (fmap_mapM_shape_on (readNode f m) (readNode f m') (node_children n)
                (λ c Hin, IH m m' c Hg Hc Hd (Hdr c Hr Hin))) as HM.
  destruct (mapM (readNode f m) (node_children n)), (mapM (readNode f m') (node_children n));
    simpl in *; try done.
  injection HM as HM. f_equal. by f_equal.
Qed.

Section Input.
Variable gs : list Group.
Hypothesis Hnd : NoDup (group_id <$> gs).

Abbreviation B := (linked gs).1.
Abbreviation SB := (sortAll localeCompare (linked gs).1).
Abbreviation cmpB :=
  (λ a b : string, localeCompare (nodeName (linked gs).1 a) (nodeName (linked gs).1 b)).

Lemma NoDup_input : NoDup gs.
Proof. by apply (NoDup_fmap_1 group_id). Qed.

Lemma NoDup_ids (P : Group → bool) : NoDup (group_id <$> filter P gs).
Proof.
  apply NoDup_fmap_2_strong; [|apply NoDup_filter, NoDup_input].
  intros x y [_ Hx]%list_elem_of_filter [_ Hy]%list_elem_of_filter.
  by apply (group_by_id gs Hnd).
Qed.

Lemma before_ids (P : Group → bool) g1 g2 :
  g1 ∈ gs → g2 ∈ gs → P g1 → P g2 →
  before (group_id <$> filter P gs) (group_id g1) (group_id g2) = before gs g1 g2.
Proof.
  intros H1 H2 P1 P2. rewrite before_fmap.
  - by apply before_filter.
  - intros x [_ Hx]%list_elem_of_filter. by apply (group_by_id gs Hnd).
  - intros x [_ Hx]%list_elem_of_filter. by apply (group_by_id gs Hnd).
Qed.

(** What [mapM] reads under the ids of groups of the input are trees
    holding these groups. *)
Lemma read_ids f : ∀ ids cs,
  (∀ c, c ∈ ids → c ∈ group_id <$> gs) →
  mapM (readNode f SB) ids = Some cs →
  group_id <$> (treeGroup <$> cs) = ids.
Proof.
  intros ids cs Hin Hm. apply mapM_Some in Hm.
  induction Hm as [|c t ids cs Hc Hm IH]; [done|].
  rewrite !fmap_cons, IH by (intros; apply Hin; by right).
  destruct (readNode_TreeOf localeCompare HC gs Hnd f c t) as (g & _ & -> & -> & _);
    [apply Hin; left|done|done].
Qed.

Lemma filter_ids_in (P : Group → bool) c :
  c ∈ sortNodes localeCompare B (group_id <$> filter P gs) → c ∈ group_id <$> gs.
Proof.
  intros Hc. apply elem_of_sortNodes in Hc.
  apply list_elem_of_fmap in Hc as (g & -> & [_ Hg]%list_elem_of_filter).
  by apply list_elem_of_fmap_2.
Qed.

(** The array read under the sorted ids of the groups satisfying [P]
    is sorted by name, names comparing as equal in the order of the
    input. *)
Lemma read_order (P : Group → bool) f cs :
  mapM (readNode f SB) (sortNodes localeCompare B (group_id <$> filter P gs)) = Some cs →
  StronglySorted (inOrder localeCompare gs) (treeGroup <$> cs).
Proof.
  intros Hm.
  pose proof (read_ids f _ cs (filter_ids_in P) Hm) as Hids.
  destruct (read_list localeCompare HC gs Hnd P f cs (readNode_TreeOf localeCompare HC gs Hnd f) Hm)
    as (Hperm & _ & _).
  pose proof (array_sort_StableSorted cmpB (Consistent_names localeCompare HC B)
                (group_id <$> filter P gs) (NoDup_ids P)) as Hs.
  fold (sortNodes localeCompare B (group_id <$> filter P gs)) in Hs. rewrite <-Hids in Hs.
  eapply StronglySorted_fmap_inv; [|exact Hs].
  intros x y Hx Hy. rewrite Hperm in Hx, Hy.
  apply list_elem_of_filter in Hx as [Px Hx], Hy as [Py Hy].
  unfold stableLe, inOrder.
  rewrite !(linked_nodeName gs Hnd) by done. by rewrite before_ids.
Qed.

Lemma readNode_Ordered f : ∀ r t,
  r ∈ group_id <$> gs → readNode f SB r = Some t → Ordered localeCompare gs t.
Proof.
  induction f as [|f IH]; intros r t Hr Hread; [done|].
  simpl in Hread.
  apply list_elem_of_fmap in Hr as (g & -> & Hg).
  destruct (SB !! group_id g) as [n|] eqn:En; [|done]. simpl in Hread.
  destruct (mapM (readNode f SB) (node_children n)) as [cs|] eqn:Em; [|done].
  simpl in Hread. injection Hread as <-.
  assert (Hcn : node_children n
                = sortNodes localeCompare B (group_id <$> filter (childOf (group_id g)) gs)).
  { pose proof (childrenOf_sortAll localeCompare B (group_id g)) as H.
    rewrite (linked_children gs Hnd) in H by by apply list_elem_of_fmap_2.
    unfold childrenOf at 1 in H. by rewrite En in H. }
  rewrite Hcn in Em. constructor; [by apply (read_order (childOf (group_id g)) f)|].
  apply mapM_Some in Em.
  assert (Hin : ∀ c, c ∈ sortNodes localeCompare B
                           (group_id <$> filter (childOf (group_id g)) gs) →
                     c ∈ group_id <$> gs)
    by apply (filter_ids_in (childOf (group_id g))).
  revert Hin Em.
  generalize (sortNodes localeCompare B (group_id <$> filter (childOf (group_id g)) gs)).
  intros ids Hin Em. induction Em as [|c t ids cs Hc Em IHm]; constructor.
  - eapply IH; [|exact Hc]. apply Hin. left.
  - apply IHm. intros; apply Hin; by right.
Qed.

(** The node of a group of a tree, in a forest over the input. *)
Lemma node_of_member forest :
  treeGroup <$> forest ≡ₚ filter isRoot gs →
  Forall (TreeOf localeCompare gs) forest →
  ∀ g, g ∈ gs → inTree gs g →
    ∃ n, n ∈ flat_map nodesOf forest ∧ treeGroup n = g ∧ TreeOf localeCompare gs n.
Proof.
  intros Hroots Hall g Hg [k Hd]. rewrite Forall_forall in Hall.
  remember (group_id g) as i eqn:Ei. revert g Hg Ei.
  induction Hd as [g0 Hg0 Hr0|g0 p k Hg0 Hch Hd IH]; intros g Hg Ei.
  - assert (g = g0) as -> by (by apply (group_by_id gs Hnd)).
    destruct (elem_of_perm_fmap forest (filter isRoot gs) g0 Hroots) as (t & Ht & Htg).
    { by apply list_elem_of_filter. }
    exists t. split_and!; [|done|by apply Hall].
    apply elem_of_flat_map. exists t. split; [apply nodesOf_self|done].
  - assert (g = g0) as -> by (by apply (group_by_id gs Hnd)).
    destruct (atDepth_inv gs k p Hd) as (gp & Hgp & -> & _).
    destruct (IH gp Hgp eq_refl) as (tp & Htp & Htg & Htree).
    destruct tp as [g' cs lv pa]. cbn [treeGroup] in Htg. subst g'.
    inversion Htree as [g' cs' lv' pa' _ Hperm _ Hcs]; subst.
    destruct (elem_of_perm_fmap cs _ g0 Hperm) as (c & Hc & Hcg).
    { by apply list_elem_of_filter. }
    rewrite Forall_forall in Hcs.
    exists c. split_and!; [|done|by apply Hcs].
    apply elem_of_flat_map in Htp as (r & Htp & Hr).
    apply elem_of_flat_map. exists r. split; [|done].
    by apply (nodesOf_child r (TreeNode gp cs lv pa) c).
Qed.

(** The pairs (parent, child) of a forest over the input. *)
Lemma edges_of_forest forest :
  treeGroup <$> forest ≡ₚ filter isRoot gs →
  Forall (TreeOf localeCompare gs) forest →
  ∀ p c, (p, c) ∈ edgesOf forest
         ↔ p ∈ gs ∧ c ∈ gs ∧ childOf (group_id p) c ∧ inTree gs p.
Proof.
  intros Hroots Hall p c. split.
  - intros He. unfold edgesOf in He.
    apply elem_of_flat_map in He as (n & He & Hn).
    apply list_elem_of_fmap in He as (cn & [= -> ->] & Hcn).
    apply elem_of_flat_map in Hn as (t & Hn & Ht).
    rewrite Forall_forall in Hall.
    assert (treeGroup t ∈ filter isRoot gs) as Hr.
    { rewrite <-Hroots. by apply list_elem_of_fmap_2. }
    apply list_elem_of_filter in Hr as [Hr Htg].
    destruct (TreeOf_members localeCompare gs t 0 (Hall t Ht)
                (atDepth_root gs _ Htg Hr) n Hn) as (Hng & Hnt & Hnd').
    destruct n as [g cs lv pa]. cbn [treeGroup treeChildren] in *.
    inversion Hnt as [g' cs' lv' pa' _ Hperm _ _]; subst.
    assert (treeGroup cn ∈ filter (childOf (group_id g)) gs) as Hc.
    { rewrite <-Hperm. by apply list_elem_of_fmap_2. }
    apply list_elem_of_filter in Hc as [Hc Hcg]. by split_and!.
  - intros (Hp & Hc & Hch & Htree).
    destruct (node_of_member forest Hroots Hall p Hp Htree) as (n & Hn & <- & Hnt).
    destruct n as [g cs lv pa]. cbn [treeGroup] in *.
    inversion Hnt as [g' cs' lv' pa' _ Hperm _ _]; subst.
    destruct (elem_of_perm_fmap cs _ c Hperm) as (cn & Hcn & <-).
    { by apply list_elem_of_filter. }
    unfold edgesOf. apply elem_of_flat_map. exists (TreeNode g cs lv pa).
    split; [|done]. cbn [treeGroup treeChildren]. apply list_elem_of_fmap. by exists cn.
Qed.

End Input.

Section Permuted.
Variables gs gs' : list Group.
Hypothesis Hnd : NoDup (group_id <$> gs).
Hypothesis Hperm : gs ≡ₚ gs'.

Lemma nodeName_perm i : nodeName (linked gs').1 i = nodeName (linked gs).1 i.
Proof. by rewrite !nodeName_groupOf, (perm_groupOf gs gs' Hnd Hperm). Qed.

Lemma inTree_perm g : inTree gs g ↔ inTree gs' g.
Proof.
  split; intros [k H]; exists k; [by apply (atDepth_perm gs gs')|].
  by apply (atDepth_perm gs' gs).
Qed.

Hypothesis Hties : TiesOrdered localeCompare gs gs'.

Lemma sorted_agree (P : Group → bool) :
  (∀ g1 g2, g1 ∈ gs → g2 ∈ gs → P g1 → P g2 → inTree gs g1 ∧ siblings gs g1 g2) →
  sortNodes localeCompare (linked gs).1 (group_id <$> filter P gs)
  = sortNodes localeCompare (linked gs').1 (group_id <$> filter P gs').
Proof.
  intros HP. unfold sortNodes.
  rewrite (array_sort_ext
             (λ a b, localeCompare (nodeName (linked gs').1 a) (nodeName (linked gs').1 b))
             (λ a b, localeCompare (nodeName (linked gs).1 a) (nodeName (linked gs).1 b)))
    by (intros a b; by rewrite !nodeName_perm).
  apply array_sort_agree.
  - by apply Consistent_names.
  - by apply NoDup_ids.
  - by rewrite Hperm.
  - intros x y (g1 & -> & [P1 H1]%list_elem_of_filter)%list_elem_of_fmap
               (g2 & -> & [P2 H2]%list_elem_of_filter)%list_elem_of_fmap.
    rewrite !(linked_nodeName gs Hnd) by done. intros E.
    rewrite (before_ids gs Hnd) by done.
    rewrite (before_ids gs' (perm_NoDup gs gs' Hnd Hperm)) by (by rewrite <-?Hperm).
    destruct (HP g1 g2 H1 H2 P1 P2) as [Ht Hs].
    by rewrite (Hties g1 g2 H1 H2 Ht Hs E).
Qed.

Lemma ties_roots :
  sortNodes localeCompare (linked gs).1 (linked gs).2
  = sortNodes localeCompare (linked gs').1 (linked gs').2.
Proof.
  rewrite !linked_roots. apply sorted_agree. intros g1 g2 H1 H2 P1 P2. split.
  - exists 0%nat. by constructor.
  - by left.
Qed.

Lemma ties_children i :
  (∃ k, atDepth gs k i) →
  childrenOf (sortAll localeCompare (linked gs).1) i
  = childrenOf (sortAll localeCompare (linked gs').1) i.
Proof.
  intros [k Hd]. rewrite !childrenOf_sortAll.
  pose proof (atDepth_elem gs k i Hd) as Hi.
  rewrite (linked_children gs Hnd) by done.
  rewrite (linked_children gs'); [|by apply (perm_NoDup gs gs')|by rewrite <-Hperm].
  apply sorted_agree. intros g1 g2 H1 H2 P1 P2.
  apply list_elem_of_fmap in Hi as (p & -> & Hp). split.
  - exists (S k). by apply (atDepth_child gs g1 (group_id p) k).
  - right. by exists p.
Qed.

End Permuted.

End Reordered.

Section SameShape.
Import JS Tree TreeSpec TreeOrder.
Variable localeCompare : string → string → Z.
Hypothesis HC : Consistent localeCompare.

Lemma tie_sym (a b : string) : localeCompare a b = 0 → localeCompare b a = 0.
Proof. intros H. destruct HC as [Hs _]. specialize (Hs a b). rewrite H in Hs. lia. Qed.

Lemma before_absent {A} `{EqDecision A} (l : list A) a b : b ∉ l → before l a b = false.
Proof.
  intros Hb. destruct (before l a b) eqn:E; [|done]. by apply before_elem in E as [_ E].
Qed.

Lemma before_irrefl {A} `{EqDecision A} (l : list A) a : NoDup l → before l a a = false.
Proof.
  intros Hnd. destruct (before l a a) eqn:E; [|done]. by destruct (before_asym l a a).
Qed.

(** In an array sorted by name with ties in the order of the input,
    two groups whose names compare as equal stand as in the input. *)
Lemma before_sorted (gs l : list Group) g1 g2 :
  NoDup gs → NoDup l → StronglySorted (inOrder localeCompare gs) l →
  g1 ∈ l → g2 ∈ l → localeCompare (group_name g1) (group_name g2) = 0 →
  before gs g1 g2 = before l g1 g2.
Proof.
  intros Hgs Hl Hs H1 H2 Htie. induction Hs as [|x l Hs IH Hx]; [by apply elem_of_nil in H1|].
  apply NoDup_cons in Hl as [Hxl Hl]. rewrite Forall_forall in Hx.
  destruct (decide (x = g1)) as [->|Hne1].
  - simpl. destruct (decide (g1 = g1)); [|done].
    apply elem_of_cons in H2 as [->|H2].
    + rewrite before_irrefl by done. symmetry. by apply bool_decide_eq_false.
    + destruct (Hx g2 H2) as [_ Hb]. rewrite (Hb Htie). symmetry. by apply bool_decide_eq_true.
  - rewrite before_cons_ne by done.
    apply elem_of_cons in H1 as [->|H1]; [done|].
    apply elem_of_cons in H2 as [->|H2].
    + rewrite (before_absent l g1 x) by done.
      destruct (Hx g1 H1) as [_ Hb]. specialize (Hb (tie_sym _ _ Htie)).
      destruct (before gs g1 x) eqn:E; [|done]. by destruct (before_asym gs g1 x).
    + by apply IH.
Qed.

Lemma shape_group_children t t' :
  shape t = shape t' →
  treeGroup t = treeGroup t' ∧ shape <$> treeChildren t = shape <$> treeChildren t'.
Proof. destruct t, t'. simpl. intros [= -> H]. split; [done|exact H]. Qed.

Lemma shape_groups (l l' : list GroupTreeNode) :
  shape <$> l = shape <$> l' → treeGroup <$> l = treeGroup <$> l'.
Proof.
  revert l'. induction l as [|t l IH]; intros [|t' l'] H; try done.
  rewrite !fmap_cons in H. injection H as Ht Hl.
  rewrite !fmap_cons. f_equal; [by apply shape_group_children|by apply IH].
Qed.

(** Every node of one of two trees of the same shape has a node of its
    shape in the other. *)
Lemma shape_nodes : ∀ t t' n,
  shape t = shape t' → n ∈ nodesOf t → ∃ n', n' ∈ nodesOf t' ∧ shape n = shape n'.
Proof.
  induction t as [g cs lv pa IH] using GroupTreeNode_nested_ind.
  intros [g' cs' lv' pa'] n Hs Hn. simpl in Hn.
  apply elem_of_cons in Hn as [->|Hn].
  - eexists. split; [apply nodesOf_self|done].
  - apply shape_group_children in Hs as [_ Hs]. cbn [treeChildren] in Hs.
    assert (∃ n', n' ∈ flat_map nodesOf cs' ∧ shape n = shape n') as (n' & Hn' & E).
    { clear g g' lv lv' pa pa'. revert cs' Hs.
      induction IH as [|c0 cs0 Hc0 IH IHcs]; intros cs' Hs; [by apply elem_of_nil in Hn|].
      destruct cs' as [|c0' cs0']; [done|]. rewrite !fmap_cons in Hs. injection Hs as H0 Hs.
      simpl in Hn. apply elem_of_app in Hn as [Hn|Hn].
      - destruct (Hc0 c0' n H0 Hn) as (n' & Hn' & E). exists n'. split; [|done].
        simpl. apply elem_of_app. by left.
      - destruct (IHcs Hn cs0' Hs) as (n' & Hn' & E). exists n'. split; [|done].
        simpl. apply elem_of_app. by right. }
    exists n'. split; [|done]. simpl. by right.
Qed.

Lemma shape_forest_nodes (forest forest' : list GroupTreeNode) n :
  shape <$> forest = shape <$> forest' → n ∈ flat_map nodesOf forest →
  ∃ n', n' ∈ flat_map nodesOf forest' ∧ shape n = shape n'.
Proof.
  revert forest'. induction forest as [|t forest IH]; intros forest' Hs Hn;
    [by apply elem_of_nil in Hn|].
  destruct forest' as [|t' forest']; [done|]. rewrite !fmap_cons in Hs. injection Hs as H0 Hs.
  simpl in Hn. apply elem_of_app in Hn as [Hn|Hn].
  - destruct (shape_nodes t t' n H0 Hn) as (n' & Hn' & E). exists n'. split; [|done].
    simpl. apply elem_of_app. by left.
  - destruct (IH forest' Hs Hn) as (n' & Hn' & E). exists n'. split; [|done].
    simpl. apply elem_of_app. by right.
Qed.

Lemma Ordered_nodes gs : ∀ t n,
  Ordered localeCompare gs t → n ∈ nodesOf t → Ordered localeCompare gs n.
Proof.
  induction t as [g cs lv pa IH] using GroupTreeNode_nested_ind.
  intros n Ho Hn. simpl in Hn. apply elem_of_cons in Hn as [->|Hn]; [done|].
  inversion Ho as [g' cs' lv' pa' _ Hcs]; subst.
  apply elem_of_flat_map in Hn as (c & Hn & Hc).
  rewrite Forall_forall in IH, Hcs. by apply (IH c Hc n (Hcs c Hc)).
Qed.

Lemma Ordered_forest_nodes gs forest n :
  Forall (Ordered localeCompare gs) forest → n ∈ flat_map nodesOf forest →
  StronglySorted (inOrder localeCompare gs) (treeGroup <$> treeChildren n).
Proof.
  intros Hall Hn. apply elem_of_flat_map in Hn as (t & Hn & Ht).
  rewrite Forall_forall in Hall.
  pose proof (Ordered_nodes gs t n (Hall t Ht) Hn) as Ho.
  by inversion Ho.
Qed.

Section Permuted.
Variables gs gs' : list Group.
Hypothesis Hnd : NoDup (group_id <$> gs).
Hypothesis Hperm : gs ≡ₚ gs'.
Variables forest forest' : list GroupTreeNode.
Hypothesis Hroots : treeGroup <$> forest ≡ₚ filter isRoot gs.
Hypothesis Hall : Forall (TreeOf localeCompare gs) forest.
Hypothesis Hsorted : StronglySorted (inOrder localeCompare gs) (treeGroup <$> forest).
Hypothesis Hordered : Forall (Ordered localeCompare gs) forest.
Hypothesis Hsorted' : StronglySorted (inOrder localeCompare gs') (treeGroup <$> forest').
Hypothesis Hordered' : Forall (Ordered localeCompare gs') forest'.

(** Two forests of the same shape have their ties in the same order. *)
Lemma same_shape_ties :
  shape <$> forest = shape <$> forest' → TiesOrdered localeCompare gs gs'.
Proof.
  intros Hshape g1 g2 H1 H2 Htree Hsib Htie.
  pose proof (NoDup_input gs Hnd) as Hgs.
  pose proof (NoDup_input gs' (perm_NoDup gs gs' Hnd Hperm)) as Hgs'.
  assert (Hlist : ∀ l, l ≡ₚ filter isRoot gs ∨ (∃ i, l ≡ₚ filter (childOf i) gs) → NoDup l).
  { intros l [Hl|[i Hl]]; rewrite Hl; by apply NoDup_filter. }
  destruct Hsib as [[Hr1 Hr2]|(p & Hp & Hc1 & Hc2)].
  - assert (g1 ∈ treeGroup <$> forest ∧ g2 ∈ treeGroup <$> forest) as [Hi1 Hi2].
    { rewrite Hroots. split; by apply list_elem_of_filter. }
    rewrite (before_sorted gs (treeGroup <$> forest) g1 g2); [|auto..].
    rewrite (shape_groups _ _ Hshape) in Hi1, Hi2 |- *.
    symmetry. apply before_sorted; auto.
    apply Hlist. left. by rewrite <-(shape_groups _ _ Hshape).
  - assert (inTree gs p) as Hpt.
    { destruct Htree as [k Hk]. apply atDepth_inv in Hk as (g & Hg & Hid & Hcase).
      assert (g = g1) as -> by (by apply (group_by_id gs Hnd)).
      destruct k as [|j]; [by destruct (root_not_child (group_id p) g1)|].
      destruct Hcase as (p0 & Hp0 & Hj). exists j.
      by rewrite (childOf_inj (group_id p) p0 g1). }
    destruct (node_of_member localeCompare gs Hnd forest Hroots Hall p Hp Hpt)
      as (n & Hn & Hng & Hnt).
    destruct (shape_forest_nodes forest forest' n Hshape Hn) as (n' & Hn' & E).
    apply shape_group_children in E as [_ E]. apply shape_groups in E.
    pose proof (Ordered_forest_nodes gs forest n Hordered Hn) as Hs.
    pose proof (Ordered_forest_nodes gs' forest' n' Hordered' Hn') as Hs'.
    destruct n as [g cs lv pa]. cbn [treeGroup treeChildren] in *. subst g.
    inversion Hnt as [g0 cs0 lv0 pa0 _ Hcs _ _]; subst.
    assert (g1 ∈ treeGroup <$> cs ∧ g2 ∈ treeGroup <$> cs) as [Hi1 Hi2].
    { rewrite Hcs. split; by apply list_elem_of_filter. }
    rewrite (before_sorted gs (treeGroup <$> cs) g1 g2); [|eauto..].
    rewrite E in Hi1, Hi2 |- *.
    symmetry. apply before_sorted; auto.
    apply Hlist. right. exists (group_id p). by rewrite <-E.
Qed.

End Permuted.

End SameShape.

Section ReorderClaim.
Import JS Tree TreeSpec TreeOrder Samples.


Lemma lost_not_inTree g : g = lost1 ∨ g = lost2 → ¬ inTree mixed g.
Proof.
  intros Hg [k Hk].
  assert (atDepth mixed k (group_id g) → ∃ j, atDepth mixed j "o") as Hup.
  { intros H. apply atDepth_inv in H as (x & Hx & Hid & Hcase).
    assert (x = g) as ->.
    { unfold mixed in Hx. destruct Hg as [-> | ->]; list_cases Hx; done. }
    destruct k as [|j].
    - destruct Hg as [-> | ->]; done.
    - destruct Hcase as (p & Hp & Hj). exists j.
      apply childOf_spec in Hp as [_ Hp]. destruct Hg as [-> | ->]; by injection Hp as <-. }
  destruct (Hup Hk) as (j & Hj).
  apply atDepth_inv in Hj as (x & Hx & Hid & Hcase).
  assert (x = stray) as ->.
  { unfold mixed in Hx. list_cases Hx; done. }
  destruct j as [|j]; [done|].
  destruct Hcase as (p & Hp & Hj). apply childOf_spec in Hp as [_ Hp]. injection Hp as <-.
  apply atDepth_elem in Hj. unfold mixed in Hj.
  apply list_elem_of_In in Hj. simpl in Hj. intuition discriminate.
Qed.

Lemma mixed_ties : TiesOrdered codeUnitCompare mixed mixed'.
Proof.
  intros g1 g2 H1 H2 Htree Hsib Htie. unfold mixed in H1, H2.
  list_cases H1; list_cases H2;
    try (vm_compute; reflexivity);
    try (vm_compute in Htie; discriminate);
    try (destruct Hsib as [[Hr1 Hr2]|(p & _ & Hc1 & Hc2)];
         [by (vm_compute in Hr1, Hr2)
         |apply childOf_spec in Hc1 as [Ht1 Hp1], Hc2 as [Ht2 Hp2];
          (done || congruence)]);
    destruct (lost_not_inTree _ (or_introl eq_refl) Htree)
    || destruct (lost_not_inTree _ (or_intror eq_refl) Htree).
Qed.


End ReorderClaim.
